(** * sknetwork.utils.parse: edge lists to sparse matrices

    A shallow embedding of [edgelist2adjacency] and [edgelist2biadjacency]
    (src/sknetwork/utils/parse.py) together with the parts of NumPy and SciPy
    the two functions call.  The library semantics is that of NumPy 1.x and
    SciPy 1.x on a 64-bit Linux/x86-64 host, the platform the package targeted
    when the file was written:
    - [np.array] discovers one element type for the whole edge list;
    - [astype(np.int32)] is a C cast (two's complement wrap-around for
      integers, truncation toward zero for doubles);
    - [sparse.csr_matrix((data, (row, col)), shape)] validates the
      coordinates, buckets them by row, sorts every row by column and sums
      the entries that share a coordinate; the sort is [std::sort], which
      leaves the order of the entries of one column open, and every
      statement below holds whichever order it picks. *)

From Stdlib Require Import String.
From Stdlib Require Import ZArith Zpower List Bool Lia Arith Sorted Permutation.
From Stdlib Require Import Floats.SpecFloat.
Import ListNotations.
Local Open Scope Z_scope.

(** ** Machine integers *)

(** The value of the low [w] bits of [z], read as a signed integer. *)
Definition wrap (w z : Z) : Z := (z + 2 ^ (w - 1)) mod 2 ^ w - 2 ^ (w - 1).

Definition wrap32 : Z -> Z := wrap 32.
Definition wrap64 : Z -> Z := wrap 64.
Definition wrapU64 (z : Z) : Z := z mod 2 ^ 64.

Definition INT32_MIN : Z := - 2 ^ 31.
Definition INT32_MAX : Z := 2 ^ 31 - 1.

Definition in_int32 (z : Z) : bool := (INT32_MIN <=? z) && (z <=? INT32_MAX).
Definition in_int64 (z : Z) : bool := (- 2 ^ 63 <=? z) && (z <? 2 ^ 63).
Definition in_uint64 (z : Z) : bool := (0 <=? z) && (z <? 2 ^ 64).

(** ** Binary64 floating point numbers *)

Definition float64 : Type := spec_float.

Definition f64_add : float64 -> float64 -> float64 := SFadd 53 1024.

(** Conversion of an integer to the nearest double (ties to even). *)
Definition f64_of_Z (z : Z) : float64 := binary_normalize 53 1024 z 0 false.

(** Truncation toward zero of a finite double; [None] on NaN and infinities. *)
Definition f64_trunc (f : float64) : option Z :=
  match f with
  | S754_zero _ => Some 0
  | S754_finite s m e =>
      let a := Z.shiftl (Zpos m) e in Some (if s then - a else a)
  | S754_infinity _ | S754_nan => None
  end.

(** The C cast [(npy_int)x] of a double.  Out of range values and NaN are
    undefined behaviour in C; the x86-64 conversion instruction yields the
    "integer indefinite" value [INT32_MIN] for them. *)
Definition f64_to_int32 (f : float64) : Z :=
  match f64_trunc f with
  | Some t => if in_int32 t then t else INT32_MIN
  | None => INT32_MIN
  end.

(** ** Python values, exceptions *)

(** The fields of an edge record: Python ints (unbounded) and floats. *)
Inductive pyval : Type :=
| PyInt (z : Z)
| PyFloat (f : float64).

(** An edge is a tuple of fields, an edge list a list of tuples. *)
Definition edge : Type := list pyval.

Inductive exn : Type := IndexError | ValueError | OverflowError | TypeError.

Definition exn_name (e : exn) : string :=
  match e with
  | IndexError => "IndexError"
  | ValueError => "ValueError"
  | OverflowError => "OverflowError"
  | TypeError => "TypeError"
  end.

Inductive result (A : Type) : Type :=
| Ok (a : A)
| Raise (e : exn).
Arguments Ok {A} a.
Arguments Raise {A} e.

Definition bind {A B : Type} (r : result A) (k : A -> result B) : result B :=
  match r with
  | Ok a => k a
  | Raise e => Raise e
  end.

Notation "x <- r ;; k" := (bind r (fun x => k))
  (at level 61, r at next level, right associativity).

Fixpoint mapM {A B : Type} (f : A -> result B) (l : list A) : result (list B) :=
  match l with
  | [] => Ok []
  | a :: t => b <- f a ;; bs <- mapM f t ;; Ok (b :: bs)
  end.

(** ** NumPy *)

Module Np.

Inductive dtype : Type := Bool | Int64 | UInt64 | Float64 | Object.

Definition dtype_eqb (a b : dtype) : bool :=
  match a, b with
  | Bool, Bool | Int64, Int64 | UInt64, UInt64
  | Float64, Float64 | Object, Object => true
  | _, _ => false
  end.

(** An array element, tagged with the type it is stored at. *)
Inductive scalar : Type :=
| SBool (b : bool)
| SInt (z : Z)
| SUInt (z : Z)
| SFloat (f : float64)
| SObj (p : pyval).

(** One- and two-dimensional arrays.  For the one-dimensional arrays that
    [np.array] returns here (the empty list, and ragged input kept as an
    array of tuple objects) only the length matters. *)
Inductive ndarray : Type :=
| Arr1 (dt : dtype) (size : nat)
| Arr2 (dt : dtype) (ncols : nat) (cells : list (list scalar)).

Record vector : Type := mkvec { vdtype : dtype; vdata : list scalar }.

(** Type discovery for one Python scalar: a float is a double; an int is a
    C long long if it fits, else an unsigned long long if it fits, else a
    Python object. *)
Definition scalar_type (p : pyval) : dtype :=
  match p with
  | PyFloat _ => Float64
  | PyInt z =>
      if in_int64 z then Int64 else if in_uint64 z then UInt64 else Object
  end.

(** [np.promote_types] on the types above. *)
Definition promote_types (a b : dtype) : dtype :=
  if dtype_eqb a b then a else
  match a, b with
  | Object, _ | _, Object => Object
  | Bool, d | d, Bool => d
  | _, _ => Float64
  end.

Definition result_type (l : list pyval) : dtype :=
  match l with
  | [] => Float64
  | p :: t => fold_left (fun d q => promote_types d (scalar_type q)) t (scalar_type p)
  end.

(** Storing a Python scalar in an array of type [dt]. *)
Definition convert (dt : dtype) (p : pyval) : scalar :=
  match dt, p with
  | Int64, PyInt z => SInt (wrap64 z)
  | UInt64, PyInt z => SUInt (wrapU64 z)
  | Float64, PyInt z => SFloat (f64_of_Z z)
  | Float64, PyFloat f => SFloat f
  | _, _ => SObj p
  end.

(** [np.array(edgelist)] *)
Definition array (edgelist : list edge) : ndarray :=
  match edgelist with
  | [] => Arr1 Float64 0
  | r :: rest =>
      let k := length r in
      if forallb (fun r' => Nat.eqb (length r') k) rest
      then let dt := result_type (concat edgelist) in
           Arr2 dt k (map (map (convert dt)) edgelist)
      else Arr1 Object (length edgelist)
  end.

(** [a.shape[1]] *)
Definition shape1 (a : ndarray) : result nat :=
  match a with
  | Arr1 _ _ => Raise IndexError
  | Arr2 _ k _ => Ok k
  end.

(** [a[:, j]] *)
Definition column (a : ndarray) (j : nat) : result vector :=
  match a with
  | Arr1 _ _ => Raise IndexError
  | Arr2 dt k cells =>
      if Nat.ltb j k
      then Ok (mkvec dt (map (fun r => nth j r (SObj (PyInt 0))) cells))
      else Raise IndexError
  end.

(** Conversion of one element to [np.int32]. Elements of numeric arrays are
    cast as in C; elements of object arrays go through Python's [int()] and
    a C long. *)
Definition to_int32 (s : scalar) : result Z :=
  match s with
  | SBool b => Ok (if b then 1 else 0)
  | SInt z | SUInt z => Ok (wrap32 z)
  | SFloat f => Ok (f64_to_int32 f)
  | SObj (PyInt z) => if in_int64 z then Ok (wrap32 z) else Raise OverflowError
  | SObj (PyFloat f) =>
      match f with
      | S754_nan => Raise ValueError
      | S754_infinity _ => Raise OverflowError
      | _ => match f64_trunc f with
             | Some t => if in_int64 t then Ok (wrap32 t) else Raise OverflowError
             | None => Raise OverflowError
             end
      end
  end.

(** [v.astype(np.int32)] *)
Definition astype_int32 (v : vector) : result (list Z) :=
  mapM to_int32 (vdata v).

(** [v.max()] and [v.min()] on an int32 array; the reduction of an empty
    array has no identity and raises. *)
Definition max (v : list Z) : result Z :=
  match v with
  | [] => Raise ValueError
  | x :: t => Ok (fold_left Z.max t x)
  end.

Definition min (v : list Z) : result Z :=
  match v with
  | [] => Raise ValueError
  | x :: t => Ok (fold_left Z.min t x)
  end.

(** [np.ones_like(v, dtype=bool)] *)
Definition ones_like_bool (v : list Z) : vector :=
  mkvec Bool (map (fun _ => SBool true) v).

End Np.

(** ** SciPy sparse *)

Module Sparse.
Import Np.

(** A stored entry of one row: column index and value. *)
Definition entry : Type := (Z * scalar)%type.

(** Compressed sparse row matrix: [indptr] has one more element than the
    matrix has rows, and row [i] owns the positions
    [indptr[i] .. indptr[i+1] - 1] of [indices] and [data]. *)
Record csr_matrix : Type := mkcsr {
  shape : Z * Z;
  dtype : Np.dtype;
  indptr : list Z;
  indices : list Z;
  data : list scalar
}.

(** [A.nnz] *)
Definition nnz (A : csr_matrix) : nat := length (data A).

(** Addition of two elements of one type (the [+=] of sparsetools):
    logical or on booleans, wrap-around on integers. *)
Definition scalar_add (x y : scalar) : scalar :=
  match x, y with
  | SBool a, SBool b => SBool (a || b)
  | SInt a, SInt b => SInt (wrap64 (a + b))
  | SUInt a, SUInt b => SUInt (wrapU64 (a + b))
  | SFloat a, SFloat b => SFloat (f64_add a b)
  | _, _ => x
  end.

(** The zero of a type, the value of every position that is not stored. *)
Definition zero (dt : Np.dtype) : scalar :=
  match dt with
  | Bool => SBool false
  | Int64 => SInt 0
  | UInt64 => SUInt 0
  | Float64 => SFloat (S754_zero false)
  | Object => SObj (PyInt 0)
  end.

(** [coo_tocsr], per row: the entries of row [i] in input order. *)
Fixpoint bucket (i : Z) (row col : list Z) (dat : list scalar) : list entry :=
  match row, col, dat with
  | r :: row', c :: col', x :: dat' =>
      if r =? i then (c, x) :: bucket i row' col' dat'
      else bucket i row' col' dat'
  | _, _, _ => []
  end.

(** [csr_sort_indices], per row: [std::sort] on the (column, value) pairs of
    the row, with a comparison of the column indices alone.  The result is
    in ascending column order.  The order in which entries of equal column
    come out is not fixed by the C++ standard, and [std::sort] is not a
    stable sort (the introsort of libstdc++ keeps the input order in rows
    of at most 16 entries only).  That order is a parameter of the model:
    a [row_order] gives for every row, entry by entry, the place at which
    the entry is put among the entries that follow it.  [arrange] is thus an
    arbitrary rearrangement of the row, and the insertion sort that comes
    after it keeps entries of equal column in the rearranged order.  The
    order only shows in floating point sums of three or more duplicates. *)
Definition row_order : Type := list entry -> list nat.

Definition insert_at (n : nat) (e : entry) (l : list entry) : list entry :=
  firstn n l ++ e :: skipn n l.

Fixpoint arrange (places : list nat) (l : list entry) : list entry :=
  match l with
  | [] => []
  | e :: t => insert_at (hd 0%nat places) e (arrange (tl places) t)
  end.

Fixpoint insert (e : entry) (l : list entry) : list entry :=
  match l with
  | [] => [e]
  | h :: t => if fst e <=? fst h then e :: l else h :: insert e t
  end.

Fixpoint insertion_sort (l : list entry) : list entry :=
  match l with
  | [] => []
  | e :: t => insert e (insertion_sort t)
  end.

Definition sort_indices (order : row_order) (l : list entry) : list entry :=
  insertion_sort (arrange (order l) l).

(** [csr_sum_duplicates], per row: a run of entries with the same column
    becomes one entry, the values added from left to right. *)
Fixpoint sum_run (j : Z) (x : scalar) (l : list entry) : list entry :=
  match l with
  | [] => [(j, x)]
  | (j', x') :: t =>
      if j' =? j then sum_run j (scalar_add x x') t
      else (j, x) :: sum_run j' x' t
  end.

Definition sum_duplicates (l : list entry) : list entry :=
  match l with
  | [] => []
  | (j, x) :: t => sum_run j x t
  end.

(** The rows of the matrix in canonical form. *)
Definition canonical_rows (order : row_order) (M : Z) (row col : list Z)
           (dat : list scalar) : list (list entry) :=
  map (fun i => sum_duplicates (sort_indices order (bucket (Z.of_nat i) row col dat)))
      (seq 0 (Z.to_nat M)).

(** Row pointers: running count of the stored entries. *)
Fixpoint indptr_from (acc : Z) (rows : list (list entry)) : list Z :=
  match rows with
  | [] => [acc]
  | r :: rows' => acc :: indptr_from (acc + Z.of_nat (length r)) rows'
  end.

Definition of_rows (sh : Z * Z) (dt : Np.dtype) (rows : list (list entry))
  : csr_matrix :=
  mkcsr sh dt (indptr_from 0 rows)
        (map fst (concat rows)) (map snd (concat rows)).

(** [coo_matrix._check]: every index lies inside the shape. *)
Definition check (sh : Z * Z) (row col : list Z) : result unit :=
  match row, col with
  | [], _ | _, [] => Ok tt
  | _, _ =>
      rmax <- Np.max row ;;
      if fst sh <=? rmax then Raise ValueError else
      cmax <- Np.max col ;;
      if snd sh <=? cmax then Raise ValueError else
      rmin <- Np.min row ;;
      if rmin <? 0 then Raise ValueError else
      cmin <- Np.min col ;;
      if cmin <? 0 then Raise ValueError else
      Ok tt
  end.

(** The order of equal columns in one row also depends on the other rows:
    SciPy runs the sort only when some row of the matrix is out of order,
    and then on every row.  The tie-break of a call of the constructor is
    therefore chosen from the coordinate buffers of the call. *)
Definition tie_break : Type := list Z -> list Z -> list scalar -> row_order.

(** The tie-break of a stable sort: every entry stays in front of the
    entries after it. *)
Definition stable : tie_break := fun _ _ _ _ => [].

(** [sparse.csr_matrix((data, (row, col)), shape=sh)]: the shape is
    checked, then the coordinates, then the triplets are converted to
    canonical compressed rows; object arrays have no sparse kernels.  [tie]
    is the tie-break of the sort the conversion runs. *)
Definition csr_matrix_coo (tie : tie_break) (dat : vector) (row col : list Z)
           (sh : Z * Z) : result csr_matrix :=
  if (fst sh <? 0) || (snd sh <? 0) then Raise ValueError else
  if negb (Nat.eqb (length row) (length (vdata dat))
           && Nat.eqb (length col) (length (vdata dat)))
  then Raise ValueError else
  _ <- check sh row col ;;
  match vdtype dat with
  | Object => Raise TypeError
  | dt => Ok (of_rows sh dt (canonical_rows (tie row col (vdata dat)) (fst sh)
                                            row col (vdata dat)))
  end.

(** Reading a matrix: the stored entries of row [i] ... *)
Definition row_entries (A : csr_matrix) (i : nat) : list entry :=
  let lo := Z.to_nat (nth i (indptr A) 0) in
  let hi := Z.to_nat (nth (S i) (indptr A) 0) in
  firstn (hi - lo) (skipn lo (combine (indices A) (data A))).

(** ... and the value stored at [(i, j)], if any. *)
Definition lookup (j : Z) (l : list entry) : option scalar :=
  option_map snd (find (fun e => fst e =? j) l).

Definition stored (A : csr_matrix) (i : nat) (j : Z) : option scalar :=
  lookup j (row_entries A i).

(** [A[i, j]] *)
Definition get (A : csr_matrix) (i : nat) (j : Z) : scalar :=
  match stored A i j with
  | Some x => x
  | None => zero (dtype A)
  end.

End Sparse.

(** ** sknetwork.utils.parse *)

Import Np Sparse.

Section Symmetrization.

(** The tie-break of the sort that the sparse constructor runs. *)
Variable tie : tie_break.

(** The operator that combines an entry with its mirror. *)
Variable combine : scalar -> scalar -> scalar.

(** Position [(i, j)] of the union of [A] and its transpose: stored when
    [A] stores the position or its mirror, with the combined value. *)
Definition union_cell (A : csr_matrix) (i j : nat) : list entry :=
  match stored A i (Z.of_nat j), stored A j (Z.of_nat i) with
  | None, None => []
  | _, _ => [(Z.of_nat j, combine (get A i (Z.of_nat j)) (get A j (Z.of_nat i)))]
  end.

(** Row [i] of the union, columns in ascending order. *)
Definition union_row (A : csr_matrix) (i : nat) : list entry :=
  flat_map (union_cell A i) (seq 0 (Z.to_nat (snd (shape A)))).

(** Modelled from the spec: [directed2undirected] is imported from
    sknetwork.utils and its code is not part of parse.py.  The specification
    describes it as the union of a square sparse matrix and its transpose,
    the two combined entry by entry with an operator (maximum, sum or logical
    or) that it leaves open; the operator is the parameter [combine]. *)
Definition directed2undirected (A : csr_matrix) : csr_matrix :=
  of_rows (shape A) (dtype A)
          (map (union_row A) (seq 0 (Z.to_nat (fst (shape A))))).

(** [edgelist2adjacency(edgelist, undirected=False)], parse.py lines 41-51.
    The two [astype] calls of line 42 run from left to right.  On line 43
    [row.max()] and [col.max()] are [np.int32] scalars and adding the Python
    int [1] promotes to a 64-bit integer, hence [wrap64]. *)
Definition edgelist2adjacency (edgelist : list edge) (undirected : bool)
  : result csr_matrix :=
  let edges := Np.array edgelist in
  c0 <- Np.column edges 0 ;;
  row <- Np.astype_int32 c0 ;;
  c1 <- Np.column edges 1 ;;
  col <- Np.astype_int32 c1 ;;
  rmax <- Np.max row ;;
  cmax <- Np.max col ;;
  let n := wrap64 (Z.max rmax cmax + 1) in
  k <- Np.shape1 edges ;;
  data <- (if Nat.ltb 2 k then Np.column edges 2
           else Ok (Np.ones_like_bool row)) ;;
  adjacency <- csr_matrix_coo tie data row col (n, n) ;;
  if undirected then Ok (directed2undirected adjacency) else Ok adjacency.

End Symmetrization.

(** [edgelist2biadjacency(edgelist)], parse.py lines 77-85: the same steps
    with one bound per axis and no symmetrization. *)
Definition edgelist2biadjacency (tie : tie_break) (edgelist : list edge)
  : result csr_matrix :=
  let edges := Np.array edgelist in
  c0 <- Np.column edges 0 ;;
  row <- Np.astype_int32 c0 ;;
  c1 <- Np.column edges 1 ;;
  col <- Np.astype_int32 c1 ;;
  rmax <- Np.max row ;;
  cmax <- Np.max col ;;
  let n_row := wrap64 (rmax + 1) in
  let n_col := wrap64 (cmax + 1) in
  k <- Np.shape1 edges ;;
  data <- (if Nat.ltb 2 k then Np.column edges 2
           else Ok (Np.ones_like_bool row)) ;;
  csr_matrix_coo tie data row col (n_row, n_col).

(** ** The coordinate buffers *)

(** Lines 41-42 and 44-47 of parse.py (77-78 and 80-83 in the second
    function), the part the two conversions share: the [row], [col] and
    [data] buffers they hand to the sparse constructor.  The statements below
    name the buffers through [decode]; [edgelist2adjacency_decode] and
    [edgelist2biadjacency_decode] show that each conversion is [decode]
    followed by its own shape and its call of the constructor. *)
Definition decode (edgelist : list edge) : result (vector * list Z * list Z) :=
  let edges := Np.array edgelist in
  c0 <- Np.column edges 0 ;;
  row <- Np.astype_int32 c0 ;;
  c1 <- Np.column edges 1 ;;
  col <- Np.astype_int32 c1 ;;
  k <- Np.shape1 edges ;;
  data <- (if Nat.ltb 2 k then Np.column edges 2
           else Ok (Np.ones_like_bool row)) ;;
  Ok (data, row, col).

(** The values of the input records at coordinate [(i, j)], in input order. *)
Fixpoint records_at (i j : Z) (row col : list Z) (dat : list scalar)
  : list scalar :=
  match row, col, dat with
  | r :: row', c :: col', x :: dat' =>
      if (r =? i) && (c =? j) then x :: records_at i j row' col' dat'
      else records_at i j row' col' dat'
  | _, _, _ => []
  end.

(** Their sum, added from left to right in the element type. *)
Definition sum_scalars (l : list scalar) : option scalar :=
  match l with
  | [] => None
  | x :: t => Some (fold_left scalar_add t x)
  end.

(** The elements of an array of type [dt]. *)
Definition has_dtype (dt : Np.dtype) (x : scalar) : Prop :=
  match dt, x with
  | Bool, SBool _ | Int64, SInt _ | UInt64, SUInt _
  | Float64, SFloat _ | Object, SObj _ => True
  | _, _ => False
  end.

(** The sum of [l] is the same in whatever order its elements are added. *)
Definition order_free (l : list scalar) : Prop :=
  forall l' : list scalar, Permutation l' l -> sum_scalars l' = sum_scalars l.

(** Column indices in strictly ascending order. *)
Definition ascending (l : list entry) : Prop :=
  StronglySorted Z.lt (map fst l).

(** [m] is the greatest element of [l]. *)
Definition is_max (m : Z) (l : list Z) : Prop :=
  In m l /\ Forall (fun x => x <= m) l.

(** ** Shapes of input *)

(** A Python int that fits the default 64-bit integer type. *)
Definition is_int64 (p : pyval) : bool :=
  match p with
  | PyInt z => in_int64 z
  | PyFloat _ => false
  end.

Definition is_float (p : pyval) : bool :=
  match p with
  | PyInt _ => false
  | PyFloat _ => true
  end.


(** The records of the data model: an index is an int in [0, 2^31), a weight
    a float or an int that a 64-bit integer type can hold; a record of arity
    [k] is [(i, j)] when [k = 2] and [(i, j, w)] when [k = 3]. *)
Definition is_index (p : pyval) : bool :=
  match p with
  | PyInt z => (0 <=? z) && (z <=? INT32_MAX)
  | PyFloat _ => false
  end.

Definition is_weight (p : pyval) : bool :=
  match p with
  | PyInt z => in_int64 z || in_uint64 z
  | PyFloat _ => true
  end.

Definition well_formed (k : nat) (e : edge) : bool :=
  match e with
  | [i; j] => Nat.eqb k 2 && is_index i && is_index j
  | [i; j; w] => Nat.eqb k 3 && is_index i && is_index j && is_weight w
  | _ => false
  end.

(** The row and column indices written in an edge list. *)
Definition index_of (p : pyval) : Z :=
  match p with
  | PyInt z => z
  | PyFloat _ => 0
  end.

Definition rows_of (el : list edge) : list Z :=
  map (fun e => index_of (nth 0 e (PyInt 0))) el.

Definition cols_of (el : list edge) : list Z :=
  map (fun e => index_of (nth 1 e (PyInt 0))) el.

(** The index fields of a record reduced to their low 32 bits. *)
Definition wrap_index (p : pyval) : pyval :=
  match p with
  | PyInt z => PyInt (wrap32 z)
  | PyFloat f => PyFloat f
  end.

Definition wrap_indices (e : edge) : edge :=
  match e with
  | i :: j :: w => wrap_index i :: wrap_index j :: w
  | [i] => [wrap_index i]
  | [] => []
  end.

(** Truth value of an element, and the logical-or policy of symmetrization. *)
Definition truth (x : scalar) : bool :=
  match x with
  | SBool b => b
  | SInt z | SUInt z => negb (z =? 0)
  | SFloat (S754_zero _) => false
  | SFloat _ => true
  | SObj _ => true
  end.

Definition logical_or (x y : scalar) : scalar := SBool (truth x || truth y).

(** ** Examples

    The edge lists of the docstrings and of the specification, with the
    matrices the conversions return on them.  The doubles are written as
    mantissa and exponent: [f64_2] is [2.0], [f64_0_2] is the double nearest
    to [0.2], and so on. *)

(** Edge records of the docstrings and of the specification. *)
Definition pair (i j : Z) : edge := [PyInt i; PyInt j].
Definition triple (i j : Z) (w : pyval) : edge := [PyInt i; PyInt j; w].

Definition f64_2 : float64 := S754_finite false 4503599627370496 (-51).
Definition f64_3 : float64 := S754_finite false 6755399441055744 (-51).
Definition f64_5 : float64 := S754_finite false 5629499534213120 (-50).
Definition f64_0_2 : float64 := S754_finite false 7205759403792794 (-55).
Definition f64_1_3 : float64 := S754_finite false 5854679515581645 (-52).

(** The two weighted edges [(0, 1, 2.0)] and [(0, 1, 3.0)]. *)
Definition two_edges : list edge :=
  [triple 0 1 (PyFloat f64_2); triple 0 1 (PyFloat f64_3)].

(** The edge lists of the docstrings. *)
Definition triangle : list edge := [pair 0 1; pair 1 2; pair 2 0].
Definition bipartite : list edge := [pair 0 0; pair 1 0; pair 1 1; pair 2 1].
Definition weighted_triangle : list edge :=
  [triple 0 1 (PyFloat f64_0_2); triple 1 2 (PyInt 4); triple 2 0 (PyFloat f64_1_3)].

(** The matrices the conversions return on [two_edges]. *)
Definition two_edges_adjacency : csr_matrix :=
  mkcsr (2, 2) Float64 [0; 1; 1] [1] [SFloat f64_5].
Definition two_edges_biadjacency : csr_matrix :=
  mkcsr (1, 2) Float64 [0; 1] [1] [SFloat f64_5].

(** The matrix of the first docstring example. *)
Definition triangle_adjacency : csr_matrix :=
  mkcsr (3, 3) Bool [0; 1; 2; 3] [1; 2; 0] [SBool true; SBool true; SBool true].

(** An edge given twice, and the matrices built from it. *)
Definition double_edge : list edge := [pair 0 1; pair 0 1].
Definition double_edge_adjacency : csr_matrix :=
  mkcsr (2, 2) Bool [0; 1; 1] [1] [SBool true].
Definition double_edge_biadjacency : csr_matrix :=
  mkcsr (1, 2) Bool [0; 1] [1] [SBool true].

(** Integer weights, and the matrices of the weighted examples. *)
Definition integer_weights : list edge :=
  [triple 0 1 (PyInt 2); triple 1 2 (PyInt 4); triple 2 0 (PyInt 1)].

(** The symmetrized triangle under the logical-or policy, and a bipartite
    edge list whose matrix is square but not symmetric. *)
Definition triangle_undirected : csr_matrix :=
  mkcsr (3, 3) Bool [0; 2; 4; 6] [1; 2; 0; 2; 0; 1]
        [SBool true; SBool true; SBool true; SBool true; SBool true; SBool true].
Definition one_sided : list edge := [pair 0 1; pair 1 1].
Definition one_sided_biadjacency : csr_matrix :=
  mkcsr (2, 2) Bool [0; 1; 2] [1; 1] [SBool true; SBool true].

(** An edge whose row index [2^32 + 1] does not fit 32 bits, and the matrix
    built from it. *)
Definition overflowing : list edge := [pair 4294967297 0].
Definition overflowing_biadjacency : csr_matrix :=
  mkcsr (2, 1) Bool [0; 0; 1] [0] [SBool true].
Definition overflowing_adjacency : csr_matrix :=
  mkcsr (2, 2) Bool [0; 0; 1] [0] [SBool true].


(** The matrix of the docstring example of [edgelist2biadjacency]. *)
Definition bipartite_biadjacency : csr_matrix :=
  mkcsr (3, 2) Bool [0; 1; 3; 4] [0; 0; 1; 1]
        [SBool true; SBool true; SBool true; SBool true].

(** ** Vocabulary of the further properties *)

(** The layout of a compressed sparse row matrix: one row pointer more than
    rows, starting at zero, never decreasing and ending at the number of
    stored entries; as many column indices as values, each inside the
    shape. *)
Definition well_formed_csr (A : csr_matrix) : Prop :=
  0 <= fst (shape A) /\ 0 <= snd (shape A)
  /\ length (indptr A) = S (Z.to_nat (fst (shape A)))
  /\ nth 0 (indptr A) 0 = 0
  /\ (forall i : nat, (i < Z.to_nat (fst (shape A)))%nat ->
        nth i (indptr A) 0 <= nth (S i) (indptr A) 0)
  /\ nth (Z.to_nat (fst (shape A))) (indptr A) 0 = Z.of_nat (nnz A)
  /\ length (indices A) = length (data A)
  /\ Forall (fun c => 0 <= c < snd (shape A)) (indices A).

(** The value a record contributes to an array of type [dt]: its third field
    stored at that type, or the presence marker of a pair. *)
Definition stored_weight (dt : Np.dtype) (e : edge) : scalar :=
  match e with
  | [_; _; w] => convert dt w
  | _ => SBool true
  end.

(** The coordinate a record names. *)
Definition coordinate (e : edge) : Z * Z :=
  (index_of (nth 0 e (PyInt 0)), index_of (nth 1 e (PyInt 0))).

(** An index written as a float, replaced by the integer it truncates to. *)
Definition truncate_index (p : pyval) : pyval :=
  match p with
  | PyInt z => PyInt z
  | PyFloat f =>
      match f64_trunc f with
      | Some t => PyInt t
      | None => PyFloat f
      end
  end.

Definition truncate_indices (e : edge) : edge :=
  match e with
  | i :: j :: w => truncate_index i :: truncate_index j :: w
  | _ => e
  end.

(** A record [(i, j, w)] with a float weight whose indices, ints or floats,
    truncate to integers of [0, 2^31). *)
Definition float_weighted (e : edge) : bool :=
  match e with
  | [i; j; PyFloat _] => is_index (truncate_index i) && is_index (truncate_index j)
  | _ => false
  end.

(** [(1.5, 2, 2.0)]: a row index written as a fractional float. *)
Definition f64_1_5 : float64 := S754_finite false 6755399441055744 (-52).
Definition float_indexed : list edge :=
  [[PyFloat f64_1_5; PyInt 2; PyFloat f64_2]].

(** * Properties *)

(** ** Machine integers *)

Lemma wrap32_range (z : Z) : INT32_MIN <= wrap32 z <= INT32_MAX.
Proof.
  unfold wrap32, wrap, INT32_MIN, INT32_MAX.
  change (2 ^ (32 - 1)) with 2147483648. change (2 ^ 32) with 4294967296.
  change (2 ^ 31) with 2147483648.
  pose proof (Z.mod_pos_bound (z + 2147483648) 4294967296 eq_refl). lia.
Qed.

Lemma wrap32_small (z : Z) : INT32_MIN <= z <= INT32_MAX -> wrap32 z = z.
Proof.
  unfold wrap32, wrap, INT32_MIN, INT32_MAX.
  change (2 ^ (32 - 1)) with 2147483648. change (2 ^ 32) with 4294967296.
  change (2 ^ 31) with 2147483648. intros H.
  rewrite Z.mod_small by lia. lia.
Qed.

Lemma wrap32_idem (z : Z) : wrap32 (wrap32 z) = wrap32 z.
Proof. apply wrap32_small, wrap32_range. Qed.

Lemma wrap64_small (z : Z) : - 2 ^ 63 <= z < 2 ^ 63 -> wrap64 z = z.
Proof.
  unfold wrap64, wrap.
  change (2 ^ (64 - 1)) with 9223372036854775808.
  change (2 ^ 64) with 18446744073709551616.
  change (2 ^ 63) with 9223372036854775808. intros H.
  rewrite Z.mod_small by lia. lia.
Qed.

Lemma in_int64_spec (z : Z) : in_int64 z = true <-> - 2 ^ 63 <= z < 2 ^ 63.
Proof. unfold in_int64. rewrite andb_true_iff, Z.leb_le, Z.ltb_lt. tauto. Qed.

Lemma in_int32_spec (z : Z) : in_int32 z = true <-> INT32_MIN <= z <= INT32_MAX.
Proof. unfold in_int32. rewrite andb_true_iff, !Z.leb_le. tauto. Qed.

Lemma int32_in_int64 (z : Z) : INT32_MIN <= z <= INT32_MAX -> in_int64 z = true.
Proof.
  unfold INT32_MIN, INT32_MAX. intros H. apply in_int64_spec.
  change (2 ^ 31) with 2147483648 in H.
  change (2 ^ 63) with 9223372036854775808. lia.
Qed.

(** ** Doubles that hold small integers *)

Lemma digits2_size (p : positive) : digits2_pos p = Pos.size p.
Proof. induction p; simpl; congruence. Qed.

Lemma digits2_shift (p k : positive) :
  digits2_pos (Pos.iter xO p k) = (digits2_pos p + k)%positive.
Proof.
  induction k as [|k IH] using Pos.peano_ind.
  - simpl. lia.
  - rewrite Pos.iter_succ. simpl. rewrite IH. lia.
Qed.

Lemma digits2_bound (p : positive) (n : Z) :
  0 <= n -> Zpos p < 2 ^ n -> Zpos (digits2_pos p) <= n.
Proof.
  intros Hn Hp. rewrite digits2_size.
  pose proof (Pos.size_le p) as H.
  apply Pos2Z.pos_le_pos in H. rewrite Pos2Z.inj_pow in H.
  change (Z.pos p~0) with (2 * Z.pos p) in H.
  destruct (Z.le_gt_cases (Z.pos (Pos.size p)) n) as [|Hgt]; [assumption|].
  assert (H2 : 2 ^ (n + 1) <= 2 ^ Z.pos (Pos.size p))
    by (apply Z.pow_le_mono_r; lia).
  rewrite Z.pow_add_r in H2 by lia. lia.
Qed.

(** An integer of fewer than 53 bits is converted without rounding: the
    mantissa is the integer shifted left to 53 bits. *)
Lemma f64_of_pos (p : positive) :
  Zpos (digits2_pos p) < 53 ->
  f64_of_Z (Zpos p)
  = S754_finite false (Pos.iter xO p (Z.to_pos (53 - Zpos (digits2_pos p))))
                (Zpos (digits2_pos p) - 53).
Proof.
  intros Hd. unfold f64_of_Z, binary_normalize, binary_round.
  set (d := Zpos (digits2_pos p)) in *.
  assert (Hd0 : 0 < d) by (unfold d; lia).
  assert (Hf : fexp 53 1024 (d + 0) = d - 53).
  { unfold fexp, emin. lia. }
  rewrite Hf. unfold shl_align.
  replace (d - 53 - 0) with (Zneg (Z.to_pos (53 - d))) by lia.
  set (k := Z.to_pos (53 - d)).
  unfold binary_round_aux, shr_fexp.
  cbn [Zdigits2]. rewrite digits2_shift. fold k.
  assert (Hf2 : fexp 53 1024 (Z.pos (digits2_pos p + k) + (d - 53)) - (d - 53) = 0).
  { unfold fexp, emin. unfold k, d. lia. }
  rewrite Hf2.
  cbn [shr shr_record_of_loc shr_m loc_of_shr_record round_nearest_even Zdigits2].
  rewrite digits2_shift, Hf2.
  cbn [shr shr_m].
  replace (d - 53 <=? 1024 - 53) with true by (symmetry; apply Z.leb_le; lia).
  reflexivity.
Qed.

Lemma f64_trunc_of_Z (z : Z) :
  0 <= z < 2 ^ 52 -> f64_trunc (f64_of_Z z) = Some z.
Proof.
  intros Hz. destruct z as [|p|p]; [reflexivity| |lia].
  assert (Hd : Zpos (digits2_pos p) <= 52) by (apply digits2_bound; lia).
  rewrite f64_of_pos by lia. cbn [f64_trunc].
  set (d := Zpos (digits2_pos p)) in *.
  assert (Hd0 : 0 < d) by (unfold d; lia).
  f_equal.
  rewrite Z.shiftl_div_pow2 by lia.
  change (Pos.iter xO p (Z.to_pos (53 - d))) with (shift_pos (Z.to_pos (53 - d)) p).
  rewrite shift_pos_correct.
  change (Z.pow_pos 2 (Z.to_pos (53 - d))) with (2 ^ Z.pos (Z.to_pos (53 - d))).
  rewrite Z2Pos.id by lia.
  replace (- (d - 53)) with (53 - d) by lia.
  rewrite Z.mul_comm. apply Z.div_mul.
  apply Z.pow_nonzero; lia.
Qed.

(** An index written as an int survives the trip through a double. *)
Lemma f64_to_int32_of_Z (z : Z) :
  0 <= z <= INT32_MAX -> f64_to_int32 (f64_of_Z z) = z.
Proof.
  intros Hz. unfold f64_to_int32.
  assert (H52 : 0 <= z < 2 ^ 52).
  { unfold INT32_MAX in Hz. change (2 ^ 31) with 2147483648 in Hz.
    change (2 ^ 52) with 4503599627370496. lia. }
  rewrite (f64_trunc_of_Z z H52).
  replace (in_int32 z) with true; [reflexivity|].
  symmetry. apply in_int32_spec. unfold INT32_MIN, INT32_MAX in *.
  change (2 ^ 31) with 2147483648 in *. lia.
Qed.

(** ** Lists and the error monad *)

Lemma bind_Ok {A B : Type} (r : result A) (k : A -> result B) (b : B) :
  bind r k = Ok b -> exists a, r = Ok a /\ k a = Ok b.
Proof. destruct r as [a|e]; simpl; intros H; [eauto | discriminate]. Qed.

Ltac inv_bind H :=
  let a := fresh "v" in
  let Ha := fresh "E" in
  apply bind_Ok in H; destruct H as (a & Ha & H).

Lemma mapM_map {A B C : Type} (f : B -> result C) (g : A -> B) (l : list A) :
  mapM f (map g l) = mapM (fun a => f (g a)) l.
Proof. induction l as [|a t IH]; simpl; [reflexivity | now rewrite IH]. Qed.

Lemma mapM_ext_in {A B : Type} (f g : A -> result B) (l : list A) :
  (forall a, In a l -> f a = g a) -> mapM f l = mapM g l.
Proof.
  induction l as [|a t IH]; simpl; intros H; [reflexivity|].
  rewrite (H a) by auto. rewrite IH by auto. reflexivity.
Qed.

Lemma mapM_pure {A B : Type} (f : A -> result B) (g : A -> B) (l : list A) :
  (forall a, In a l -> f a = Ok (g a)) -> mapM f l = Ok (map g l).
Proof.
  induction l as [|a t IH]; simpl; intros H; [reflexivity|].
  rewrite (H a) by auto. simpl. rewrite IH by auto. reflexivity.
Qed.

Lemma combine_fst_snd {A B : Type} (l : list (A * B)) :
  combine (map fst l) (map snd l) = l.
Proof. induction l as [|[a b] t IH]; simpl; congruence. Qed.

Lemma fold_max_ge (l : list Z) (x : Z) :
  x <= fold_left Z.max l x /\ Forall (fun y => y <= fold_left Z.max l x) l.
Proof.
  revert x; induction l as [|a t IH]; simpl; intros x.
  - split; [lia | constructor].
  - destruct (IH (Z.max x a)) as [H1 H2]. split; [lia|].
    constructor; [lia | exact H2].
Qed.

Lemma fold_max_in (l : list Z) (x : Z) :
  fold_left Z.max l x = x \/ In (fold_left Z.max l x) l.
Proof.
  revert x; induction l as [|a t IH]; simpl; intros x; [now left|].
  destruct (IH (Z.max x a)) as [H|H]; [|now right; right].
  rewrite H. destruct (Z.max_spec x a) as [[_ E]|[_ E]]; rewrite E; auto.
Qed.

Lemma fold_min_le (l : list Z) (x : Z) :
  fold_left Z.min l x <= x /\ Forall (fun y => fold_left Z.min l x <= y) l.
Proof.
  revert x; induction l as [|a t IH]; simpl; intros x.
  - split; [lia | constructor].
  - destruct (IH (Z.min x a)) as [H1 H2]. split; [lia|].
    constructor; [lia | exact H2].
Qed.

Lemma max_is_max (l : list Z) (m : Z) : Np.max l = Ok m -> is_max m l.
Proof.
  destruct l as [|x t]; simpl; intros H; inversion H; subst; clear H.
  destruct (fold_max_ge t x) as [H1 H2]. split.
  - destruct (fold_max_in t x) as [E|E]; [left; now rewrite E | now right].
  - constructor; assumption.
Qed.

(** ** Compressed rows *)

Section CsrFacts.

Lemma indptr_from_head (acc : Z) (rows : list (list entry)) :
  nth 0 (indptr_from acc rows) 0 = acc.
Proof. destruct rows; reflexivity. Qed.

(** The pointers of row [i] cut row [i] out of the concatenated rows. *)
Lemma segment_nth (rows : list (list entry)) :
  forall (pre : list entry) (i : nat),
    let ptr := indptr_from (Z.of_nat (length pre)) rows in
    let lo := Z.to_nat (nth i ptr 0) in
    let hi := Z.to_nat (nth (S i) ptr 0) in
    firstn (hi - lo) (skipn lo (pre ++ concat rows)) = nth i rows [].
Proof.
  induction rows as [|r rs IH]; intros pre i; simpl.
  - destruct i as [|[|i]]; reflexivity.
  - destruct i as [|i].
    + rewrite indptr_from_head. rewrite Nat2Z.id.
      replace (Z.to_nat (Z.of_nat (length pre) + Z.of_nat (length r)) - length pre)%nat
        with (length r) by lia.
      rewrite skipn_app, skipn_all, Nat.sub_diag. simpl.
      rewrite firstn_app, firstn_all, Nat.sub_diag. simpl.
      now rewrite app_nil_r.
    + specialize (IH (pre ++ r) i). simpl in IH.
      rewrite length_app, Nat2Z.inj_add in IH.
      rewrite <- app_assoc in IH. exact IH.
Qed.

Lemma row_entries_of_rows (sh : Z * Z) (dt : Np.dtype)
      (rows : list (list entry)) (i : nat) :
  row_entries (of_rows sh dt rows) i = nth i rows [].
Proof.
  unfold row_entries, of_rows; simpl. rewrite combine_fst_snd.
  exact (segment_nth rows [] i).
Qed.

Lemma indptr_of_rows (sh : Z * Z) (dt : Np.dtype)
      (rows : list (list entry)) :
  forall (acc : Z) (i : nat), (i < length rows)%nat ->
    nth (S i) (indptr_from acc rows) 0
    = nth i (indptr_from acc rows) 0 + Z.of_nat (length (nth i rows [])).
Proof.
  induction rows as [|r rs IH]; intros acc i Hi; simpl in Hi; [lia|].
  destruct i as [|i].
  - simpl. now rewrite indptr_from_head.
  - change (nth (S (S i)) (indptr_from acc (r :: rs)) 0)
      with (nth (S i) (indptr_from (acc + Z.of_nat (length r)) rs) 0).
    change (nth (S i) (indptr_from acc (r :: rs)) 0)
      with (nth i (indptr_from (acc + Z.of_nat (length r)) rs) 0).
    apply IH. lia.
Qed.

(** *** Sorting *)

Lemma insert_keys (e : entry) (l : list entry) (x : Z) :
  In x (map fst (insert e l)) <-> x = fst e \/ In x (map fst l).
Proof.
  induction l as [|h t IH]; simpl.
  - intuition.
  - destruct (fst e <=? fst h); simpl; [intuition | rewrite IH; intuition].
Qed.

Lemma insert_sorted (e : entry) (l : list entry) :
  StronglySorted Z.le (map fst l) -> StronglySorted Z.le (map fst (insert e l)).
Proof.
  induction l as [|h t IH]; simpl; intros H.
  - repeat constructor.
  - inversion H as [|? ? Ht Hh]; subst.
    destruct (Z.leb_spec (fst e) (fst h)); simpl.
    + constructor; [exact H|]. constructor; [assumption|].
      rewrite Forall_forall in *. intros y Hy. specialize (Hh y Hy). lia.
    + constructor; [auto|]. rewrite Forall_forall in *.
      intros y Hy. apply insert_keys in Hy. destruct Hy as [->|Hy]; [lia | auto].
Qed.

Lemma insertion_sort_sorted (l : list entry) :
  StronglySorted Z.le (map fst (insertion_sort l)).
Proof. induction l; simpl; [constructor | now apply insert_sorted]. Qed.

(** The insertion sort is stable: the entries of one column keep their
    order. *)
Lemma insert_filter (c : Z) (e : entry) (l : list entry) :
  filter (fun h => fst h =? c) (insert e l)
  = filter (fun h => fst h =? c) (e :: l).
Proof.
  induction l as [|h t IH]; simpl; [reflexivity|].
  destruct (Z.leb_spec (fst e) (fst h)); simpl; [reflexivity|].
  rewrite IH. simpl.
  destruct (Z.eqb_spec (fst e) c), (Z.eqb_spec (fst h) c); try reflexivity; lia.
Qed.

Lemma insertion_sort_filter (c : Z) (l : list entry) :
  filter (fun h => fst h =? c) (insertion_sort l)
  = filter (fun h => fst h =? c) l.
Proof.
  induction l as [|e t IH]; simpl; [reflexivity|].
  rewrite insert_filter. simpl. now rewrite IH.
Qed.

Lemma insert_perm (e : entry) (l : list entry) : Permutation (insert e l) (e :: l).
Proof.
  induction l as [|h t IH]; simpl; [reflexivity|].
  destruct (fst e <=? fst h); [reflexivity|].
  rewrite IH. apply perm_swap.
Qed.

Lemma insertion_sort_perm (l : list entry) : Permutation (insertion_sort l) l.
Proof.
  induction l as [|e t IH]; simpl; [reflexivity|].
  rewrite insert_perm. now constructor.
Qed.

(** A list in ascending column order is left as it is. *)
Lemma insertion_sort_sorted_id (l : list entry) :
  StronglySorted Z.le (map fst l) -> insertion_sort l = l.
Proof.
  induction l as [|e t IH]; simpl; intros H; [reflexivity|].
  inversion H as [|? ? Ht He]; subst. rewrite (IH Ht).
  destruct t as [|h t']; [reflexivity|]. simpl.
  inversion He; subst. destruct (Z.leb_spec (fst e) (fst h)); [reflexivity | lia].
Qed.

(** *** The order of equal columns *)

Lemma insert_at_perm (n : nat) (e : entry) (l : list entry) :
  Permutation (insert_at n e l) (e :: l).
Proof.
  unfold insert_at. rewrite <- Permutation_middle.
  now rewrite firstn_skipn.
Qed.

Lemma arrange_perm (places : list nat) (l : list entry) :
  Permutation (arrange places l) l.
Proof.
  revert places; induction l as [|e t IH]; intros places; simpl; [reflexivity|].
  rewrite insert_at_perm. constructor. apply IH.
Qed.

(** Every rearrangement of a row is reached by some choice of places. *)
Lemma arrange_complete (l l' : list entry) :
  Permutation l l' -> exists places, arrange places l = l'.
Proof.
  revert l'; induction l as [|e t IH]; intros l' H.
  - apply Permutation_nil in H. subst. now exists [].
  - assert (Hin : In e l') by (apply (Permutation_in e H); now left).
    apply in_split in Hin. destruct Hin as (l1 & l2 & ->).
    apply Permutation_cons_app_inv in H.
    destruct (IH _ H) as [places Hp].
    exists (length l1 :: places). simpl. rewrite Hp. unfold insert_at.
    rewrite firstn_app, firstn_all, Nat.sub_diag, firstn_O, app_nil_r.
    rewrite skipn_app, skipn_all, Nat.sub_diag. reflexivity.
Qed.

Lemma arrange_stable (l : list entry) : arrange [] l = l.
Proof. induction l as [|e t IH]; simpl; [reflexivity|]. now rewrite IH. Qed.

Lemma filter_perm {A : Type} (p : A -> bool) (l l' : list A) :
  Permutation l l' -> Permutation (filter p l) (filter p l').
Proof.
  induction 1 as [|x l l' _ IH|x y l|l l' l'' _ IH1 _ IH2]; simpl.
  - constructor.
  - destruct (p x); [now constructor | assumption].
  - destruct (p x), (p y); try reflexivity. apply perm_swap.
  - now transitivity (filter p l').
Qed.

(** What [std::sort] guarantees: the row comes out in ascending column
    order, with the entries it went in with. *)
Lemma sort_indices_sorted {order : row_order} (l : list entry) :
  StronglySorted Z.le (map fst (sort_indices order l)).
Proof. apply insertion_sort_sorted. Qed.

Lemma sort_indices_perm {order : row_order} (l : list entry) :
  Permutation (sort_indices order l) l.
Proof.
  unfold sort_indices. rewrite insertion_sort_perm. apply arrange_perm.
Qed.

(** The entries of one column come out in some order. *)
Lemma sort_indices_filter {order : row_order} (c : Z) (l : list entry) :
  Permutation (filter (fun h => fst h =? c) (sort_indices order l))
              (filter (fun h => fst h =? c) l).
Proof. apply filter_perm, sort_indices_perm. Qed.

Lemma sort_indices_keys {order : row_order} (l : list entry) (c : Z) :
  In c (map fst (sort_indices order l)) <-> In c (map fst l).
Proof.
  pose proof (Permutation_map fst (sort_indices_perm (order:=order) l)) as H.
  split; intros Hc; [exact (Permutation_in c H Hc)|].
  exact (Permutation_in c (Permutation_sym H) Hc).
Qed.

Lemma sort_indices_nil {order : row_order} (l : list entry) :
  sort_indices order l = [] -> l = [].
Proof.
  intros H. pose proof (sort_indices_perm (order:=order) l) as Hp. rewrite H in Hp.
  now apply Permutation_nil in Hp.
Qed.

(** With the stable tie-break the sort is the insertion sort, ... *)
Lemma sort_indices_stable (row col : list Z) (dat : list scalar)
      (l : list entry) :
  sort_indices (stable row col dat) l = insertion_sort l.
Proof. unfold sort_indices, stable. now rewrite arrange_stable. Qed.

(** ... and every ascending rearrangement of a row is what the sort returns
    for some tie-break: the model leaves out no outcome of [std::sort]. *)
Lemma sort_indices_complete (l l' : list entry) :
  Permutation l l' -> StronglySorted Z.le (map fst l') ->
  exists order : row_order, sort_indices order l = l'.
Proof.
  intros Hp Hs. destruct (arrange_complete l l' Hp) as [places E].
  exists (fun _ => places). unfold sort_indices. rewrite E.
  now apply insertion_sort_sorted_id.
Qed.

(** *** Summing duplicates *)

Lemma filter_above (j : Z) (l : list entry) :
  Forall (fun c => j < c) (map fst l) ->
  filter (fun h => fst h =? j) l = [].
Proof.
  induction l as [|h t IH]; simpl; intros H; [reflexivity|].
  inversion H; subst. destruct (Z.eqb_spec (fst h) j); [lia | auto].
Qed.

Lemma sum_run_spec (l : list entry) :
  forall (j : Z) (x : scalar),
    StronglySorted Z.le (j :: map fst l) ->
    exists (y : scalar) (rest : list entry),
      sum_run j x l = (j, y) :: rest
      /\ y = fold_left scalar_add (map snd (filter (fun h => fst h =? j) l)) x
      /\ StronglySorted Z.lt (j :: map fst rest)
      /\ (forall c, c <> j -> lookup c rest
          = sum_scalars (map snd (filter (fun h => fst h =? c) l)))
      /\ (forall c, In c (map fst rest) -> In c (map fst l)).
Proof.
  induction l as [|[j' x'] t IH]; intros j x Hs; simpl.
  - exists x, []. repeat split; auto. repeat constructor.
  - inversion Hs as [|? ? Ht Hj]; subst. simpl in Ht.
    inversion Hj as [|? ? Hj' Hjt]; subst.
    destruct (Z.eqb_spec j' j) as [->|Hne].
    + destruct (IH j (scalar_add x x')) as (y & rest & E & Hy & Hr & Hl & Hin).
      { constructor; [now inversion Ht | assumption]. }
      exists y, rest. simpl. repeat split; auto.
      intros c Hc. rewrite Hl by assumption.
      destruct (Z.eqb_spec j c); [congruence | reflexivity].
    + destruct (IH j' x' Ht) as (y & rest & E & Hy & Hr & Hl & Hin).
      exists x, ((j', y) :: rest). rewrite E.
      assert (Hlt : j < j') by lia.
      inversion Ht as [|? ? _ Hall]; subst.
      inversion Hr as [|? ? Hr' Hrall]; subst.
      repeat split.
      * rewrite filter_above; [reflexivity|].
        eapply Forall_impl; [|exact Hall]. simpl; intros; lia.
      * constructor; [exact Hr|]. constructor; [exact Hlt|].
        eapply Forall_impl; [|exact Hrall]. simpl; intros; lia.
      * intros c Hc. unfold lookup; simpl.
        destruct (Z.eqb_spec j' c) as [->|Hc']; simpl; [reflexivity|].
        apply Hl. congruence.
      * simpl. intros c [Hc|Hc]; auto.
Qed.

Lemma sum_duplicates_sorted (l : list entry) :
  StronglySorted Z.le (map fst l) -> ascending (sum_duplicates l).
Proof.
  destruct l as [|[j x] t]; simpl; intros H; [constructor|].
  destruct (sum_run_spec t j x H) as (y & rest & E & _ & Hr & _).
  unfold ascending. now rewrite E.
Qed.

Lemma sum_duplicates_lookup (l : list entry) (c : Z) :
  StronglySorted Z.le (map fst l) ->
  lookup c (sum_duplicates l)
  = sum_scalars (map snd (filter (fun h => fst h =? c) l)).
Proof.
  destruct l as [|[j x] t]; simpl; intros H; [reflexivity|].
  destruct (sum_run_spec t j x H) as (y & rest & E & Hy & _ & Hl & _).
  rewrite E. unfold lookup; simpl.
  destruct (Z.eqb_spec j c) as [->|Hc]; simpl; [now rewrite Hy|].
  apply Hl. congruence.
Qed.

Lemma sum_run_cons (l : list entry) (j : Z) (x : scalar) :
  sum_run j x l <> [].
Proof.
  revert j x; induction l as [|[j' x'] t IH]; simpl; intros j x; [discriminate|].
  destruct (j' =? j); [apply IH | discriminate].
Qed.

Lemma sum_duplicates_nil (l : list entry) :
  sum_duplicates l = [] -> l = [].
Proof.
  destruct l as [|[j x] t]; simpl; [reflexivity|].
  intros H. now apply sum_run_cons in H.
Qed.

(** *** Buckets *)

Lemma bucket_records (i j : Z) (row col : list Z) (dat : list scalar) :
  map snd (filter (fun h => fst h =? j) (bucket i row col dat))
  = records_at i j row col dat.
Proof.
  revert col dat; induction row as [|r row IH]; intros [|c col] [|x dat];
    simpl; try reflexivity.
  destruct (r =? i); simpl; [|apply IH].
  destruct (c =? j); simpl; [f_equal|]; apply IH.
Qed.

Lemma bucket_nil (i : Z) (row col : list Z) (dat : list scalar) :
  ~ In i row -> bucket i row col dat = [].
Proof.
  revert col dat; induction row as [|r row IH]; intros [|c col] [|x dat] H;
    simpl; try reflexivity.
  destruct (Z.eqb_spec r i) as [->|_]; [exfalso; apply H; now left|].
  apply IH. intros Hin; apply H; now right.
Qed.

Lemma bucket_cons (i : Z) (row col : list Z) (dat : list scalar) :
  length col = length row -> length dat = length row ->
  In i row -> bucket i row col dat <> [].
Proof.
  revert col dat; induction row as [|r row IH]; intros [|c col] [|x dat] H1 H2 H;
    simpl in *; try discriminate; try contradiction.
  destruct (Z.eqb_spec r i) as [->|Hne]; [discriminate|].
  apply IH; [lia | lia | destruct H; [contradiction | assumption]].
Qed.

(** The canonical rows, row by row. *)
Lemma canonical_rows_nth {order : row_order} (M : Z) (row col : list Z)
      (dat : list scalar) (i : nat) :
  Forall (fun r => 0 <= r < M) row ->
  nth i (canonical_rows order M row col dat) []
  = sum_duplicates (sort_indices order (bucket (Z.of_nat i) row col dat)).
Proof.
  intros Hrow. unfold canonical_rows.
  destruct (Nat.lt_ge_cases i (Z.to_nat M)) as [Hi|Hi].
  - rewrite (nth_indep _ [] (sum_duplicates
                              (sort_indices order
                                 (bucket (Z.of_nat (Z.to_nat M)) row col dat)))).
    + rewrite (map_nth (fun i => sum_duplicates
                                   (sort_indices order
                                      (bucket (Z.of_nat i) row col dat)))).
      now rewrite seq_nth.
    + now rewrite length_map, length_seq.
  - rewrite nth_overflow by now rewrite length_map, length_seq.
    rewrite bucket_nil; [reflexivity|].
    intros Hin. rewrite Forall_forall in Hrow. apply Hrow in Hin. lia.
Qed.

End CsrFacts.

(** ** The sparse constructor *)

Section ConstructorFacts.

Lemma check_Ok (sh : Z * Z) (row col : list Z) :
  length col = length row ->
  check sh row col = Ok tt ->
  Forall (fun r => 0 <= r < fst sh) row /\ Forall (fun c => 0 <= c < snd sh) col.
Proof.
  intros Hlen H. destruct row as [|r row], col as [|c col]; try discriminate;
    [split; constructor|].
  cbn in H.
  destruct (Z.leb_spec (fst sh) (fold_left Z.max row r)); [discriminate|].
  destruct (Z.leb_spec (snd sh) (fold_left Z.max col c)); [discriminate|].
  destruct (Z.ltb_spec (fold_left Z.min row r) 0); [discriminate|].
  destruct (Z.ltb_spec (fold_left Z.min col c) 0); [discriminate|].
  destruct (fold_max_ge row r) as [R1 R2], (fold_min_le row r) as [R3 R4].
  destruct (fold_max_ge col c) as [C1 C2], (fold_min_le col c) as [C3 C4].
  split; (constructor; [lia|]); rewrite Forall_forall in *; intros y Hy.
  - specialize (R2 y Hy); specialize (R4 y Hy); lia.
  - specialize (C2 y Hy); specialize (C4 y Hy); lia.
Qed.

Lemma check_bounds (sh : Z * Z) (row col : list Z) :
  Forall (fun r => 0 <= r < fst sh) row ->
  Forall (fun c => 0 <= c < snd sh) col ->
  check sh row col = Ok tt.
Proof.
  intros Hr Hc. destruct row as [|r row], col as [|c col]; try reflexivity.
  cbn.
  assert (R : 0 <= fold_left Z.min row r /\ fold_left Z.max row r < fst sh).
  { destruct (max_is_max (r :: row) _ eq_refl) as [M1 _].
    destruct (fold_min_le row r) as [_ M2].
    rewrite Forall_forall in Hr. pose proof (Hr _ M1) as B1.
    split; [|lia].
    assert (M3 : fold_left Z.min row r = r \/ In (fold_left Z.min row r) row).
    { clear. revert r; induction row as [|a t IH]; simpl; intros r; [now left|].
      destruct (IH (Z.min r a)) as [H|H]; [|now right; right].
      rewrite H. destruct (Z.min_spec r a) as [[_ E]|[_ E]]; rewrite E; auto. }
    destruct M3 as [E|E]; [rewrite E; apply (Hr r); now left
                          | apply (Hr _ (or_intror E))]. }
  assert (C : 0 <= fold_left Z.min col c /\ fold_left Z.max col c < snd sh).
  { destruct (max_is_max (c :: col) _ eq_refl) as [M1 _].
    rewrite Forall_forall in Hc. pose proof (Hc _ M1) as B1.
    split; [|lia].
    assert (M3 : fold_left Z.min col c = c \/ In (fold_left Z.min col c) col).
    { clear. revert c; induction col as [|a t IH]; simpl; intros c; [now left|].
      destruct (IH (Z.min c a)) as [H|H]; [|now right; right].
      rewrite H. destruct (Z.min_spec c a) as [[_ E]|[_ E]]; rewrite E; auto. }
    destruct M3 as [E|E]; [rewrite E; apply (Hc c); now left
                          | apply (Hc _ (or_intror E))]. }
  destruct R as [R1 R2], C as [C1 C2].
  destruct (Z.leb_spec (fst sh) (fold_left Z.max row r)); [lia|].
  destruct (Z.leb_spec (snd sh) (fold_left Z.max col c)); [lia|].
  destruct (Z.ltb_spec (fold_left Z.min row r) 0); [lia|].
  destruct (Z.ltb_spec (fold_left Z.min col c) 0); [lia|].
  reflexivity.
Qed.

(** What a successful call of the constructor returns. *)
Lemma csr_matrix_coo_Ok {tie : tie_break} (dat : vector) (row col : list Z) (sh : Z * Z)
      (A : csr_matrix) :
  csr_matrix_coo tie dat row col sh = Ok A ->
  A = of_rows sh (vdtype dat)
              (canonical_rows (tie row col (vdata dat)) (fst sh) row col (vdata dat))
  /\ vdtype dat <> Object
  /\ length row = length (vdata dat) /\ length col = length (vdata dat)
  /\ 0 <= fst sh /\ 0 <= snd sh
  /\ Forall (fun r => 0 <= r < fst sh) row
  /\ Forall (fun c => 0 <= c < snd sh) col.
Proof.
  unfold csr_matrix_coo. intros H.
  destruct (Z.ltb_spec (fst sh) 0); [discriminate|].
  destruct (Z.ltb_spec (snd sh) 0); [discriminate|]. simpl in H.
  destruct (Nat.eqb_spec (length row) (length (vdata dat))) as [L1|]; [|discriminate].
  destruct (Nat.eqb_spec (length col) (length (vdata dat))) as [L2|]; [|discriminate].
  simpl in H. destruct (check sh row col) as [[]|] eqn:Hc; [|discriminate].
  apply check_Ok in Hc; [|congruence]. destruct Hc as [Hr Hc]. simpl in H.
  destruct (vdtype dat) eqn:Hdt; inversion H; subst;
    repeat split; auto; discriminate.
Qed.

(** Conversely, in-range coordinates of a sparse-capable type are accepted. *)
Lemma csr_matrix_coo_bounds {tie : tie_break} (dat : vector) (row col : list Z)
      (sh : Z * Z) :
  vdtype dat <> Object ->
  length row = length (vdata dat) -> length col = length (vdata dat) ->
  0 <= fst sh -> 0 <= snd sh ->
  Forall (fun r => 0 <= r < fst sh) row ->
  Forall (fun c => 0 <= c < snd sh) col ->
  csr_matrix_coo tie dat row col sh
  = Ok (of_rows sh (vdtype dat)
                (canonical_rows (tie row col (vdata dat)) (fst sh) row col
                                (vdata dat))).
Proof.
  intros Hdt L1 L2 S1 S2 Hr Hc. unfold csr_matrix_coo.
  destruct (Z.ltb_spec (fst sh) 0); [lia|].
  destruct (Z.ltb_spec (snd sh) 0); [lia|]. simpl.
  rewrite L1, L2, Nat.eqb_refl. simpl.
  rewrite check_bounds by assumption. simpl.
  destruct (vdtype dat); try reflexivity. now contradiction Hdt.
Qed.

Context {tie : tie_break}.
Variables (dat : vector) (row col : list Z) (sh : Z * Z) (A : csr_matrix).
Hypothesis HA : csr_matrix_coo tie dat row col sh = Ok A.

Lemma coo_shape : shape A = sh.
Proof. apply csr_matrix_coo_Ok in HA. destruct HA as [-> _]. reflexivity. Qed.

Lemma coo_dtype : dtype A = vdtype dat.
Proof. apply csr_matrix_coo_Ok in HA. destruct HA as [-> _]. reflexivity. Qed.

Lemma coo_row_entries (i : nat) :
  row_entries A i
  = sum_duplicates (sort_indices (tie row col (vdata dat))
                                 (bucket (Z.of_nat i) row col (vdata dat))).
Proof.
  apply csr_matrix_coo_Ok in HA.
  destruct HA as (-> & _ & _ & _ & _ & _ & Hr & _).
  rewrite row_entries_of_rows. now apply canonical_rows_nth.
Qed.

Lemma coo_ascending (i : nat) : ascending (row_entries A i).
Proof.
  rewrite coo_row_entries. apply sum_duplicates_sorted, sort_indices_sorted.
Qed.

(** The value stored at a position is the sum of the values of the records
    at that position, added in the order the sort leaves them in. *)
Lemma coo_stored_perm (i : nat) (j : Z) :
  exists vs : list scalar,
    Permutation vs (records_at (Z.of_nat i) j row col (vdata dat))
    /\ stored A i j = sum_scalars vs.
Proof.
  unfold stored. rewrite coo_row_entries.
  rewrite sum_duplicates_lookup by apply sort_indices_sorted.
  eexists. split; [|reflexivity].
  rewrite <- bucket_records. apply Permutation_map, sort_indices_filter.
Qed.

Lemma coo_stored (i : nat) (j : Z) :
  order_free (records_at (Z.of_nat i) j row col (vdata dat)) ->
  stored A i j = sum_scalars (records_at (Z.of_nat i) j row col (vdata dat)).
Proof.
  intros Hfree. destruct (coo_stored_perm i j) as (vs & Hp & ->).
  now apply Hfree.
Qed.

Lemma coo_stored_None (i : nat) (j : Z) :
  stored A i j = None <-> records_at (Z.of_nat i) j row col (vdata dat) = [].
Proof.
  destruct (coo_stored_perm i j) as (vs & Hp & ->). split.
  - destruct vs; [|discriminate]. intros _.
    now apply Permutation_nil in Hp.
  - intros E. rewrite E in Hp. apply Permutation_sym, Permutation_nil in Hp.
    now subst.
Qed.

Lemma coo_row_nil (i : nat) :
  row_entries A i = [] <-> ~ In (Z.of_nat i) row.
Proof.
  rewrite coo_row_entries. apply csr_matrix_coo_Ok in HA.
  destruct HA as (_ & _ & L1 & L2 & _). split.
  - intros H Hin. apply sum_duplicates_nil in H.
    apply sort_indices_nil in H. revert H.
    apply bucket_cons; [congruence | congruence | assumption].
  - intros H. now rewrite bucket_nil.
Qed.

End ConstructorFacts.

(** *** Stored values *)

Section StoredValues.

Variable P : scalar -> Prop.
Hypothesis P_add : forall x y, P x -> P y -> P (scalar_add x y).

Lemma sum_run_all (l : list entry) :
  forall j x, P x -> Forall P (map snd l) -> Forall P (map snd (sum_run j x l)).
Proof.
  induction l as [|[j' x'] t IH]; simpl; intros j x Hx Hl.
  - now constructor.
  - inversion Hl; subst. destruct (j' =? j); simpl; auto.
Qed.

Lemma bucket_all (i : Z) (row col : list Z) (dat : list scalar) :
  Forall P dat -> Forall P (map snd (bucket i row col dat)).
Proof.
  revert col dat; induction row as [|r row IH]; intros [|c col] [|x dat] H;
    simpl; try constructor.
  inversion H; subst. destruct (r =? i); simpl; auto.
Qed.

Lemma canonical_row_all {order : row_order} (i : Z) (row col : list Z)
      (dat : list scalar) :
  Forall P dat ->
  Forall P (map snd (sum_duplicates (sort_indices order (bucket i row col dat)))).
Proof.
  intros H. apply (bucket_all i row col) in H.
  assert (Hs : Forall P (map snd (sort_indices order (bucket i row col dat)))).
  { rewrite Forall_forall in *. intros x Hx. apply H.
    exact (Permutation_in x (Permutation_map snd (sort_indices_perm _)) Hx). }
  destruct (sort_indices order (bucket i row col dat)) as [|[j x] l];
    simpl; [constructor|].
  simpl in Hs. inversion Hs; subst. now apply sum_run_all.
Qed.

Lemma coo_data_all {tie : tie_break} (dat : vector) (row col : list Z)
      (sh : Z * Z) (A : csr_matrix) :
  csr_matrix_coo tie dat row col sh = Ok A ->
  Forall P (vdata dat) -> Forall P (data A).
Proof.
  intros HA Hd. apply csr_matrix_coo_Ok in HA. destruct HA as [-> _]. simpl.
  unfold canonical_rows.
  induction (seq 0 (Z.to_nat (fst sh))) as [|i l IH]; simpl; [constructor|].
  rewrite map_app. apply Forall_app. split; [|exact IH].
  now apply canonical_row_all.
Qed.

End StoredValues.

(** ** The two conversions and the coordinate buffers *)

Lemma edgelist2adjacency_decode {tie : tie_break} (combine : scalar -> scalar -> scalar)
      (el : list edge) (undirected : bool) :
  edgelist2adjacency tie combine el undirected
  = (d <- decode el ;;
     let '(dat, row, col) := d in
     rmax <- Np.max row ;;
     cmax <- Np.max col ;;
     let n := wrap64 (Z.max rmax cmax + 1) in
     A <- csr_matrix_coo tie dat row col (n, n) ;;
     if undirected then Ok (directed2undirected combine A) else Ok A).
Proof.
  unfold edgelist2adjacency, decode.
  destruct (Np.array el) as [dt n|dt k cells]; [reflexivity|].
  unfold Np.column, Np.shape1.
  destruct k as [|[|[|k]]]; simpl; try reflexivity;
    repeat match goal with
           | |- context [bind ?r _] =>
               match r with
               | Ok _ => fail 1
               | Raise _ => fail 1
               | _ => destruct r; simpl; try reflexivity
               end
           end.
Qed.

Lemma edgelist2biadjacency_decode {tie : tie_break} (el : list edge) :
  edgelist2biadjacency tie el
  = (d <- decode el ;;
     let '(dat, row, col) := d in
     rmax <- Np.max row ;;
     cmax <- Np.max col ;;
     csr_matrix_coo tie dat row col (wrap64 (rmax + 1), wrap64 (cmax + 1))).
Proof.
  unfold edgelist2biadjacency, decode.
  destruct (Np.array el) as [dt n|dt k cells]; [reflexivity|].
  unfold Np.column, Np.shape1.
  destruct k as [|[|[|k]]]; simpl; try reflexivity;
    repeat match goal with
           | |- context [bind ?r _] =>
               match r with
               | Ok _ => fail 1
               | Raise _ => fail 1
               | _ => destruct r; simpl; try reflexivity
               end
           end.
Qed.

(** ** Symmetrization *)

Section UnionFacts.

Variable combine : scalar -> scalar -> scalar.
Variable A : csr_matrix.

Lemma union_cell_keys (i j : nat) (c : Z) :
  In c (map fst (union_cell combine A i j)) -> c = Z.of_nat j.
Proof.
  unfold union_cell.
  destruct (stored A i (Z.of_nat j)), (stored A j (Z.of_nat i)); simpl;
    intuition.
Qed.

Lemma union_cells_keys (i a n : nat) (c : Z) :
  In c (map fst (flat_map (union_cell combine A i) (seq a n))) ->
  Z.of_nat a <= c < Z.of_nat (a + n).
Proof.
  revert a; induction n as [|n IH]; simpl; intros a H; [contradiction|].
  rewrite map_app, in_app_iff in H. destruct H as [H|H].
  - apply union_cell_keys in H. lia.
  - apply IH in H. lia.
Qed.

Lemma union_cells_ascending (i a n : nat) :
  ascending (flat_map (union_cell combine A i) (seq a n)).
Proof.
  unfold ascending. revert a; induction n as [|n IH]; simpl; intros a;
    [constructor|].
  rewrite map_app.
  assert (Hlater : Forall (fun c => Z.of_nat a < c)
                          (map fst (flat_map (union_cell combine A i) (seq (S a) n)))).
  { rewrite Forall_forall. intros c Hc. apply union_cells_keys in Hc. lia. }
  unfold union_cell at 1.
  destruct (stored A i (Z.of_nat a)), (stored A a (Z.of_nat i)); simpl;
    try (constructor; [apply IH | exact Hlater]).
  apply IH.
Qed.

Lemma union_cells_lookup (i a n j : nat) :
  lookup (Z.of_nat j) (flat_map (union_cell combine A i) (seq a n))
  = if (a <=? j)%nat && (j <? a + n)%nat
    then lookup (Z.of_nat j) (union_cell combine A i j)
    else None.
Proof.
  revert a; induction n as [|n IH]; simpl; intros a.
  - destruct (Nat.leb_spec a j), (Nat.ltb_spec j (a + 0)); try reflexivity; lia.
  - assert (Happ : forall l1 l2 : list entry,
               lookup (Z.of_nat j) (l1 ++ l2)
               = match lookup (Z.of_nat j) l1 with
                 | Some x => Some x
                 | None => lookup (Z.of_nat j) l2
                 end).
    { intros l1 l2. unfold lookup. induction l1 as [|h t IHt]; simpl; [reflexivity|].
      destruct (fst h =? Z.of_nat j); simpl; [reflexivity | exact IHt]. }
    rewrite Happ, IH.
    destruct (Nat.eq_dec a j) as [->|Hne].
    + replace ((j <=? j)%nat && (j <? j + S n)%nat) with true
        by (symmetry; apply andb_true_iff; split;
            [apply Nat.leb_le | apply Nat.ltb_lt]; lia).
      replace ((S j <=? j)%nat) with false by (symmetry; apply Nat.leb_gt; lia).
      simpl. now destruct (lookup (Z.of_nat j) (union_cell combine A i j)).
    + assert (Hnone : lookup (Z.of_nat j) (union_cell combine A i a) = None).
      { unfold union_cell, lookup.
        destruct (stored A i (Z.of_nat a)), (stored A a (Z.of_nat i)); simpl;
          try reflexivity;
          destruct (Z.eqb_spec (Z.of_nat a) (Z.of_nat j)); try reflexivity; lia. }
      rewrite Hnone.
      destruct (Nat.leb_spec (S a) j), (Nat.leb_spec a j),
               (Nat.ltb_spec j (S a + n)), (Nat.ltb_spec j (a + S n));
        simpl; try reflexivity; lia.
Qed.

Lemma union_cell_lookup (i j : nat) :
  lookup (Z.of_nat j) (union_cell combine A i j)
  = match stored A i (Z.of_nat j), stored A j (Z.of_nat i) with
    | None, None => None
    | _, _ => Some (combine (get A i (Z.of_nat j)) (get A j (Z.of_nat i)))
    end.
Proof.
  unfold union_cell, lookup.
  destruct (stored A i (Z.of_nat j)), (stored A j (Z.of_nat i)); simpl;
    try rewrite Z.eqb_refl; reflexivity.
Qed.

Lemma union_row_cells (i : nat) :
  union_row combine A i = flat_map (union_cell combine A i) (seq 0 (Z.to_nat (snd (shape A)))).
Proof. reflexivity. Qed.

Lemma directed2undirected_rows (i : nat) :
  row_entries (directed2undirected combine A) i
  = if (i <? Z.to_nat (fst (shape A)))%nat then union_row combine A i else [].
Proof.
  unfold directed2undirected. rewrite row_entries_of_rows.
  destruct (Nat.ltb_spec i (Z.to_nat (fst (shape A)))) as [Hi|Hi].
  - rewrite (nth_indep _ [] (union_row combine A (Z.to_nat (fst (shape A))))).
    + rewrite (map_nth (union_row combine A)). now rewrite seq_nth.
    + now rewrite length_map, length_seq.
  - apply nth_overflow. now rewrite length_map, length_seq.
Qed.

Lemma directed2undirected_ascending (i : nat) :
  ascending (row_entries (directed2undirected combine A) i).
Proof.
  rewrite directed2undirected_rows.
  destruct (i <? Z.to_nat (fst (shape A)))%nat; [|constructor].
  rewrite union_row_cells. apply union_cells_ascending.
Qed.

(** The entries of the union: a position inside the shape is stored when
    the position or its mirror is stored in [A]. *)
Lemma directed2undirected_stored (i j : nat) :
  (i < Z.to_nat (fst (shape A)))%nat ->
  (j < Z.to_nat (snd (shape A)))%nat ->
  stored (directed2undirected combine A) i (Z.of_nat j)
  = match stored A i (Z.of_nat j), stored A j (Z.of_nat i) with
    | None, None => None
    | _, _ => Some (combine (get A i (Z.of_nat j)) (get A j (Z.of_nat i)))
    end.
Proof.
  intros Hi Hj. unfold stored. rewrite directed2undirected_rows.
  apply Nat.ltb_lt in Hi. rewrite Hi.
  rewrite union_row_cells, union_cells_lookup.
  apply Nat.ltb_lt in Hj. simpl. rewrite Hj.
  apply union_cell_lookup.
Qed.

End UnionFacts.

(** ** Built matrices *)

Lemma of_rows_pointers (sh : Z * Z) (dt : Np.dtype) (rows : list (list entry))
      (i : nat) :
  (i < length rows)%nat ->
  nth (S i) (indptr (of_rows sh dt rows)) 0
  = nth i (indptr (of_rows sh dt rows)) 0
    + Z.of_nat (length (row_entries (of_rows sh dt rows) i)).
Proof.
  intros Hi. rewrite row_entries_of_rows. simpl.
  now apply (indptr_of_rows sh dt).
Qed.

Lemma of_rows_empty_row (sh : Z * Z) (dt : Np.dtype) (rows : list (list entry))
      (i : nat) :
  (i < length rows)%nat ->
  row_entries (of_rows sh dt rows) i = []
  <-> nth i (indptr (of_rows sh dt rows)) 0 = nth (S i) (indptr (of_rows sh dt rows)) 0.
Proof.
  intros Hi. rewrite (of_rows_pointers sh dt rows i Hi).
  destruct (row_entries (of_rows sh dt rows) i) as [|e t]; simpl.
  - split; [lia | reflexivity].
  - split; [discriminate | lia].
Qed.

Lemma edgelist2adjacency_Ok {tie : tie_break} (combine : scalar -> scalar -> scalar)
      (el : list edge) (undirected : bool) (A : csr_matrix) :
  edgelist2adjacency tie combine el undirected = Ok A ->
  exists dat row col rmax cmax A0,
    decode el = Ok (dat, row, col)
    /\ Np.max row = Ok rmax /\ Np.max col = Ok cmax
    /\ csr_matrix_coo tie dat row col
         (wrap64 (Z.max rmax cmax + 1), wrap64 (Z.max rmax cmax + 1)) = Ok A0
    /\ A = if undirected then directed2undirected combine A0 else A0.
Proof.
  rewrite edgelist2adjacency_decode. intros H.
  inv_bind H. destruct v as [[dat row] col].
  inv_bind H. inv_bind H. inv_bind H.
  exists dat, row, col, v, v0, v1. repeat split; auto.
  destruct undirected; now inversion H.
Qed.

Lemma edgelist2biadjacency_Ok {tie : tie_break} (el : list edge) (A : csr_matrix) :
  edgelist2biadjacency tie el = Ok A ->
  exists dat row col rmax cmax,
    decode el = Ok (dat, row, col)
    /\ Np.max row = Ok rmax /\ Np.max col = Ok cmax
    /\ csr_matrix_coo tie dat row col (wrap64 (rmax + 1), wrap64 (cmax + 1)) = Ok A.
Proof.
  rewrite edgelist2biadjacency_decode. intros H.
  inv_bind H. destruct v as [[dat row] col].
  inv_bind H. inv_bind H.
  exists dat, row, col, v, v0. repeat split; auto.
Qed.

(** A matrix returned by one of the conversions without symmetrization comes
    out of the sparse constructor, applied to the decoded buffers. *)
Lemma plain_conversion_Ok {tie : tie_break} (combine : scalar -> scalar -> scalar)
      (el : list edge) (A : csr_matrix) :
  edgelist2adjacency tie combine el false = Ok A
  \/ edgelist2biadjacency tie el = Ok A ->
  exists dat row col sh,
    decode el = Ok (dat, row, col) /\ csr_matrix_coo tie dat row col sh = Ok A.
Proof.
  intros [H|H].
  - apply edgelist2adjacency_Ok in H.
    destruct H as (dat & row & col & rmax & cmax & A0 & Hd & _ & _ & HA & ->).
    exists dat, row, col. eexists. split; eassumption.
  - apply edgelist2biadjacency_Ok in H.
    destruct H as (dat & row & col & rmax & cmax & Hd & _ & _ & HA).
    exists dat, row, col. eexists. split; eassumption.
Qed.

Lemma ascending_single (l : list entry) (j : Z) :
  ascending l -> (length (filter (fun e => (fst e =? j)%Z) l) <= 1)%nat.
Proof.
  unfold ascending. induction l as [|h t IH]; simpl; intros H; [lia|].
  inversion H as [|? ? Ht Hall]; subst.
  destruct (Z.eqb_spec (fst h) j) as [E|_]; [|auto].
  simpl. rewrite filter_above; [simpl; lia|]. now rewrite <- E.
Qed.

(** ** NumPy arrays *)

Lemma array_uniform (el : list edge) (k : nat) :
  el <> [] -> Forall (fun e => length e = k) el ->
  Np.array el
  = Arr2 (result_type (concat el)) k
         (map (map (convert (result_type (concat el)))) el).
Proof.
  intros Hne Hk. destruct el as [|r rest]; [contradiction|].
  inversion Hk as [|? ? Hr Hrest]; subst. unfold Np.array.
  replace (forallb (fun r' => Nat.eqb (length r') (length r)) rest) with true;
    [reflexivity|].
  symmetry. apply forallb_forall. intros e He. rewrite Forall_forall in Hrest.
  apply Nat.eqb_eq. auto.
Qed.

(** The buffers decoded from an edge list of uniform arity [k >= 2]. *)
Lemma decode_uniform (el : list edge) (k : nat) :
  el <> [] -> Forall (fun e => length e = k) el -> (2 <= k)%nat ->
  decode el
  = (row <- mapM (fun r => to_int32 (nth 0 (map (convert (result_type (concat el))) r)
                                         (SObj (PyInt 0)))) el ;;
     col <- mapM (fun r => to_int32 (nth 1 (map (convert (result_type (concat el))) r)
                                         (SObj (PyInt 0)))) el ;;
     Ok (if (2 <? k)%nat
         then mkvec (result_type (concat el))
                    (map (fun r => nth 2 (map (convert (result_type (concat el))) r)
                                       (SObj (PyInt 0))) el)
         else ones_like_bool row,
         row, col)).
Proof.
  intros Hne Hk H2. unfold decode. rewrite (array_uniform el k Hne Hk).
  unfold Np.column, Np.shape1, Np.astype_int32.
  replace (0 <? k)%nat with true by (symmetry; apply Nat.ltb_lt; lia).
  replace (1 <? k)%nat with true by (symmetry; apply Nat.ltb_lt; lia).
  cbn [bind vdata]. rewrite !map_map, !mapM_map.
  match goal with |- bind ?r _ = _ => destruct r as [row|e] end; [|reflexivity].
  cbn [bind].
  match goal with |- bind ?r _ = _ => destruct r as [col|e] end; [|reflexivity].
  cbn [bind].
  destruct (2 <? k)%nat; cbn [bind]; reflexivity.
Qed.

Lemma decode_pairs (el : list edge) (dat : vector) (row col : list Z) :
  Forall (fun e => length e = 2%nat) el ->
  decode el = Ok (dat, row, col) ->
  dat = ones_like_bool row.
Proof.
  intros Hk H. destruct el as [|r rest]; [discriminate|].
  rewrite (decode_uniform (r :: rest) 2) in H by (auto; discriminate).
  inv_bind H. inv_bind H. change (2 <? 2)%nat with false in H. now inversion H.
Qed.

(** *** Element types *)

Lemma scalar_type_not_Bool (p : pyval) : scalar_type p <> Bool.
Proof.
  destruct p as [z|f]; simpl; [|discriminate].
  destruct (in_int64 z); [discriminate|]. destruct (in_uint64 z); discriminate.
Qed.

(** Once a float has been seen the array is a double or an object array. *)
Lemma fold_promote_float (l : list pyval) (d : Np.dtype) :
  d = Float64 \/ d = Object ->
  let r := fold_left (fun d q => promote_types d (scalar_type q)) l d in
  r = Float64 \/ r = Object.
Proof.
  revert d; induction l as [|p t IH]; simpl; intros d Hd; [exact Hd|].
  apply IH. pose proof (scalar_type_not_Bool p).
  destruct Hd as [-> | ->]; destruct (scalar_type p); auto; contradiction.
Qed.

Lemma fold_promote_exists_float (l : list pyval) (d : Np.dtype) :
  d <> Bool -> Exists (fun p => is_float p = true) l ->
  let r := fold_left (fun d q => promote_types d (scalar_type q)) l d in
  r = Float64 \/ r = Object.
Proof.
  intros Hd Hex. revert d Hd; induction Hex as [p t Hp|p t Hex IH]; simpl; intros d Hd.
  - apply fold_promote_float. destruct p; [discriminate|]. simpl.
    destruct d; auto; contradiction.
  - apply IH. pose proof (scalar_type_not_Bool p).
    destruct d, (scalar_type p); simpl; try discriminate; try contradiction.
Qed.

Lemma result_type_float (l : list pyval) :
  Exists (fun p => is_float p = true) l ->
  result_type l = Float64 \/ result_type l = Object.
Proof.
  intros Hex. destruct l as [|p t]; [inversion Hex|]. unfold result_type.
  inversion Hex as [? ? Hp|? ? Ht]; subst.
  - apply fold_promote_float. destruct p; [discriminate | now left].
  - apply fold_promote_exists_float; [apply scalar_type_not_Bool | assumption].
Qed.

Lemma result_type_int64 (l : list pyval) :
  l <> [] -> Forall (fun p => is_int64 p = true) l -> result_type l = Int64.
Proof.
  intros Hne H. destruct l as [|p t]; [contradiction|]. unfold result_type.
  inversion H as [|? ? Hp Ht]; subst.
  assert (Hty : forall q, is_int64 q = true -> scalar_type q = Int64).
  { intros [z|f] Hq; simpl in *; [now rewrite Hq | discriminate]. }
  rewrite (Hty p Hp). clear Hp H Hne.
  induction Ht as [|q t Hq Ht IH]; simpl; [reflexivity|].
  now rewrite (Hty q Hq).
Qed.



Lemma concat_Exists {A : Type} (Q : A -> Prop) (ll : list (list A)) :
  Exists (Exists Q) ll -> Exists Q (concat ll).
Proof.
  induction 1 as [l t H|l t H IH]; simpl; apply Exists_app; auto.
Qed.

Lemma concat_Forall {A : Type} (Q : A -> Prop) (ll : list (list A)) :
  Forall (Forall Q) ll -> Forall Q (concat ll).
Proof.
  induction 1 as [|l t H Ht IH]; simpl; [constructor | apply Forall_app; auto].
Qed.



Lemma fold_add_all (Q : scalar -> Prop) (l : list scalar) (x : scalar) :
  (forall a b, Q a -> Q b -> Q (scalar_add a b)) ->
  Q x -> Forall Q l -> Q (fold_left scalar_add l x).
Proof.
  intros Hadd. revert x; induction l as [|a t IH]; simpl; intros x Hx Hl; [exact Hx|].
  inversion Hl; subst. apply IH; auto.
Qed.

Lemma records_at_all (Q : scalar -> Prop) (i j : Z) (row col : list Z)
      (dat : list scalar) :
  Forall Q dat -> Forall Q (records_at i j row col dat).
Proof.
  revert col dat; induction row as [|r row IH]; intros [|c col] [|x dat] H;
    simpl; try constructor.
  inversion H; subst. destruct ((r =? i) && (c =? j)); [constructor|]; auto.
Qed.

Lemma lookup_Some_filter (j : Z) (l : list entry) (x : scalar) :
  lookup j l = Some x -> filter (fun e => fst e =? j) l <> [].
Proof.
  unfold lookup. induction l as [|h t IH]; simpl; [discriminate|].
  destruct (fst h =? j); [discriminate | exact IH].
Qed.

Lemma sum_scalars_None (l : list scalar) : sum_scalars l = None <-> l = [].
Proof. destruct l; simpl; split; intros H; try reflexivity; discriminate. Qed.

(** *** Indices beyond 32 bits *)

Lemma wrap_indices_length (e : edge) : length (wrap_indices e) = length e.
Proof. destruct e as [|i [|j w]]; reflexivity. Qed.

Lemma wrap_index_int64 (p : pyval) :
  is_int64 p = true -> is_int64 (wrap_index p) = true.
Proof.
  destruct p as [z|f]; simpl; [|discriminate]. intros _.
  apply int32_in_int64, wrap32_range.
Qed.

Lemma wrap_indices_int64 (e : edge) :
  Forall (fun p => is_int64 p = true) e ->
  Forall (fun p => is_int64 p = true) (wrap_indices e).
Proof.
  destruct e as [|i [|j w]]; simpl; intros H; [constructor| |].
  - inversion H; subst. constructor; [now apply wrap_index_int64 | constructor].
  - inversion H as [|? ? Hi H']; inversion H' as [|? ? Hj Hw]; subst.
    constructor; [now apply wrap_index_int64|].
    constructor; [now apply wrap_index_int64 | exact Hw].
Qed.

Lemma to_int32_wrap_index (p : pyval) :
  is_int64 p = true ->
  to_int32 (convert Int64 (wrap_index p)) = to_int32 (convert Int64 p).
Proof.
  destruct p as [z|f]; simpl; [|discriminate]. intros H. f_equal.
  apply in_int64_spec in H. rewrite (wrap64_small z H).
  rewrite wrap64_small by (apply in_int64_spec, int32_in_int64, wrap32_range).
  apply wrap32_idem.
Qed.

Lemma wrap_indices_cells (e : edge) (d : scalar) :
  Forall (fun p => is_int64 p = true) e ->
  to_int32 (nth 0 (map (convert Int64) (wrap_indices e)) d)
  = to_int32 (nth 0 (map (convert Int64) e) d)
  /\ to_int32 (nth 1 (map (convert Int64) (wrap_indices e)) d)
     = to_int32 (nth 1 (map (convert Int64) e) d)
  /\ nth 2 (map (convert Int64) (wrap_indices e)) d
     = nth 2 (map (convert Int64) e) d.
Proof.
  destruct e as [|i [|j w]]; cbn [wrap_indices map nth]; intros H; [auto| |].
  - inversion H; subst. rewrite to_int32_wrap_index by assumption. auto.
  - inversion H as [|? ? Hi H']; inversion H' as [|? ? Hj Hw]; subst.
    rewrite !to_int32_wrap_index by assumption. auto.
Qed.

Lemma decode_Arr2 (el : list edge) (dt : Np.dtype) (k : nat)
      (cells : list (list scalar)) :
  Np.array el = Arr2 dt k cells ->
  decode el
  = if (0 <? k)%nat
    then row <- mapM (fun r => to_int32 (nth 0 r (SObj (PyInt 0)))) cells ;;
         if (1 <? k)%nat
         then col <- mapM (fun r => to_int32 (nth 1 r (SObj (PyInt 0)))) cells ;;
              Ok (if (2 <? k)%nat
                  then mkvec dt (map (fun r => nth 2 r (SObj (PyInt 0))) cells)
                  else ones_like_bool row,
                  row, col)
         else Raise IndexError
    else Raise IndexError.
Proof.
  intros Ha. unfold decode. rewrite Ha.
  unfold Np.column, Np.shape1, Np.astype_int32.
  destruct (0 <? k)%nat; [|reflexivity]. cbn [bind vdata]. rewrite mapM_map.
  match goal with |- bind ?r _ = _ => destruct r as [row|e] end; [|reflexivity].
  cbn [bind].
  destruct (1 <? k)%nat; [|reflexivity]. cbn [bind vdata]. rewrite mapM_map.
  match goal with |- bind ?r _ = _ => destruct r as [col|e] end; [|reflexivity].
  cbn [bind].
  destruct (2 <? k)%nat; reflexivity.
Qed.

(** Decoding sees an index only through its low 32 bits. *)
Lemma decode_wrap_indices (el : list edge) :
  Forall (Forall (fun p => is_int64 p = true)) el ->
  decode (map wrap_indices el) = decode el.
Proof.
  intros Hint. destruct el as [|r rest]; [reflexivity|].
  destruct (concat (r :: rest)) as [|p0 l0] eqn:Hc0.
  - (* every record is empty *)
    f_equal. clear Hint. induction (r :: rest) as [|e t IH]; [reflexivity|].
    simpl in Hc0. apply app_eq_nil in Hc0. destruct Hc0 as [-> Hc0].
    simpl. now rewrite (IH Hc0).
  - assert (Hne : concat (r :: rest) <> []) by (rewrite Hc0; discriminate).
    clear Hc0.
    assert (Hne' : concat (map wrap_indices (r :: rest)) <> []).
    { intros Hc. apply Hne. clear Hint Hne.
      induction (r :: rest) as [|e t IH]; [reflexivity|].
      simpl in Hc. apply app_eq_nil in Hc. destruct Hc as [He Hc].
      simpl. rewrite (IH Hc). destruct e as [|i [|j w]]; [reflexivity| |];
        discriminate He. }
    assert (Hint' : Forall (Forall (fun p => is_int64 p = true))
                           (map wrap_indices (r :: rest))).
    { apply Forall_forall. intros e He. apply in_map_iff in He.
      destruct He as (e0 & <- & He0). apply wrap_indices_int64.
      rewrite Forall_forall in Hint. auto. }
    pose proof (result_type_int64 _ Hne (concat_Forall _ _ Hint)) as Hdt.
    pose proof (result_type_int64 _ Hne' (concat_Forall _ _ Hint')) as Hdt'.
    destruct (forallb (fun r' => Nat.eqb (length r') (length r)) rest) eqn:Hu.
    + assert (Ha : Np.array (r :: rest)
                   = Arr2 Int64 (length r) (map (map (convert Int64)) (r :: rest))).
      { unfold Np.array. rewrite Hu, Hdt. reflexivity. }
      assert (Ha' : Np.array (map wrap_indices (r :: rest))
                    = Arr2 Int64 (length r)
                           (map (map (convert Int64)) (map wrap_indices (r :: rest)))).
      { unfold Np.array. cbn [map]. cbn [map] in Hdt'. rewrite Hdt'.
        rewrite wrap_indices_length.
        replace (forallb _ (map wrap_indices rest)) with true; [reflexivity|].
        symmetry. rewrite forallb_forall in *. intros e He.
        apply in_map_iff in He. destruct He as (e0 & <- & He0).
        rewrite wrap_indices_length. auto. }
      rewrite (decode_Arr2 _ _ _ _ Ha), (decode_Arr2 _ _ _ _ Ha').
      rewrite !map_map, !mapM_map.
      rewrite (mapM_ext_in
                 (fun a => to_int32 (nth 0 (map (convert Int64) (wrap_indices a))
                                         (SObj (PyInt 0))))
                 (fun a => to_int32 (nth 0 (map (convert Int64) a) (SObj (PyInt 0))))).
      2:{ intros e He. rewrite Forall_forall in Hint.
          apply (wrap_indices_cells e _ (Hint e He)). }
      rewrite (mapM_ext_in
                 (fun a => to_int32 (nth 1 (map (convert Int64) (wrap_indices a))
                                         (SObj (PyInt 0))))
                 (fun a => to_int32 (nth 1 (map (convert Int64) a) (SObj (PyInt 0))))).
      2:{ intros e He. rewrite Forall_forall in Hint.
          apply (wrap_indices_cells e _ (Hint e He)). }
      rewrite (map_ext_in
                 (fun a => nth 2 (map (convert Int64) (wrap_indices a)) (SObj (PyInt 0)))
                 (fun a => nth 2 (map (convert Int64) a) (SObj (PyInt 0)))).
      2:{ intros e He. rewrite Forall_forall in Hint.
          apply (wrap_indices_cells e _ (Hint e He)). }
      reflexivity.
    + unfold decode, Np.array. cbn [map]. rewrite Hu, wrap_indices_length.
      replace (forallb _ (map wrap_indices rest)) with false; [reflexivity|].
      symmetry. apply not_true_is_false. intros Ht. apply not_true_iff_false in Hu.
      apply Hu. rewrite forallb_forall in *. intros e He.
      specialize (Ht (wrap_indices e) (in_map _ _ _ He)).
      now rewrite wrap_indices_length in Ht.
Qed.

(** *** Well-formed edge lists *)

Lemma is_index_spec (p : pyval) :
  is_index p = true -> exists z, p = PyInt z /\ 0 <= z <= INT32_MAX.
Proof.
  destruct p as [z|f]; simpl; [|discriminate]. intros H.
  apply andb_true_iff in H. destruct H as [H1 H2].
  apply Z.leb_le in H1, H2. eauto.
Qed.

Lemma well_formed_inv (k : nat) (e : edge) :
  well_formed k e = true ->
  exists i j w, e = i :: j :: w /\ is_index i = true /\ is_index j = true
                /\ length e = k /\ (2 <= k)%nat
                /\ Forall (fun p => is_weight p = true) w.
Proof.
  destruct e as [|i [|j [|w [|x e]]]]; simpl; try discriminate; intros H.
  - apply andb_true_iff in H. destruct H as [H Hj].
    apply andb_true_iff in H. destruct H as [Hk Hi].
    apply Nat.eqb_eq in Hk. subst k. exists i, j, []. repeat split; auto.
  - apply andb_true_iff in H. destruct H as [H Hw].
    apply andb_true_iff in H. destruct H as [H Hj].
    apply andb_true_iff in H. destruct H as [Hk Hi].
    apply Nat.eqb_eq in Hk. subst k. exists i, j, [w]. repeat split; auto.
Qed.

Lemma is_index_type (p : pyval) : is_index p = true -> scalar_type p = Int64.
Proof.
  intros H. apply is_index_spec in H. destruct H as (z & -> & Hz). simpl.
  now rewrite int32_in_int64 by (unfold INT32_MIN; change (2 ^ 31) with 2147483648; lia).
Qed.

Lemma is_weight_type (p : pyval) : is_weight p = true -> scalar_type p <> Object.
Proof.
  destruct p as [z|f]; simpl; [|discriminate]. intros H.
  destruct (in_int64 z); [discriminate|]. simpl in H. rewrite H. discriminate.
Qed.

Lemma fold_promote_numeric (l : list pyval) (d : Np.dtype) :
  d = Int64 \/ d = Float64 ->
  Forall (fun p => scalar_type p <> Object) l ->
  let r := fold_left (fun d q => promote_types d (scalar_type q)) l d in
  r = Int64 \/ r = Float64.
Proof.
  revert d; induction l as [|p t IH]; simpl; intros d Hd Hl; [exact Hd|].
  inversion Hl as [|? ? Hp Ht]; subst. apply IH; [|exact Ht].
  pose proof (scalar_type_not_Bool p).
  destruct Hd as [-> | ->]; destruct (scalar_type p); auto; contradiction.
Qed.

Lemma result_type_well_formed (el : list edge) (k : nat) :
  el <> [] -> Forall (fun e => well_formed k e = true) el ->
  result_type (concat el) = Int64 \/ result_type (concat el) = Float64.
Proof.
  intros Hne Hwf.
  assert (Hall : Forall (fun p => scalar_type p <> Object) (concat el)).
  { apply concat_Forall. rewrite Forall_forall in *. intros e He.
    destruct (well_formed_inv k e (Hwf e He)) as (i & j & w & -> & Hi & Hj & _ & _ & Hw).
    constructor; [rewrite (is_index_type i Hi); discriminate|].
    constructor; [rewrite (is_index_type j Hj); discriminate|].
    rewrite Forall_forall in *. intros p Hp. apply is_weight_type. auto. }
  destruct el as [|e t]; [contradiction|].
  inversion Hwf as [|? ? He _]; subst.
  destruct (well_formed_inv k e He) as (i & j & w & -> & Hi & _).
  change (concat ((i :: j :: w) :: t)) with (i :: (j :: w) ++ concat t) in *.
  unfold result_type. rewrite (is_index_type i Hi).
  inversion Hall; subst. apply fold_promote_numeric; auto.
Qed.

Lemma to_int32_index (dt : Np.dtype) (p : pyval) :
  dt = Int64 \/ dt = Float64 -> is_index p = true ->
  to_int32 (convert dt p) = Ok (index_of p).
Proof.
  intros Hdt H. apply is_index_spec in H. destruct H as (z & -> & Hz).
  assert (H32 : INT32_MIN <= z <= INT32_MAX)
    by (unfold INT32_MIN, INT32_MAX in *; change (2 ^ 31) with 2147483648 in *; lia).
  destruct Hdt as [-> | ->]; simpl; f_equal.
  - rewrite wrap64_small by (apply in_int64_spec, int32_in_int64, H32).
    now apply wrap32_small.
  - now apply f64_to_int32_of_Z.
Qed.

(** On a well-formed edge list decoding succeeds and returns the indices as
    they are written. *)
Lemma decode_well_formed (el : list edge) (k : nat) :
  el <> [] -> Forall (fun e => well_formed k e = true) el ->
  exists dat : vector,
    decode el = Ok (dat, rows_of el, cols_of el)
    /\ vdtype dat <> Object
    /\ length (vdata dat) = length el
    /\ Forall (fun r => 0 <= r <= INT32_MAX) (rows_of el)
    /\ Forall (fun c => 0 <= c <= INT32_MAX) (cols_of el).
Proof.
  intros Hne Hwf.
  assert (Hk : Forall (fun e : edge => length e = k) el /\ (2 <= k)%nat).
  { destruct el as [|e t]; [contradiction|]. split.
    - rewrite Forall_forall in *. intros e' He'.
      now destruct (well_formed_inv k e' (Hwf e' He')) as (? & ? & ? & _ & _ & _ & H & _).
    - inversion Hwf as [|? ? He _]; subst.
      now destruct (well_formed_inv k e He) as (? & ? & ? & _ & _ & _ & _ & H & _). }
  destruct Hk as [Hk H2].
  pose proof (result_type_well_formed el k Hne Hwf) as Hdt.
  rewrite (decode_uniform el k Hne Hk H2).
  set (dt := result_type (concat el)) in *.
  rewrite (mapM_pure _ (fun e => index_of (nth 0 e (PyInt 0)))).
  2:{ intros e He. rewrite Forall_forall in Hwf.
      destruct (well_formed_inv k e (Hwf e He)) as (i & j & w & -> & Hi & Hj & _).
      simpl. now apply to_int32_index. }
  cbn [bind].
  rewrite (mapM_pure _ (fun e => index_of (nth 1 e (PyInt 0)))).
  2:{ intros e He. rewrite Forall_forall in Hwf.
      destruct (well_formed_inv k e (Hwf e He)) as (i & j & w & -> & Hi & Hj & _).
      simpl. now apply to_int32_index. }
  cbn [bind]. fold (rows_of el) (cols_of el).
  eexists. split; [reflexivity|].
  split; [|split; [|split]].
  - destruct (2 <? k)%nat; simpl; [|discriminate].
    destruct Hdt as [-> | ->]; discriminate.
  - destruct (2 <? k)%nat; simpl; unfold rows_of; now rewrite !length_map.
  - unfold rows_of. rewrite Forall_forall in *. intros r Hr.
    apply in_map_iff in Hr. destruct Hr as (e & <- & He).
    destruct (well_formed_inv k e (Hwf e He)) as (i & j & w & -> & Hi & Hj & _).
    simpl. apply is_index_spec in Hi. destruct Hi as (z & -> & Hz). exact Hz.
  - unfold cols_of. rewrite Forall_forall in *. intros r Hr.
    apply in_map_iff in Hr. destruct Hr as (e & <- & He).
    destruct (well_formed_inv k e (Hwf e He)) as (i & j & w & -> & Hi & Hj & _).
    simpl. apply is_index_spec in Hj. destruct Hj as (z & -> & Hz). exact Hz.
Qed.

Lemma max_nonempty (l : list Z) : l <> [] -> exists m, Np.max l = Ok m.
Proof. destruct l; [contradiction | simpl; eauto]. Qed.

Lemma is_max_app (l1 l2 : list Z) (m1 m2 : Z) :
  is_max m1 l1 -> is_max m2 l2 -> is_max (Z.max m1 m2) (l1 ++ l2).
Proof.
  intros [I1 F1] [I2 F2]. split.
  - apply in_app_iff. destruct (Z.max_spec m1 m2) as [[_ ->]|[_ ->]]; auto.
  - apply Forall_app. split; eapply Forall_impl; try eassumption;
      simpl; intros; lia.
Qed.

Lemma is_max_bounds (l : list Z) (m lo hi : Z) :
  is_max m l -> Forall (fun x => lo <= x <= hi) l ->
  lo <= m <= hi /\ Forall (fun x => lo <= x < m + 1) l.
Proof.
  intros [I F] B. rewrite Forall_forall in *. split; [auto|].
  intros x Hx. specialize (F x Hx). specialize (B x Hx). lia.
Qed.

Lemma wrap64_index (m : Z) : 0 <= m <= INT32_MAX -> wrap64 (m + 1) = m + 1.
Proof.
  intros H. apply wrap64_small. unfold INT32_MAX in H.
  change (2 ^ 31) with 2147483648 in H.
  change (2 ^ 63) with 9223372036854775808. lia.
Qed.

(** ** What decoding returns *)

Lemma mapM_Forall2 {A B : Type} (f : A -> result B) (l : list A) (l' : list B) :
  mapM f l = Ok l' -> Forall2 (fun a b => f a = Ok b) l l'.
Proof.
  revert l'; induction l as [|a t IH]; simpl; intros l' H.
  - inversion H. constructor.
  - inv_bind H. inv_bind H. inversion H; subst. constructor; auto.
Qed.

Lemma to_int32_range (s : scalar) (z : Z) :
  to_int32 s = Ok z -> INT32_MIN <= z <= INT32_MAX.
Proof.
  assert (Hmin : INT32_MIN <= INT32_MIN <= INT32_MAX)
    by (unfold INT32_MIN, INT32_MAX; change (2 ^ 31) with 2147483648; lia).
  destruct s as [b|a|a|f|[a|f]]; cbn [to_int32]; intros H.
  - inversion H; subst. unfold INT32_MIN, INT32_MAX.
    change (2 ^ 31) with 2147483648. destruct b; lia.
  - inversion H; subst. apply wrap32_range.
  - inversion H; subst. apply wrap32_range.
  - inversion H; subst. unfold f64_to_int32.
    destruct (f64_trunc f) as [t|]; [|exact Hmin].
    destruct (in_int32 t) eqn:Ht; [now apply in_int32_spec | exact Hmin].
  - destruct (in_int64 a); inversion H; subst. apply wrap32_range.
  - destruct f as [s|s| |s m e]; try discriminate; cbn [f64_trunc] in H;
      match type of H with
      | (if ?c then _ else _) = _ => destruct c; inversion H; subst; apply wrap32_range
      end.
Qed.

(** A successful decoding comes from a two-dimensional array with at least
    two columns: the edge list is not empty and its records have one common
    length; the three buffers have one entry per record and the indices are
    32-bit values. *)
Lemma decode_Ok (el : list edge) (dat : vector) (row col : list Z) :
  decode el = Ok (dat, row, col) ->
  el <> []
  /\ (exists k, (2 <= k)%nat /\ Forall (fun e => length e = k) el)
  /\ length row = length el /\ length col = length el
  /\ length (vdata dat) = length el
  /\ Forall (fun r => INT32_MIN <= r <= INT32_MAX) row
  /\ Forall (fun c => INT32_MIN <= c <= INT32_MAX) col.
Proof.
  intros H.
  destruct (Np.array el) as [dt n|dt k cells] eqn:Ha;
    [unfold decode in H; now rewrite Ha in H|].
  rewrite (decode_Arr2 el dt k cells Ha) in H.
  assert (Hel : el <> [] /\ Forall (fun e => length e = k) el
                /\ length cells = length el).
  { unfold Np.array in Ha. destruct el as [|r rest]; [discriminate|].
    match type of Ha with (if ?b then _ else _) = _ => destruct b eqn:Hu end;
      inversion Ha; subst.
    split; [discriminate|]. split; [|simpl; now rewrite length_map].
    constructor; [reflexivity|]. apply Forall_forall. intros e He.
    rewrite forallb_forall in Hu. now apply Nat.eqb_eq, Hu. }
  destruct Hel as (Hne & Hk & Hc).
  destruct (Nat.ltb_spec 0 k) as [H0|]; [|discriminate].
  inv_bind H. destruct (Nat.ltb_spec 1 k) as [H1|]; [|discriminate].
  inv_bind H.
  pose proof (mapM_Forall2 _ _ _ E) as Fr. pose proof (mapM_Forall2 _ _ _ E0) as Fc.
  pose proof (Forall2_length Fr) as Lr. pose proof (Forall2_length Fc) as Lc.
  assert (Hrange : forall (j : nat) (cs : list (list scalar)) (l : list Z),
             Forall2 (fun r b => to_int32 (nth j r (SObj (PyInt 0))) = Ok b) cs l ->
             Forall (fun r => INT32_MIN <= r <= INT32_MAX) l).
  { intros j cs l F. induction F as [|r b t t' Hrb F IH]; constructor;
      [exact (to_int32_range _ _ Hrb) | exact IH]. }
  assert (Hrc : v = row /\ v0 = col) by (inversion H; auto).
  destruct Hrc; subst v v0.
  split; [exact Hne|]. split; [exists k; split; [lia | exact Hk]|].
  split; [congruence|]. split; [congruence|].
  split; [|split; [exact (Hrange _ _ _ Fr) | exact (Hrange _ _ _ Fc)]].
  destruct (2 <? k)%nat; inversion H; subst; simpl; rewrite length_map; congruence.
Qed.

(** ** Rows in canonical form *)

(** Two rows in canonical form that answer every lookup alike are equal. *)
Lemma ascending_ext (l1 l2 : list entry) :
  ascending l1 -> ascending l2 ->
  (forall c, lookup c l1 = lookup c l2) -> l1 = l2.
Proof.
  unfold ascending. revert l2; induction l1 as [|[c1 x1] t1 IH]; intros l2 H1 H2 Hl.
  - destruct l2 as [|[c2 x2] t2]; [reflexivity|].
    specialize (Hl c2). unfold lookup in Hl. simpl in Hl.
    rewrite Z.eqb_refl in Hl. discriminate.
  - destruct l2 as [|[c2 x2] t2].
    + specialize (Hl c1). unfold lookup in Hl. simpl in Hl.
      rewrite Z.eqb_refl in Hl. discriminate.
    + simpl in H1, H2.
      inversion H1 as [|? ? S1 F1]; inversion H2 as [|? ? S2 F2]; subst.
      assert (Hin : forall (c : Z) (l : list entry) (x : scalar),
                 lookup c l = Some x -> In c (map fst l)).
      { intros c l x. unfold lookup. induction l as [|h t IHl]; simpl; [discriminate|].
        destruct (Z.eqb_spec (fst h) c); [now left | intros; right; auto]. }
      assert (Hc : c1 = c2).
      { pose proof (Hl c1) as E1. pose proof (Hl c2) as E2.
        unfold lookup in E1, E2. simpl in E1, E2.
        rewrite Z.eqb_refl in E1, E2.
        destruct (Z.eqb_spec c2 c1) as [|N1]; [congruence|].
        destruct (Z.eqb_spec c1 c2) as [|N2]; [congruence|].
        simpl in E1, E2. symmetry in E1.
        apply (Hin c1 t2 x1) in E1. apply (Hin c2 t1 x2) in E2.
        rewrite Forall_forall in F1, F2.
        specialize (F1 _ E2). specialize (F2 _ E1). lia. }
      subst c2.
      assert (Hx : x1 = x2).
      { specialize (Hl c1). unfold lookup in Hl. simpl in Hl.
        rewrite Z.eqb_refl in Hl. simpl in Hl. congruence. }
      subst x2. f_equal. apply IH; auto.
      intros c. pose proof (Hl c) as Hlc. unfold lookup in Hlc |- *. simpl in Hlc.
      destruct (Z.eqb_spec c1 c) as [E|Hne]; [|exact Hlc].
      assert (Hnone : forall l : list entry,
                 Forall (Z.lt c1) (map fst l) -> find (fun e => fst e =? c) l = None).
      { intros l F. induction l as [|h t IHl]; [reflexivity|]. simpl.
        inversion F; subst. destruct (Z.eqb_spec (fst h) c); [lia | auto]. }
      now rewrite (Hnone t1 F1), (Hnone t2 F2).
Qed.

(** *** Sums of a permuted list *)

Section PermutedSums.

Variable Q : scalar -> Prop.
Hypothesis Q_add : forall x y, Q x -> Q y -> Q (scalar_add x y).
Hypothesis Q_comm : forall x y, Q x -> Q y -> scalar_add x y = scalar_add y x.
Hypothesis Q_assoc : forall x y z, Q x -> Q y -> Q z ->
  scalar_add (scalar_add x y) z = scalar_add x (scalar_add y z).

Lemma fold_add_perm (t t' : list scalar) :
  Permutation t t' ->
  forall x, Q x -> Forall Q t ->
            fold_left scalar_add t x = fold_left scalar_add t' x.
Proof.
  induction 1 as [|a l l' Hp IH|a b l|l l' l'' H1 IH1 H2 IH2]; intros x Hx Hl; simpl.
  - reflexivity.
  - inversion Hl; subst. apply IH; auto.
  - inversion Hl as [|? ? Hb Hl']; inversion Hl' as [|? ? Ha _]; subst.
    f_equal. rewrite !Q_assoc by assumption. f_equal. now apply Q_comm.
  - rewrite IH1 by assumption. apply IH2; [assumption|].
    now apply (Permutation_Forall H1).
Qed.

Lemma sum_scalars_perm (l l' : list scalar) :
  Permutation l l' -> Forall Q l -> sum_scalars l = sum_scalars l'.
Proof.
  induction 1 as [|a l l' Hp IH|a b l|l l' l'' H1 IH1 H2 IH2]; intros Hl; simpl.
  - reflexivity.
  - inversion Hl; subst. f_equal. now apply fold_add_perm.
  - inversion Hl as [|? ? Hb Hl']; inversion Hl' as [|? ? Ha _]; subst.
    do 2 f_equal. now apply Q_comm.
  - rewrite IH1 by assumption. apply IH2. now apply (Permutation_Forall H1).
Qed.

End PermutedSums.

Lemma wrap64_add_l (a b : Z) : wrap64 (wrap64 a + b) = wrap64 (a + b).
Proof.
  unfold wrap64, wrap. f_equal.
  replace ((a + 2 ^ (64 - 1)) mod 2 ^ 64 - 2 ^ (64 - 1) + b + 2 ^ (64 - 1))
    with ((a + 2 ^ (64 - 1)) mod 2 ^ 64 + b) by lia.
  rewrite Z.add_mod_idemp_l by (change (2 ^ 64) with 18446744073709551616; lia).
  f_equal. lia.
Qed.

(** ** The order of addition *)

Lemma f64_add_comm (x y : float64) : f64_add x y = f64_add y x.
Proof.
  unfold f64_add, SFadd.
  destruct x as [sx|sx| |sx mx ex], y as [sy|sy| |sy my ey];
    try reflexivity; try (destruct sx, sy; reflexivity).
  cbv zeta. rewrite (Z.min_comm ex ey). f_equal. apply Z.add_comm.
Qed.

Lemma wrapU64_add_l (a b : Z) : wrapU64 (wrapU64 a + b) = wrapU64 (a + b).
Proof.
  unfold wrapU64. apply Z.add_mod_idemp_l.
  change (2 ^ 64) with 18446744073709551616. lia.
Qed.

(** In an array of a numeric type other than double the sum of a list of
    elements is the same in every order; so is the sum of two doubles. *)
Lemma order_free_typed (dt : Np.dtype) (l : list scalar) :
  Forall (has_dtype dt) l -> dt <> Object ->
  dt <> Float64 \/ (length l <= 2)%nat -> order_free l.
Proof.
  intros Hl Hobj [Hf|Hlen] l' Hp.
  - symmetry. apply (sum_scalars_perm (has_dtype dt)); [| | |now symmetry|exact Hl].
    + intros x y Hx Hy. destruct dt, x, y; simpl in *; tauto.
    + intros x y Hx Hy. destruct dt, x, y; simpl in *; try contradiction.
      * now rewrite orb_comm.
      * now rewrite Z.add_comm.
      * now rewrite Z.add_comm.
    + intros x y z Hx Hy Hz.
      destruct dt, x as [a|a|a|a|a], y as [b|b|b|b|b], z as [c|c|c|c|c];
        simpl in *; try contradiction.
      * now rewrite orb_assoc.
      * f_equal. rewrite wrap64_add_l.
        rewrite (Z.add_comm a (wrap64 (b + c))), wrap64_add_l. f_equal. lia.
      * f_equal. rewrite wrapU64_add_l.
        rewrite (Z.add_comm a (wrapU64 (b + c))), wrapU64_add_l. f_equal. lia.
  - destruct l as [|a [|b [|c t]]]; simpl in Hlen; try lia.
    + apply Permutation_sym, Permutation_nil in Hp. now subst.
    + apply Permutation_sym, Permutation_length_1_inv in Hp. now subst.
    + apply Permutation_sym, Permutation_length_2_inv in Hp.
      destruct Hp as [->| ->]; [reflexivity|].
      inversion Hl as [|? ? Ha Hl']; inversion Hl' as [|? ? Hb _]; subst.
      simpl. f_equal.
      destruct dt, a, b; simpl in *; try contradiction.
      * now rewrite orb_comm.
      * now rewrite Z.add_comm.
      * now rewrite Z.add_comm.
      * now rewrite f64_add_comm.
Qed.

Lemma order_free_single (l : list scalar) : (length l <= 1)%nat -> order_free l.
Proof.
  intros Hlen l' Hp. destruct l as [|a [|b t]]; simpl in Hlen; try lia.
  - apply Permutation_sym, Permutation_nil in Hp. now subst.
  - apply Permutation_sym, Permutation_length_1_inv in Hp. now subst.
Qed.

(** *** The elements of the value buffer *)

Lemma fold_promote_exact (dt : Np.dtype) (l : list pyval) :
  dt = Int64 \/ dt = UInt64 ->
  forall d : Np.dtype,
    d <> Bool ->
    fold_left (fun d q => promote_types d (scalar_type q)) l d = dt ->
    d = dt /\ Forall (fun p => scalar_type p = dt) l.
Proof.
  intros Hdt. induction l as [|p t IH]; simpl; intros d Hd H.
  - now split.
  - pose proof (scalar_type_not_Bool p) as Hp.
    destruct (IH (promote_types d (scalar_type p))) as [E F]; [|exact H|].
    { destruct d, (scalar_type p); simpl; try discriminate; contradiction. }
    assert (Hboth : d = dt /\ scalar_type p = dt).
    { destruct Hdt as [-> | ->];
        destruct d, (scalar_type p); simpl in E; try discriminate;
        try contradiction; now split. }
    destruct Hboth as [Ed Ep]. split; [exact Ed|]. now constructor.
Qed.

Lemma result_type_not_Bool (l : list pyval) : result_type l <> Bool.
Proof.
  destruct l as [|p t]; [discriminate|]. unfold result_type.
  pose proof (scalar_type_not_Bool p) as Hp. revert Hp.
  generalize (scalar_type p) as d. induction t as [|q t IH]; simpl; intros d Hd.
  - exact Hd.
  - apply IH. pose proof (scalar_type_not_Bool q).
    destruct d, (scalar_type q); simpl; try discriminate; contradiction.
Qed.

(** Every field of the edge list is stored at the type of the array. *)
Lemma convert_typed (l : list pyval) (p : pyval) :
  In p l -> has_dtype (result_type l) (convert (result_type l) p).
Proof.
  intros Hin. pose proof (result_type_not_Bool l) as Hb.
  destruct (result_type l) eqn:E; try contradiction.
  - destruct l as [|q t]; [contradiction|]. unfold result_type in E.
    destruct (fold_promote_exact Int64 t (or_introl eq_refl) _
                                 (scalar_type_not_Bool q) E) as [Eq F].
    assert (Hp : scalar_type p = Int64).
    { destruct Hin as [->|Hin]; [exact Eq|]. rewrite Forall_forall in F. auto. }
    destruct p; [exact I | discriminate].
  - destruct l as [|q t]; [contradiction|]. unfold result_type in E.
    destruct (fold_promote_exact UInt64 t (or_intror eq_refl) _
                                 (scalar_type_not_Bool q) E) as [Eq F].
    assert (Hp : scalar_type p = UInt64).
    { destruct Hin as [->|Hin]; [exact Eq|]. rewrite Forall_forall in F. auto. }
    destruct p; [exact I | discriminate].
  - destruct p; exact I.
  - destruct p; exact I.
Qed.

Lemma decode_typed (el : list edge) (dat : vector) (row col : list Z) :
  decode el = Ok (dat, row, col) ->
  Forall (has_dtype (vdtype dat)) (vdata dat).
Proof.
  intros H. destruct (decode_Ok el dat row col H) as (Hne & (k & H2 & Hk) & _).
  rewrite (decode_uniform el k Hne Hk H2) in H.
  inv_bind H. inv_bind H.
  destruct (2 <? k)%nat eqn:E3; inversion H; subst; clear H; cbn [vdtype vdata].
  - apply Nat.ltb_lt in E3. apply Forall_forall. intros x Hx.
    apply in_map_iff in Hx. destruct Hx as (e & <- & He).
    rewrite Forall_forall in Hk. pose proof (Hk e He) as Hlen.
    rewrite (nth_indep _ _ (convert (result_type (concat el)) (PyInt 0)))
      by (rewrite length_map; lia).
    rewrite map_nth. apply convert_typed.
    apply in_concat. exists e. split; [exact He|]. apply nth_In. lia.
  - unfold ones_like_bool. cbn [vdata]. apply Forall_forall. intros x Hx.
    apply in_map_iff in Hx. destruct Hx as (z & <- & _). exact I.
Qed.

Lemma records_at_length (i j : Z) (row col : list Z) (dat : list scalar) :
  (length (records_at i j row col dat) <= length dat)%nat.
Proof.
  revert col dat; induction row as [|r row IH]; intros [|c col] [|x dat];
    simpl; try lia.
  specialize (IH col dat). destruct ((r =? i) && (c =? j)); simpl; lia.
Qed.

Lemma records_at_not_In (i j : Z) (row col : list Z) (dat : list scalar) :
  ~ In (i, j) (List.combine row col) -> records_at i j row col dat = [].
Proof.
  revert col dat; induction row as [|r row IH]; intros [|c col] [|x dat] H;
    simpl in *; try reflexivity.
  destruct (Z.eqb_spec r i) as [->|], (Z.eqb_spec c j) as [->|]; simpl;
    try (apply IH; intros Hin; apply H; now right).
  exfalso. apply H. now left.
Qed.

Lemma records_at_NoDup (i j : Z) (row col : list Z) (dat : list scalar) :
  NoDup (List.combine row col) ->
  (length (records_at i j row col dat) <= 1)%nat.
Proof.
  revert col dat; induction row as [|r row IH]; intros [|c col] [|x dat] H;
    simpl in *; try lia.
  inversion H as [|? ? Hnin Hnd]; subst.
  destruct (Z.eqb_spec r i) as [->|], (Z.eqb_spec c j) as [->|]; simpl;
    try (now apply IH).
  now rewrite records_at_not_In.
Qed.

(** The sums at the coordinates of an edge list do not depend on the order
    of addition, unless the values are doubles and three or more records
    share the coordinate. *)
Lemma decode_order_free (el : list edge) (dat : vector) (row col : list Z)
      (i j : Z) :
  decode el = Ok (dat, row, col) -> vdtype dat <> Object ->
  vdtype dat <> Float64
  \/ (length (records_at i j row col (vdata dat)) <= 2)%nat ->
  order_free (records_at i j row col (vdata dat)).
Proof.
  intros Hd Hobj Hc. apply (order_free_typed (vdtype dat)); auto.
  apply records_at_all. exact (decode_typed el dat row col Hd).
Qed.

(** *** Results that do not depend on the tie-break *)

Lemma canonical_row_order (order order' : row_order) (i : Z) (row col : list Z)
      (dat : list scalar) :
  (forall j, order_free (records_at i j row col dat)) ->
  sum_duplicates (sort_indices order (bucket i row col dat))
  = sum_duplicates (sort_indices order' (bucket i row col dat)).
Proof.
  intros Hfree. apply ascending_ext.
  - apply sum_duplicates_sorted, sort_indices_sorted.
  - apply sum_duplicates_sorted, sort_indices_sorted.
  - intros c. rewrite !sum_duplicates_lookup by apply sort_indices_sorted.
    rewrite (Hfree c (map snd (filter (fun h => fst h =? c)
                                      (sort_indices order (bucket i row col dat))))).
    + symmetry. apply Hfree. rewrite <- bucket_records.
      apply Permutation_map, sort_indices_filter.
    + rewrite <- bucket_records. apply Permutation_map, sort_indices_filter.
Qed.

Lemma csr_matrix_coo_tie (tie tie' : tie_break) (dat : vector) (row col : list Z)
      (sh : Z * Z) :
  (vdtype dat <> Object ->
   forall i j, order_free (records_at i j row col (vdata dat))) ->
  csr_matrix_coo tie dat row col sh = csr_matrix_coo tie' dat row col sh.
Proof.
  intros Hfree. unfold csr_matrix_coo.
  destruct ((fst sh <? 0) || (snd sh <? 0)); [reflexivity|].
  destruct (negb _); [reflexivity|].
  destruct (check sh row col) as [[]|e]; [|reflexivity]. cbn [bind].
  assert (E : vdtype dat <> Object ->
              canonical_rows (tie row col (vdata dat)) (fst sh) row col (vdata dat)
              = canonical_rows (tie' row col (vdata dat)) (fst sh) row col (vdata dat)).
  { intros Hobj. unfold canonical_rows. apply map_ext. intros i.
    apply canonical_row_order. intros j. now apply Hfree. }
  destruct (vdtype dat); try reflexivity; rewrite E; try reflexivity; discriminate.
Qed.

(** Both conversions return the same result under every tie-break when no
    sum depends on the order of addition. *)
Lemma conversions_tie (tie tie' : tie_break) (op : scalar -> scalar -> scalar)
      (el : list edge) (undirected : bool) :
  (forall (dat : vector) (row col : list Z),
      decode el = Ok (dat, row, col) -> vdtype dat <> Object ->
      forall i j, order_free (records_at i j row col (vdata dat))) ->
  edgelist2adjacency tie op el undirected = edgelist2adjacency tie' op el undirected
  /\ edgelist2biadjacency tie el = edgelist2biadjacency tie' el.
Proof.
  intros Hfree. rewrite !edgelist2adjacency_decode, !edgelist2biadjacency_decode.
  destruct (decode el) as [[[dat row] col]|e]; [|split; reflexivity]. cbn [bind].
  destruct (Np.max row); [|split; reflexivity]. cbn [bind].
  destruct (Np.max col); [|split; reflexivity]. cbn [bind].
  rewrite !(csr_matrix_coo_tie tie tie') by (apply Hfree; reflexivity).
  split; reflexivity.
Qed.

(** Edge lists of at most two records, or whose values are not doubles, or
    in which no coordinate is named twice. *)
Lemma conversions_tie_short (tie tie' : tie_break) (op : scalar -> scalar -> scalar)
      (el : list edge) (undirected : bool) :
  (length el <= 2)%nat ->
  edgelist2adjacency tie op el undirected = edgelist2adjacency tie' op el undirected
  /\ edgelist2biadjacency tie el = edgelist2biadjacency tie' el.
Proof.
  intros Hlen. apply conversions_tie. intros dat row col Hd Hobj i j.
  apply (decode_order_free el dat row col i j Hd Hobj). right.
  pose proof (records_at_length i j row col (vdata dat)).
  destruct (decode_Ok el dat row col Hd) as (_ & _ & _ & _ & L & _). lia.
Qed.

Lemma conversions_tie_exact (tie tie' : tie_break) (op : scalar -> scalar -> scalar)
      (el : list edge) (undirected : bool) :
  (forall (dat : vector) (row col : list Z),
      decode el = Ok (dat, row, col) ->
      vdtype dat <> Float64 \/ NoDup (List.combine row col)) ->
  edgelist2adjacency tie op el undirected = edgelist2adjacency tie' op el undirected
  /\ edgelist2biadjacency tie el = edgelist2biadjacency tie' el.
Proof.
  intros Hc. apply conversions_tie. intros dat row col Hd Hobj i j.
  destruct (Hc dat row col Hd) as [Hf|Hnd].
  - apply (decode_order_free el dat row col i j Hd Hobj). now left.
  - apply order_free_single. now apply records_at_NoDup.
Qed.

(** Evaluation of a conversion on an edge list on which no sum depends on the
    order of addition: the result is the one of the stable tie-break. *)
Ltac no_tie_short tie :=
  match goal with
  | |- edgelist2adjacency tie ?op ?el ?u = _ =>
      rewrite (proj1 (conversions_tie_short tie stable op el u ltac:(simpl; lia)));
      reflexivity
  | |- edgelist2biadjacency tie ?el = _ =>
      rewrite (proj2 (conversions_tie_short tie stable scalar_add el false
                                            ltac:(simpl; lia)));
      reflexivity
  end.

Ltac no_tie_decoded :=
  let dat := fresh "dat" in
  let row := fresh "row" in
  let col := fresh "col" in
  let Hd := fresh "Hd" in
  intros dat row col Hd; vm_compute in Hd; inversion Hd; subst;
  first [ left; discriminate
        | right; repeat constructor; simpl; intuition congruence ].

Ltac no_tie_exact tie :=
  match goal with
  | |- edgelist2adjacency tie ?op ?el ?u = _ =>
      rewrite (proj1 (conversions_tie_exact tie stable op el u ltac:(no_tie_decoded)));
      reflexivity
  | |- edgelist2biadjacency tie ?el = _ =>
      rewrite (proj2 (conversions_tie_exact tie stable scalar_add el false
                                            ltac:(no_tie_decoded)));
      reflexivity
  end.

(** * The claims

    Every statement is made for an arbitrary tie-break [tie]: it holds
    whichever order the sort leaves the entries of equal column in. *)

(** C1: the records of an edge list that share a coordinate pair end up in one
    stored entry, in [edgelist2adjacency] and in [edgelist2biadjacency] alike:
    at every position the matrix stores the sum, in the element type, of the
    values of the records at that position, and a position named by one or
    several records has exactly one entry in its row.  The values are added
    in the order in which the sort of the row leaves them: the stored value
    is the sum in input order whenever the values are not doubles or at most
    two records share the position, and the sum in some order otherwise.
    The two edges [(0, 1, 2.0)] and [(0, 1, 3.0)] give one stored entry,
    [5.0] at [(0, 1)]. *)
Theorem C1_duplicates_are_summed :
  forall (tie : tie_break) (op : scalar -> scalar -> scalar),
    (forall (el : list edge) (dat : vector) (row col : list Z) (A : csr_matrix),
        decode el = Ok (dat, row, col) ->
        edgelist2adjacency tie op el false = Ok A
        \/ edgelist2biadjacency tie el = Ok A ->
        forall (i : nat) (j : Z),
          (exists vs : list scalar,
              Permutation vs (records_at (Z.of_nat i) j row col (vdata dat))
              /\ stored A i j = sum_scalars vs)
          /\ (vdtype dat <> Float64
              \/ (length (records_at (Z.of_nat i) j row col (vdata dat)) <= 2)%nat ->
              stored A i j
              = sum_scalars (records_at (Z.of_nat i) j row col (vdata dat)))
          /\ (records_at (Z.of_nat i) j row col (vdata dat) <> [] ->
              length (filter (fun e => (fst e =? j)%Z) (row_entries A i)) = 1%nat))
    /\ f64_add f64_2 f64_3 = f64_5
    /\ edgelist2adjacency tie op two_edges false = Ok two_edges_adjacency
    /\ edgelist2biadjacency tie two_edges = Ok two_edges_biadjacency
    /\ nnz two_edges_adjacency = 1%nat
    /\ stored two_edges_adjacency 0 1 = Some (SFloat f64_5)
    /\ nnz two_edges_biadjacency = 1%nat
    /\ stored two_edges_biadjacency 0 1 = Some (SFloat f64_5).
Proof.
  intros tie op. split; [|repeat split; try no_tie_short tie].
  intros el dat row col A Hd HA i j.
  destruct (plain_conversion_Ok op el A HA) as (dat' & row' & col' & sh & Hd' & Hcoo).
  rewrite Hd in Hd'. inversion Hd'; subst dat' row' col'.
  pose proof (coo_stored_perm dat row col sh A Hcoo i j) as (vs & Hp & Hst).
  split; [now exists vs|]. split.
  - intros Hc. apply (coo_stored dat row col sh A Hcoo).
    apply (decode_order_free el dat row col _ _ Hd); [|exact Hc].
    now destruct (csr_matrix_coo_Ok _ _ _ _ _ Hcoo) as (_ & Hobj & _).
  - intros Hrec.
    pose proof (ascending_single _ j (coo_ascending dat row col sh A Hcoo i)) as Hle.
    destruct (sum_scalars vs) as [x|] eqn:Hsum.
    + apply lookup_Some_filter in Hst.
      destruct (filter (fun e => fst e =? j) (row_entries A i)) as [|e [|e' t]];
        simpl in *; [contradiction | reflexivity | lia].
    + apply sum_scalars_None in Hsum. subst vs.
      apply Permutation_nil in Hp. now rewrite Hp in Hrec.
Qed.

Lemma C1_duplicates_are_summed_witness :
  stored two_edges_biadjacency 0 1
  = sum_scalars (records_at 0 1 [0; 0] [1; 1] [SFloat f64_2; SFloat f64_3])
  /\ length (filter (fun e => (fst e =? 1)%Z) (row_entries two_edges_biadjacency 0))
     = 1%nat.
Proof.
  destruct (proj1 (C1_duplicates_are_summed stable scalar_add) two_edges
                  (mkvec Float64 [SFloat f64_2; SFloat f64_3]) [0; 0] [1; 1]
                  two_edges_biadjacency
                  eq_refl (or_intror eq_refl) 0%nat 1) as (_ & H1 & H2).
  split; [apply H1; right; simpl; lia|]. apply H2. discriminate.
Defined.

(** C2: on a non-empty edge list of uniform arity 2 or 3 whose indices are
    non-negative and fit 32 bits, [edgelist2adjacency] returns a square
    matrix whose side is one plus the greatest index found among the row and
    the column indices together. *)
Theorem C2_adjacency_shape :
  forall (tie : tie_break) (op : scalar -> scalar -> scalar) (el : list edge) (k : nat)
         (undirected : bool),
    el <> [] -> k = 2%nat \/ k = 3%nat ->
    Forall (fun e => well_formed k e = true) el ->
    exists (A : csr_matrix) (n : Z),
      edgelist2adjacency tie op el undirected = Ok A
      /\ shape A = (n, n)
      /\ is_max (n - 1) (rows_of el ++ cols_of el).
Proof.
  intros tie op el k undirected Hne _ Hwf.
  destruct (decode_well_formed el k Hne Hwf) as (dat & Hd & Hobj & Hlen & Hr & Hc).
  assert (Hrne : rows_of el <> []) by (destruct el; [contradiction | discriminate]).
  assert (Hcne : cols_of el <> []) by (destruct el; [contradiction | discriminate]).
  destruct (max_nonempty _ Hrne) as [rmax Hrmax].
  destruct (max_nonempty _ Hcne) as [cmax Hcmax].
  pose proof (max_is_max _ _ Hrmax) as Mr. pose proof (max_is_max _ _ Hcmax) as Mc.
  pose proof (is_max_app _ _ _ _ Mr Mc) as M.
  assert (B : Forall (fun x => 0 <= x <= INT32_MAX) (rows_of el ++ cols_of el))
    by (apply Forall_app; auto).
  destruct (is_max_bounds _ _ _ _ M B) as [Bm Bl].
  apply Forall_app in Bl. destruct Bl as [Blr Blc].
  rewrite edgelist2adjacency_decode, Hd. cbn [bind]. rewrite Hrmax, Hcmax. cbn [bind].
  rewrite (wrap64_index _ Bm).
  rewrite csr_matrix_coo_bounds; auto; cbn [fst snd bind]; try lia.
  - replace (Z.max rmax cmax + 1 - 1) with (Z.max rmax cmax) in * by lia.
    destruct undirected; eexists; exists (Z.max rmax cmax + 1);
      (split; [reflexivity|]); split; try reflexivity;
      now replace (Z.max rmax cmax + 1 - 1) with (Z.max rmax cmax) by lia.
  - unfold rows_of. now rewrite length_map.
  - unfold cols_of. now rewrite length_map.
Qed.

Lemma C2_adjacency_shape_witness :
  exists (A : csr_matrix) (n : Z),
    edgelist2adjacency stable scalar_add weighted_triangle true = Ok A
    /\ shape A = (n, n)
    /\ is_max (n - 1) (rows_of weighted_triangle ++ cols_of weighted_triangle).
Proof.
  apply (C2_adjacency_shape stable scalar_add weighted_triangle 3%nat true).
  - discriminate.
  - right; reflexivity.
  - repeat constructor.
Defined.

(** C3: on a non-empty edge list of uniform arity 2 or 3 whose indices are
    non-negative and fit 32 bits, [edgelist2biadjacency] returns a matrix
    with one more row than the greatest row index and one more column than
    the greatest column index, each computed on its own: the edge list
    [(0,0), (1,0), (1,1), (2,1)], whose row and column indices overlap, gives
    the shape [(3, 2)]. *)
Theorem C3_biadjacency_shape :
  forall tie : tie_break,
    (forall (el : list edge) (k : nat),
        el <> [] -> k = 2%nat \/ k = 3%nat ->
        Forall (fun e => well_formed k e = true) el ->
        exists (A : csr_matrix) (n_row n_col : Z),
          edgelist2biadjacency tie el = Ok A
          /\ shape A = (n_row, n_col)
          /\ is_max (n_row - 1) (rows_of el)
          /\ is_max (n_col - 1) (cols_of el))
    /\ edgelist2biadjacency tie bipartite = Ok bipartite_biadjacency
    /\ shape bipartite_biadjacency = (3, 2)
    /\ rows_of bipartite = [0; 1; 1; 2]
    /\ cols_of bipartite = [0; 0; 1; 1].
Proof.
  intros tie. split; [|repeat split; try no_tie_exact tie].
  intros el k Hne _ Hwf.
  destruct (decode_well_formed el k Hne Hwf) as (dat & Hd & Hobj & Hlen & Hr & Hc).
  assert (Hrne : rows_of el <> []) by (destruct el; [contradiction | discriminate]).
  assert (Hcne : cols_of el <> []) by (destruct el; [contradiction | discriminate]).
  destruct (max_nonempty _ Hrne) as [rmax Hrmax].
  destruct (max_nonempty _ Hcne) as [cmax Hcmax].
  pose proof (max_is_max _ _ Hrmax) as Mr. pose proof (max_is_max _ _ Hcmax) as Mc.
  destruct (is_max_bounds _ _ _ _ Mr Hr) as [Br Blr].
  destruct (is_max_bounds _ _ _ _ Mc Hc) as [Bc Blc].
  rewrite edgelist2biadjacency_decode, Hd. cbn [bind]. rewrite Hrmax, Hcmax. cbn [bind].
  rewrite (wrap64_index _ Br), (wrap64_index _ Bc).
  rewrite csr_matrix_coo_bounds; auto; cbn [fst snd]; try lia.
  - eexists. exists (rmax + 1), (cmax + 1). split; [reflexivity|].
    split; [reflexivity|].
    now replace (rmax + 1 - 1) with rmax by lia; replace (cmax + 1 - 1) with cmax by lia.
  - unfold rows_of. now rewrite length_map.
  - unfold cols_of. now rewrite length_map.
Qed.

Lemma C3_biadjacency_shape_witness :
  exists (A : csr_matrix) (n_row n_col : Z),
    edgelist2biadjacency stable bipartite = Ok A
    /\ shape A = (n_row, n_col)
    /\ is_max (n_row - 1) (rows_of bipartite)
    /\ is_max (n_col - 1) (cols_of bipartite).
Proof.
  apply (proj1 (C3_biadjacency_shape stable) bipartite 2%nat).
  - discriminate.
  - left; reflexivity.
  - repeat constructor.
Defined.

(** C4 (as amended): an empty edge list makes either conversion fail with
    [IndexError]; the exception is raised by the selection of the first column
    of the empty array, before the sparse constructor is reached, and no
    matrix is returned. *)
Theorem C4_empty_input_raises_IndexError :
  forall (tie : tie_break) (combine : scalar -> scalar -> scalar) (undirected : bool),
    Np.column (Np.array []) 0 = Raise IndexError
    /\ edgelist2adjacency tie combine [] undirected = Raise IndexError
    /\ edgelist2biadjacency tie [] = Raise IndexError.
Proof. intros tie combine undirected. repeat split. Qed.

(** C4 as stated fails: the exception raised on the empty list is not
    [EmptyInput]. *)
Lemma C4_counterexample :
  ~ (exists (tie : tie_break) (e : exn),
        (edgelist2adjacency tie scalar_add [] false = Raise e
         \/ edgelist2biadjacency tie [] = Raise e)
        /\ exn_name e = "EmptyInput"%string).
Proof.
  intros (tie & e & [H|H] & Hn); inversion H; subst e; discriminate Hn.
Qed.

(** C5 (as amended): an index outside the 32-bit signed range is not
    rejected.  For an edge list of Python ints of the 64-bit type both
    conversions behave exactly as on the edge list whose indices have been
    reduced to their low 32 bits; the row index [2^32 + 1] is taken for
    row [1]. *)
Theorem C5_indices_wrap_to_32_bits :
  forall (tie : tie_break) (op : scalar -> scalar -> scalar) (el : list edge)
         (undirected : bool),
    Forall (Forall (fun p => is_int64 p = true)) el ->
    edgelist2adjacency tie op el undirected
    = edgelist2adjacency tie op (map wrap_indices el) undirected
    /\ edgelist2biadjacency tie el = edgelist2biadjacency tie (map wrap_indices el)
    /\ map wrap_indices overflowing = [pair 1 0]
    /\ edgelist2biadjacency tie overflowing = Ok overflowing_biadjacency.
Proof.
  intros tie op el undirected Hint. repeat split.
  - rewrite !edgelist2adjacency_decode. now rewrite decode_wrap_indices.
  - rewrite !edgelist2biadjacency_decode. now rewrite decode_wrap_indices.
  - no_tie_short tie.
Qed.

Lemma C5_indices_wrap_to_32_bits_witness :
  edgelist2adjacency stable scalar_add overflowing false
  = edgelist2adjacency stable scalar_add (map wrap_indices overflowing) false
  /\ edgelist2biadjacency stable overflowing
     = edgelist2biadjacency stable (map wrap_indices overflowing)
  /\ map wrap_indices overflowing = [pair 1 0]
  /\ edgelist2biadjacency stable overflowing = Ok overflowing_biadjacency.
Proof.
  apply (C5_indices_wrap_to_32_bits stable scalar_add overflowing false).
  repeat constructor.
Defined.

(** C5 as stated fails: the row index [2^32 + 1] is outside the 32-bit range,
    and the conversion returns a matrix instead of raising. *)
Lemma C5_counterexample :
  in_int32 4294967297 = false
  /\ (forall tie : tie_break,
        edgelist2biadjacency tie overflowing = Ok overflowing_biadjacency
        /\ edgelist2adjacency tie scalar_add overflowing false
           = Ok overflowing_adjacency)
  /\ ~ (exists (tie : tie_break) (e : exn),
          edgelist2biadjacency tie overflowing = Raise e
          \/ edgelist2adjacency tie scalar_add overflowing false = Raise e).
Proof.
  assert (H : forall tie : tie_break,
             edgelist2biadjacency tie overflowing = Ok overflowing_biadjacency
             /\ edgelist2adjacency tie scalar_add overflowing false
                = Ok overflowing_adjacency)
    by (intros tie; split; no_tie_short tie).
  split; [reflexivity|]. split; [exact H|].
  intros (tie & e & [He|He]); destruct (H tie) as [H1 H2];
    rewrite ?H1, ?H2 in He; discriminate He.
Qed.

(** C6: a non-empty edge list of pairs gives a matrix of boolean type whose
    stored values are all [true], by [edgelist2adjacency] and by
    [edgelist2biadjacency]; the edge list [(0,1), (1,2), (2,0)] gives a
    boolean adjacency matrix of shape [(3, 3)] with 3 stored entries. *)
Theorem C6_unweighted_values_are_true :
  forall (tie : tie_break) (op : scalar -> scalar -> scalar),
    (forall (el : list edge) (A : csr_matrix),
        el <> [] -> Forall (fun e => length e = 2%nat) el ->
        edgelist2adjacency tie op el false = Ok A
        \/ edgelist2biadjacency tie el = Ok A ->
        dtype A = Bool /\ Forall (fun x => x = SBool true) (data A))
    /\ edgelist2adjacency tie op triangle false = Ok triangle_adjacency
    /\ shape triangle_adjacency = (3, 3)
    /\ nnz triangle_adjacency = 3%nat
    /\ dtype triangle_adjacency = Bool.
Proof.
  intros tie op. split; [|repeat split; try no_tie_exact tie].
  intros el A _ Hk HA.
  destruct (plain_conversion_Ok op el A HA) as (dat & row & col & sh & Hd & Hcoo).
  apply (decode_pairs el dat row col Hk) in Hd. subst dat. split.
  - now rewrite (coo_dtype _ _ _ _ _ Hcoo).
  - apply (coo_data_all (fun x => x = SBool true)) with (2 := Hcoo).
    + intros x y -> ->. reflexivity.
    + simpl. apply Forall_forall. intros x Hx. apply in_map_iff in Hx.
      now destruct Hx as (_ & <- & _).
Qed.

Lemma C6_unweighted_values_are_true_witness :
  dtype triangle_adjacency = Bool
  /\ Forall (fun x => x = SBool true) (data triangle_adjacency).
Proof.
  refine (proj1 (C6_unweighted_values_are_true stable scalar_add) triangle
                triangle_adjacency _ _ (or_introl eq_refl)).
  - discriminate.
  - repeat constructor.
Defined.

(** C7: with [undirected = true], [edgelist2adjacency] returns the matrix it
    returns with [undirected = false] combined with its own transpose: same
    square shape, a position stored when it or its mirror was stored, holding
    the two values combined, so that the stored positions are symmetric and,
    for a commutative operator, so are the values.  On [(0,1), (1,2), (2,0)]
    the result has shape [(3, 3)] and 6 stored entries.
    [edgelist2biadjacency] stores the coordinates of the input and nothing
    else: no mirror entry is added. *)
Theorem C7_undirected_is_union_with_transpose :
  forall (tie : tie_break) (op : scalar -> scalar -> scalar),
    (forall el : list edge,
        edgelist2adjacency tie op el true
        = (A <- edgelist2adjacency tie op el false ;; Ok (directed2undirected op A)))
    /\ (forall (el : list edge) (A S : csr_matrix),
          edgelist2adjacency tie op el false = Ok A ->
          edgelist2adjacency tie op el true = Ok S ->
          shape S = shape A
          /\ fst (shape A) = snd (shape A)
          /\ forall i j : nat,
              (i < Z.to_nat (fst (shape A)))%nat ->
              (j < Z.to_nat (fst (shape A)))%nat ->
              stored S i (Z.of_nat j)
              = match stored A i (Z.of_nat j), stored A j (Z.of_nat i) with
                | None, None => None
                | _, _ => Some (op (get A i (Z.of_nat j)) (get A j (Z.of_nat i)))
                end
              /\ (stored S i (Z.of_nat j) = None <-> stored S j (Z.of_nat i) = None)
              /\ ((forall x y, op x y = op y x) ->
                  stored S i (Z.of_nat j) = stored S j (Z.of_nat i)))
    /\ (exists S : csr_matrix,
          edgelist2adjacency tie op triangle true = Ok S
          /\ shape S = (3, 3) /\ nnz S = 6%nat)
    /\ (forall (el : list edge) (dat : vector) (row col : list Z) (A : csr_matrix),
          decode el = Ok (dat, row, col) ->
          edgelist2biadjacency tie el = Ok A ->
          forall (i : nat) (j : Z),
            stored A i j = None
            <-> records_at (Z.of_nat i) j row col (vdata dat) = [])
    /\ edgelist2biadjacency tie one_sided = Ok one_sided_biadjacency
    /\ stored one_sided_biadjacency 0 1 = Some (SBool true)
    /\ stored one_sided_biadjacency 1 0 = None.
Proof.
  intros tie op.
  assert (Hwire : forall el : list edge,
             edgelist2adjacency tie op el true
             = (A <- edgelist2adjacency tie op el false ;;
                Ok (directed2undirected op A))).
  { intros el. rewrite !edgelist2adjacency_decode.
    destruct (decode el) as [[[dat row] col]|e]; [|reflexivity]. cbn [bind].
    destruct (Np.max row); [|reflexivity]. cbn [bind].
    destruct (Np.max col); [|reflexivity]. cbn [bind].
    destruct (csr_matrix_coo tie _ _ _ _); reflexivity. }
  split; [exact Hwire|].
  split; [|split; [|split; [|repeat split; try no_tie_short tie]]].
  - intros el A S HA HS. rewrite Hwire, HA in HS. cbn [bind] in HS.
    inversion HS; subst S; clear HS. split; [reflexivity|].
    apply edgelist2adjacency_Ok in HA.
    destruct HA as (dat & row & col & rmax & cmax & A0 & _ & _ & _ & Hcoo & ->).
    pose proof (coo_shape _ _ _ _ _ Hcoo) as Hsh.
    split; [now rewrite Hsh|].
    intros i j Hi Hj.
    assert (Hj' : (j < Z.to_nat (snd (shape A0)))%nat) by now rewrite Hsh in *.
    assert (Hi' : (i < Z.to_nat (snd (shape A0)))%nat) by now rewrite Hsh in *.
    rewrite (directed2undirected_stored op A0 i j Hi Hj').
    rewrite (directed2undirected_stored op A0 j i Hj Hi').
    split; [reflexivity|]. split.
    + destruct (stored A0 i (Z.of_nat j)), (stored A0 j (Z.of_nat i));
        split; intros H; try reflexivity; discriminate H.
    + intros Hcomm.
      destruct (stored A0 i (Z.of_nat j)), (stored A0 j (Z.of_nat i));
        try reflexivity; f_equal; apply Hcomm.
  - rewrite (proj1 (conversions_tie_exact tie stable op triangle true
                                          ltac:(no_tie_decoded))).
    eexists. split; [reflexivity|]. split; reflexivity.
  - intros el dat row col A Hd HA i j.
    apply edgelist2biadjacency_Ok in HA.
    destruct HA as (dat' & row' & col' & rmax & cmax & Hd' & _ & _ & Hcoo).
    rewrite Hd in Hd'. inversion Hd'; subst dat' row' col'.
    exact (coo_stored_None _ _ _ _ _ Hcoo i j).
Qed.

Lemma logical_or_comm (x y : scalar) : logical_or x y = logical_or y x.
Proof. unfold logical_or. now rewrite orb_comm. Qed.

Lemma C7_undirected_is_union_with_transpose_witness :
  shape triangle_undirected = shape triangle_adjacency
  /\ stored triangle_undirected 0 1 = Some (SBool true)
  /\ stored triangle_undirected 0 1 = stored triangle_undirected 1 0
  /\ (stored one_sided_biadjacency 1 0 = None
      <-> records_at 1 0 [0; 1] [1; 1] [SBool true; SBool true] = []).
Proof.
  destruct (C7_undirected_is_union_with_transpose stable logical_or)
    as (_ & H2 & _ & H4 & _).
  destruct (H2 triangle triangle_adjacency triangle_undirected eq_refl eq_refl)
    as (Hs & _ & H).
  assert (H0 : (0 < Z.to_nat (fst (shape triangle_adjacency)))%nat) by (simpl; lia).
  assert (H1 : (1 < Z.to_nat (fst (shape triangle_adjacency)))%nat) by (simpl; lia).
  destruct (H 0%nat 1%nat H0 H1) as (Hv & _ & Hc).
  split; [exact Hs|]. split; [exact Hv|]. split; [exact (Hc logical_or_comm)|].
  exact (H4 one_sided (mkvec Bool [SBool true; SBool true]) [0; 1] [1; 1]
            one_sided_biadjacency eq_refl eq_refl 1%nat 0).
Defined.

(** C8: in every matrix built by either conversion the column indices of
    every row are strictly ascending, a row stores no entry exactly when its
    two row pointers are equal, and that is the case of every row index that
    no edge of the input has. *)
Theorem C8_rows_ascending_empty_rows :
  forall (tie : tie_break) (combine : scalar -> scalar -> scalar)
         (el : list edge) (A : csr_matrix),
    (exists undirected, edgelist2adjacency tie combine el undirected = Ok A)
    \/ edgelist2biadjacency tie el = Ok A ->
    (forall i : nat, ascending (row_entries A i))
    /\ (forall i : nat, (i < Z.to_nat (fst (shape A)))%nat ->
          (row_entries A i = []
           <-> nth i (indptr A) 0 = nth (S i) (indptr A) 0))
    /\ (forall (dat : vector) (row col : list Z),
          decode el = Ok (dat, row, col) ->
          edgelist2adjacency tie combine el false = Ok A
          \/ edgelist2biadjacency tie el = Ok A ->
          forall i : nat, (i < Z.to_nat (fst (shape A)))%nat ->
            ~ In (Z.of_nat i) row ->
            nth i (indptr A) 0 = nth (S i) (indptr A) 0).
Proof.
  intros tie combine el A HA.
  assert (Hplain : forall dat row col sh A0,
             csr_matrix_coo tie dat row col sh = Ok A0 ->
             (forall i, ascending (row_entries A0 i))
             /\ (forall i, (i < Z.to_nat (fst (shape A0)))%nat ->
                   (row_entries A0 i = []
                    <-> nth i (indptr A0) 0 = nth (S i) (indptr A0) 0))).
  { intros dat row col sh A0 H0. split.
    - exact (coo_ascending dat row col sh A0 H0).
    - intros i Hi. pose proof (csr_matrix_coo_Ok _ _ _ _ _ H0) as [E _].
      rewrite E in Hi |- *. apply of_rows_empty_row.
      unfold canonical_rows. now rewrite length_map, length_seq. }
  split; [|split].
  - destruct HA as [[u HA]|HA].
    + apply edgelist2adjacency_Ok in HA.
      destruct HA as (dat & row & col & rmax & cmax & A0 & _ & _ & _ & H0 & ->).
      destruct u; [apply directed2undirected_ascending | now apply (Hplain _ _ _ _ _ H0)].
    + apply edgelist2biadjacency_Ok in HA.
      destruct HA as (dat & row & col & rmax & cmax & _ & _ & _ & H0).
      now apply (Hplain _ _ _ _ _ H0).
  - destruct HA as [[u HA]|HA].
    + apply edgelist2adjacency_Ok in HA.
      destruct HA as (dat & row & col & rmax & cmax & A0 & _ & _ & _ & H0 & ->).
      destruct u; [|now apply (Hplain _ _ _ _ _ H0)].
      intros i Hi. unfold directed2undirected in *. simpl in Hi.
      apply of_rows_empty_row. now rewrite length_map, length_seq.
    + apply edgelist2biadjacency_Ok in HA.
      destruct HA as (dat & row & col & rmax & cmax & _ & _ & _ & H0).
      now apply (Hplain _ _ _ _ _ H0).
  - intros dat row col Hd HA' i Hi Hin.
    destruct (plain_conversion_Ok combine el A HA')
      as (dat' & row' & col' & sh & Hd' & H0).
    rewrite Hd in Hd'. inversion Hd'; subst dat' row' col'.
    apply (proj2 (Hplain _ _ _ _ _ H0) i Hi).
    now apply (coo_row_nil dat row col sh A H0).
Qed.

Lemma C8_rows_ascending_empty_rows_witness :
  (forall i : nat,
      ascending (row_entries (mkcsr (2, 1) Bool [0; 0; 1] [0] [SBool true]) i))
  /\ (row_entries (mkcsr (2, 1) Bool [0; 0; 1] [0] [SBool true]) 0 = []
      <-> nth 0 [0; 0; 1] 0 = nth 1 [0; 0; 1] 0)
  /\ nth 0 [0; 0; 1] 0 = nth 1 [0; 0; 1] 0.
Proof.
  pose (H := C8_rows_ascending_empty_rows stable scalar_add [pair 1 0]
              (mkcsr (2, 1) Bool [0; 0; 1] [0] [SBool true])
              (or_intror eq_refl)).
  destruct H as (H1 & H2 & H3). split; [exact H1 | split].
  - apply (H2 0%nat). simpl. lia.
  - apply (H3 (mkvec Bool [SBool true]) [1] [0] eq_refl (or_intror eq_refl) 0%nat).
    + simpl. lia.
    + simpl. intros [H|[]]. discriminate H.
Defined.




(** C10: for an edge list of pairs the matrix keeps the boolean type, and at
    every coordinate that one or several records name it stores exactly one
    entry, equal to [true] (duplicates accumulate by logical or, not by
    counting); the pair [(0, 1)] given twice yields the single entry [true]. *)
Theorem C10_unweighted_duplicates_saturate :
  forall (tie : tie_break) (op : scalar -> scalar -> scalar),
    (forall (el : list edge) (dat : vector) (row col : list Z) (A : csr_matrix),
        Forall (fun e => length e = 2%nat) el ->
        decode el = Ok (dat, row, col) ->
        edgelist2adjacency tie op el false = Ok A
        \/ edgelist2biadjacency tie el = Ok A ->
        dtype A = Bool
        /\ forall (i : nat) (j : Z),
            records_at (Z.of_nat i) j row col (vdata dat) <> [] ->
            stored A i j = Some (SBool true)
            /\ length (filter (fun e => (fst e =? j)%Z) (row_entries A i)) = 1%nat)
    /\ scalar_add (SBool true) (SBool true) = SBool true
    /\ edgelist2adjacency tie op double_edge false = Ok double_edge_adjacency
    /\ edgelist2biadjacency tie double_edge = Ok double_edge_biadjacency.
Proof.
  intros tie op. split; [|repeat split; try no_tie_short tie].
  intros el dat row col A Hk Hd HA.
  destruct (plain_conversion_Ok op el A HA) as (dat' & row' & col' & sh & Hd' & Hcoo).
  rewrite Hd in Hd'. inversion Hd'; subst dat' row' col'.
  pose proof (decode_pairs el dat row col Hk Hd) as ->. split.
  - now rewrite (coo_dtype _ _ _ _ _ Hcoo).
  - intros i j Hrec.
    assert (Hst : stored A i j = Some (SBool true)).
    { destruct (coo_stored_perm _ _ _ _ _ Hcoo i j) as (vs & Hp & ->).
      assert (Hall : Forall (fun x => x = SBool true) vs).
      { apply (Permutation_Forall (Permutation_sym Hp)).
        apply records_at_all. simpl. apply Forall_forall. intros x Hx.
        apply in_map_iff in Hx. now destruct Hx as (_ & <- & _). }
      destruct vs as [|x t];
        [apply Permutation_nil in Hp; now rewrite Hp in Hrec|].
      inversion Hall as [|? ? Hx Ht]; subst. simpl. f_equal.
      apply (fold_add_all (fun x => x = SBool true)); auto.
      intros a b -> ->. reflexivity. }
    split; [exact Hst|].
    pose proof (ascending_single _ j (coo_ascending _ _ _ _ _ Hcoo i)) as Hle.
    apply lookup_Some_filter in Hst.
    destruct (filter (fun e => fst e =? j) (row_entries A i)) as [|e [|e' t]];
      simpl in *; [contradiction | reflexivity | lia].
Qed.

Lemma C10_unweighted_duplicates_saturate_witness :
  dtype double_edge_biadjacency = Bool
  /\ stored double_edge_biadjacency 0 1 = Some (SBool true)
  /\ length (filter (fun e => (fst e =? 1)%Z) (row_entries double_edge_biadjacency 0))
     = 1%nat.
Proof.
  assert (Hk : Forall (fun e : edge => length e = 2%nat) double_edge)
    by (repeat constructor).
  destruct (proj1 (C10_unweighted_duplicates_saturate stable scalar_add) double_edge
                  (mkvec Bool [SBool true; SBool true]) [0; 0] [1; 1]
                  double_edge_biadjacency Hk
                  eq_refl (or_intror eq_refl)) as [H1 H2].
  split; [exact H1|]. apply (H2 0%nat 1). discriminate.
Defined.

(** * Further properties of the conversions *)

(** ** Outcomes of the sparse constructor *)

Lemma check_cases (sh : Z * Z) (row col : list Z) :
  check sh row col = Ok tt \/ check sh row col = Raise ValueError.
Proof.
  destruct row as [|r row], col as [|c col]; try (now left). cbn.
  destruct (fst sh <=? fold_left Z.max row r); [now right|].
  destruct (snd sh <=? fold_left Z.max col c); [now right|].
  destruct (fold_left Z.min row r <? 0); [now right|].
  destruct (fold_left Z.min col c <? 0); [now right|]. now left.
Qed.

(** The three outcomes of the constructor on buffers of equal length: a
    matrix, [ValueError] when the shape is negative or an index lies outside
    it, [TypeError] for an object array with valid coordinates. *)
Lemma csr_matrix_coo_outcome (tie : tie_break) (dat : vector) (row col : list Z)
      (sh : Z * Z) :
  length row = length (vdata dat) -> length col = length (vdata dat) ->
  match csr_matrix_coo tie dat row col sh with
  | Ok A =>
      (0 <= fst sh /\ 0 <= snd sh
       /\ Forall (fun r => 0 <= r < fst sh) row
       /\ Forall (fun c => 0 <= c < snd sh) col)
      /\ vdtype dat <> Object
  | Raise ValueError =>
      ~ (0 <= fst sh /\ 0 <= snd sh
         /\ Forall (fun r => 0 <= r < fst sh) row
         /\ Forall (fun c => 0 <= c < snd sh) col)
  | Raise TypeError =>
      (0 <= fst sh /\ 0 <= snd sh
       /\ Forall (fun r => 0 <= r < fst sh) row
       /\ Forall (fun c => 0 <= c < snd sh) col)
      /\ vdtype dat = Object
  | Raise _ => False
  end.
Proof.
  intros L1 L2.
  destruct (csr_matrix_coo tie dat row col sh) as [A|e] eqn:H.
  - apply csr_matrix_coo_Ok in H. tauto.
  - unfold csr_matrix_coo in H.
    destruct (Z.ltb_spec (fst sh) 0);
      [inversion H; subst; intros (? & _); lia|].
    destruct (Z.ltb_spec (snd sh) 0);
      [inversion H; subst; intros (_ & ? & _); lia|].
    cbn [orb] in H. rewrite L1, L2, Nat.eqb_refl in H. cbn [andb negb] in H.
    destruct (check_cases sh row col) as [Hc|Hc]; rewrite Hc in H; cbn [bind] in H.
    + apply check_Ok in Hc; [|congruence].
      destruct (vdtype dat); try discriminate. inversion H; subst. tauto.
    + inversion H; subst. intros (_ & _ & Hr & Hcl).
      rewrite check_bounds in Hc by assumption. discriminate.
Qed.

(** A negative index is refused whatever the shape. *)
Lemma csr_matrix_coo_negative {tie : tie_break} (dat : vector)
      (row col : list Z) (sh : Z * Z) :
  length row = length (vdata dat) -> length col = length (vdata dat) ->
  Exists (fun z => z < 0) (row ++ col) ->
  csr_matrix_coo tie dat row col sh = Raise ValueError.
Proof.
  intros L1 L2 Hneg. pose proof (csr_matrix_coo_outcome tie dat row col sh L1 L2) as H.
  assert (Hbad : ~ (0 <= fst sh /\ 0 <= snd sh
                    /\ Forall (fun r => 0 <= r < fst sh) row
                    /\ Forall (fun c => 0 <= c < snd sh) col)).
  { intros (_ & _ & Hr & Hc). apply Exists_exists in Hneg.
    destruct Hneg as (z & Hz & Hlt). rewrite Forall_forall in Hr, Hc.
    apply in_app_iff in Hz. destruct Hz as [Hz|Hz];
      [specialize (Hr z Hz) | specialize (Hc z Hz)]; lia. }
  destruct (csr_matrix_coo tie dat row col sh) as [A|[]]; try tauto.
Qed.

(** With the shapes the conversions compute, the coordinates are valid
    exactly when no index is negative. *)
Lemma valid_shape (row col : list Z) (rmax cmax n_row n_col : Z) :
  is_max rmax row -> is_max cmax col ->
  rmax < n_row -> cmax < n_col ->
  (0 <= n_row /\ 0 <= n_col
   /\ Forall (fun r => 0 <= r < n_row) row
   /\ Forall (fun c => 0 <= c < n_col) col)
  <-> Forall (fun z => 0 <= z) (row ++ col).
Proof.
  intros [Ir Fr] [Ic Fc] Hr Hc. rewrite Forall_app. split.
  - intros (_ & _ & H1 & H2). split; eapply Forall_impl; try eassumption;
      simpl; intros; lia.
  - intros [H1 H2]. rewrite Forall_forall in H1, H2, Fr, Fc.
    pose proof (H1 _ Ir). pose proof (H2 _ Ic).
    split; [lia|]. split; [lia|]. split; apply Forall_forall; intros z Hz.
    + specialize (H1 z Hz). specialize (Fr z Hz). simpl in *. lia.
    + specialize (H2 z Hz). specialize (Fc z Hz). simpl in *. lia.
Qed.

Lemma wrap64_int32 (m : Z) :
  INT32_MIN <= m <= INT32_MAX -> wrap64 (m + 1) = m + 1.
Proof.
  intros H. apply wrap64_small. unfold INT32_MIN, INT32_MAX in H.
  change (2 ^ 31) with 2147483648 in H.
  change (2 ^ 63) with 9223372036854775808. lia.
Qed.

(** The setting of both conversions once decoding has succeeded. *)
Lemma decode_maxima (el : list edge) (dat : vector) (row col : list Z) :
  decode el = Ok (dat, row, col) ->
  exists rmax cmax,
    Np.max row = Ok rmax /\ Np.max col = Ok cmax
    /\ is_max rmax row /\ is_max cmax col
    /\ wrap64 (rmax + 1) = rmax + 1 /\ wrap64 (cmax + 1) = cmax + 1
    /\ wrap64 (Z.max rmax cmax + 1) = Z.max rmax cmax + 1
    /\ length row = length (vdata dat) /\ length col = length (vdata dat).
Proof.
  intros Hd. apply decode_Ok in Hd.
  destruct Hd as (Hne & _ & Lr & Lc & Ld & Rr & Rc).
  assert (Hr : row <> []) by (destruct row, el; simpl in *; congruence).
  assert (Hc : col <> []) by (destruct col, el; simpl in *; congruence).
  destruct (max_nonempty _ Hr) as [rmax Hrmax].
  destruct (max_nonempty _ Hc) as [cmax Hcmax].
  pose proof (max_is_max _ _ Hrmax) as Mr. pose proof (max_is_max _ _ Hcmax) as Mc.
  assert (Br : INT32_MIN <= rmax <= INT32_MAX)
    by (destruct Mr as [I _]; rewrite Forall_forall in Rr; auto).
  assert (Bc : INT32_MIN <= cmax <= INT32_MAX)
    by (destruct Mc as [I _]; rewrite Forall_forall in Rc; auto).
  exists rmax, cmax. repeat split; try assumption; try congruence;
    try (apply wrap64_int32; lia); try apply Mr; try apply Mc.
Qed.

(** ** Edge lists of 64-bit integers *)

Lemma nth_convert_int64 (e : edge) (j : nat) :
  (j < length e)%nat -> Forall (fun p => is_int64 p = true) e ->
  nth j (map (convert Int64) e) (SObj (PyInt 0))
  = SInt (index_of (nth j e (PyInt 0))).
Proof.
  intros Hj Hint.
  rewrite (nth_indep _ (SObj (PyInt 0)) (convert Int64 (PyInt 0)))
    by now rewrite length_map.
  rewrite map_nth.
  assert (Hp : is_int64 (nth j e (PyInt 0)) = true).
  { rewrite Forall_forall in Hint. apply Hint. now apply nth_In. }
  destruct (nth j e (PyInt 0)) as [z|f]; [|discriminate]. simpl.
  f_equal. apply wrap64_small. now apply in_int64_spec.
Qed.

Lemma concat_nonempty (el : list edge) (k : nat) :
  el <> [] -> Forall (fun e => length e = k) el -> (2 <= k)%nat ->
  concat el <> [].
Proof.
  intros Hne Hk H2. destruct el as [|e t]; [contradiction|].
  inversion Hk; subst. destruct e; simpl in *; [lia | discriminate].
Qed.

(** The buffers of an edge list of 64-bit integers: the indices reduced to 32
    bits, the third fields as they are (or the presence markers). *)
Lemma decode_int64 (el : list edge) (k : nat) :
  el <> [] -> Forall (fun e => length e = k) el -> (2 <= k)%nat ->
  Forall (Forall (fun p => is_int64 p = true)) el ->
  decode el
  = Ok (if (2 <? k)%nat
        then mkvec Int64 (map (fun e => SInt (index_of (nth 2 e (PyInt 0)))) el)
        else ones_like_bool (map (fun e => wrap32 (index_of (nth 0 e (PyInt 0)))) el),
        map (fun e => wrap32 (index_of (nth 0 e (PyInt 0)))) el,
        map (fun e => wrap32 (index_of (nth 1 e (PyInt 0)))) el).
Proof.
  intros Hne Hk H2 Hint.
  rewrite (decode_uniform el k Hne Hk H2).
  rewrite (result_type_int64 _ (concat_nonempty el k Hne Hk H2)
                             (concat_Forall _ _ Hint)).
  rewrite Forall_forall in Hk, Hint.
  rewrite (mapM_pure _ (fun e => wrap32 (index_of (nth 0 e (PyInt 0))))).
  2:{ intros e He. rewrite nth_convert_int64; auto. rewrite (Hk e He). lia. }
  cbn [bind].
  rewrite (mapM_pure _ (fun e => wrap32 (index_of (nth 1 e (PyInt 0))))).
  2:{ intros e He. rewrite nth_convert_int64; auto. rewrite (Hk e He). lia. }
  cbn [bind]. destruct (Nat.ltb_spec 2 k) as [H3|H3]; [|reflexivity].
  do 4 f_equal. apply map_ext_in. intros e He.
  apply nth_convert_int64; auto. rewrite (Hk e He). lia.
Qed.

(** ** Failures *)

Lemma row_entries_nnz (A : csr_matrix) (i : nat) :
  row_entries A i <> [] -> (1 <= nnz A)%nat.
Proof.
  unfold row_entries, nnz. intros H.
  destruct (data A) as [|x t]; [|simpl; lia].
  exfalso. apply H. rewrite combine_nil. rewrite skipn_nil. apply firstn_nil.
Qed.

Lemma records_at_head (r c : Z) (row col : list Z) (x : scalar) (dat : list scalar) :
  records_at r c (r :: row) (c :: col) (x :: dat) <> [].
Proof. simpl. now rewrite !Z.eqb_refl. Qed.

(** X1: a matrix is returned only for a non-empty edge list whose records
    have one common length of at least two fields, and it has at least one
    row and one column.  The matrix built from the records themselves, by
    [edgelist2biadjacency] or by [edgelist2adjacency] without
    symmetrization, has at least one stored entry. *)
Theorem X1_matrix_only_for_uniform_records :
  forall (tie : tie_break) (op : scalar -> scalar -> scalar) (el : list edge)
         (undirected : bool) (A : csr_matrix),
    (edgelist2adjacency tie op el undirected = Ok A
     \/ edgelist2biadjacency tie el = Ok A ->
     el <> []
     /\ (exists k, (2 <= k)%nat /\ Forall (fun e => length e = k) el)
     /\ 1 <= fst (shape A) /\ 1 <= snd (shape A))
    /\ (edgelist2adjacency tie op el false = Ok A
        \/ edgelist2biadjacency tie el = Ok A ->
        (1 <= nnz A)%nat).
Proof.
  intros tie op el undirected A.
  assert (Hfirst : forall (dat : vector) (row col : list Z) (sh : Z * Z)
                          (A0 : csr_matrix),
             decode el = Ok (dat, row, col) ->
             csr_matrix_coo tie dat row col sh = Ok A0 ->
             exists r c : Z,
               0 <= r < fst (shape A0) /\ 0 <= c < snd (shape A0)
               /\ stored A0 (Z.to_nat r) c <> None).
  { intros dat row col sh A0 Hd Hcoo.
    pose proof (decode_Ok el dat row col Hd) as (Hne & _ & Lr & Lc & Ld & _ & _).
    pose proof (csr_matrix_coo_Ok _ _ _ _ _ Hcoo) as (_ & _ & _ & _ & _ & _ & Br & Bc).
    pose proof (coo_shape _ _ _ _ _ Hcoo) as Hsh.
    destruct row as [|r row]; [destruct el; [contradiction | discriminate]|].
    destruct col as [|c col]; [destruct el; [contradiction | discriminate]|].
    destruct (vdata dat) as [|x xs] eqn:Hx;
      [destruct el; [contradiction | discriminate]|].
    assert (Hr : 0 <= r < fst sh) by (now inversion Br).
    assert (Hc : 0 <= c < snd sh) by (now inversion Bc).
    exists r, c. rewrite Hsh. split; [exact Hr|]. split; [exact Hc|].
    rewrite (coo_stored_None _ _ _ _ _ Hcoo), Z2Nat.id, Hx by lia.
    apply records_at_head. }
  split.
  - intros HA.
    assert (H0 : exists dat row col sh A0,
               decode el = Ok (dat, row, col)
               /\ csr_matrix_coo tie dat row col sh = Ok A0
               /\ shape A = shape A0).
    { destruct HA as [HA|HA].
      - apply edgelist2adjacency_Ok in HA.
        destruct HA as (dat & row & col & rmax & cmax & A0 & Hd & _ & _ & H0 & ->).
        exists dat, row, col. do 2 eexists. split; [exact Hd|]. split; [exact H0|].
        destruct undirected; reflexivity.
      - apply edgelist2biadjacency_Ok in HA.
        destruct HA as (dat & row & col & rmax & cmax & Hd & _ & _ & H0).
        exists dat, row, col. do 2 eexists. split; [exact Hd|]. split; [exact H0|].
        reflexivity. }
    destruct H0 as (dat & row & col & sh & A0 & Hd & Hcoo & Hshape).
    pose proof (decode_Ok el dat row col Hd) as (Hne & Hk & _).
    split; [exact Hne|]. split; [exact Hk|].
    destruct (Hfirst dat row col sh A0 Hd Hcoo) as (r & c & Hr & Hc & _).
    rewrite Hshape. lia.
  - intros HA.
    destruct (plain_conversion_Ok op el A HA) as (dat & row & col & sh & Hd & Hcoo).
    destruct (Hfirst dat row col sh A Hd Hcoo) as (r & c & _ & _ & Hst).
    apply (row_entries_nnz A (Z.to_nat r)). intros Hnil. apply Hst.
    unfold stored. now rewrite Hnil.
Qed.

Lemma X1_matrix_only_for_uniform_records_witness :
  (triangle <> []
   /\ (exists k, (2 <= k)%nat /\ Forall (fun e : edge => length e = k) triangle)
   /\ 1 <= fst (shape triangle_adjacency) /\ 1 <= snd (shape triangle_adjacency))
  /\ (1 <= nnz triangle_adjacency)%nat.
Proof.
  destruct (X1_matrix_only_for_uniform_records stable scalar_add triangle false
              triangle_adjacency) as [H1 H2].
  split; [exact (H1 (or_introl eq_refl)) | exact (H2 (or_introl eq_refl))].
Defined.

(** X2: a negative index is never accepted.  Whenever decoding yields a
    negative row or column index both conversions raise [ValueError]; in
    particular on every edge list of 64-bit integers, with records of one
    length of at least two fields, in which some index lies in
    [[-2^31, -1]]. *)
Theorem X2_negative_index_raises_ValueError :
  forall (tie : tie_break) (op : scalar -> scalar -> scalar) (el : list edge)
         (undirected : bool),
    (forall (dat : vector) (row col : list Z),
        decode el = Ok (dat, row, col) ->
        Exists (fun z => z < 0) (row ++ col) ->
        edgelist2adjacency tie op el undirected = Raise ValueError
        /\ edgelist2biadjacency tie el = Raise ValueError)
    /\ (forall k : nat,
          (2 <= k)%nat -> Forall (fun e => length e = k) el ->
          Forall (Forall (fun p => is_int64 p = true)) el ->
          Exists (fun e => INT32_MIN <= index_of (nth 0 e (PyInt 0)) < 0
                           \/ INT32_MIN <= index_of (nth 1 e (PyInt 0)) < 0) el ->
          edgelist2adjacency tie op el undirected = Raise ValueError
          /\ edgelist2biadjacency tie el = Raise ValueError).
Proof.
  intros tie op el undirected.
  assert (Hgen : forall (dat : vector) (row col : list Z),
             decode el = Ok (dat, row, col) ->
             Exists (fun z => z < 0) (row ++ col) ->
             edgelist2adjacency tie op el undirected = Raise ValueError
             /\ edgelist2biadjacency tie el = Raise ValueError).
  { intros dat row col Hd Hneg.
    destruct (decode_maxima el dat row col Hd)
      as (rmax & cmax & Hr & Hc & _ & _ & _ & _ & _ & L1 & L2).
    rewrite edgelist2adjacency_decode, edgelist2biadjacency_decode, Hd.
    cbn [bind]. rewrite Hr, Hc. cbn [bind].
    rewrite !csr_matrix_coo_negative by assumption. split; reflexivity. }
  split; [exact Hgen|].
  intros k H2 Hk Hint Hex.
  assert (Hne : el <> []) by (intros ->; inversion Hex).
  pose proof (decode_int64 el k Hne Hk H2 Hint) as Hd.
  apply (Hgen _ _ _ Hd). apply Exists_exists in Hex.
  destruct Hex as (e & He & [Hz|Hz]); apply Exists_app; [left | right];
    apply Exists_exists;
    [exists (wrap32 (index_of (nth 0 e (PyInt 0))))
    |exists (wrap32 (index_of (nth 1 e (PyInt 0))))];
    (split; [apply in_map_iff; eauto|]);
    rewrite wrap32_small; unfold INT32_MIN, INT32_MAX in *;
      change (2 ^ 31) with 2147483648 in *; lia.
Qed.

Lemma X2_negative_index_raises_ValueError_witness :
  edgelist2adjacency stable scalar_add [pair 0 (-1)] false = Raise ValueError
  /\ edgelist2biadjacency stable [pair 0 (-1)] = Raise ValueError.
Proof.
  apply (proj2 (X2_negative_index_raises_ValueError stable scalar_add [pair 0 (-1)] false)
               2%nat).
  - lia.
  - repeat constructor.
  - repeat constructor.
  - apply Exists_cons_hd. right. unfold INT32_MIN. simpl. lia.
Defined.

(** X3: the two conversions fail on the same edge lists and with the same
    exception: [edgelist2adjacency], for either value of [undirected], raises
    [e] exactly when [edgelist2biadjacency] raises [e]. *)
Theorem X3_conversions_fail_alike :
  forall (tie : tie_break) (op : scalar -> scalar -> scalar) (el : list edge)
         (undirected : bool) (e : exn),
    edgelist2adjacency tie op el undirected = Raise e
    <-> edgelist2biadjacency tie el = Raise e.
Proof.
  intros tie op el undirected e.
  rewrite edgelist2adjacency_decode, edgelist2biadjacency_decode.
  destruct (decode el) as [[[dat row] col]|e0] eqn:Hd; [|reflexivity].
  destruct (decode_maxima el dat row col Hd)
    as (rmax & cmax & Hr & Hc & Mr & Mc & Wr & Wc & Wm & L1 & L2).
  cbn [bind]. rewrite Hr, Hc. cbn [bind]. rewrite Wr, Wc, Wm.
  pose proof (csr_matrix_coo_outcome tie dat row col
                (Z.max rmax cmax + 1, Z.max rmax cmax + 1) L1 L2) as Ha.
  pose proof (csr_matrix_coo_outcome tie dat row col (rmax + 1, cmax + 1) L1 L2) as Hb.
  cbn [fst snd] in Ha, Hb.
  assert (Va := valid_shape row col rmax cmax (Z.max rmax cmax + 1)
                            (Z.max rmax cmax + 1) Mr Mc ltac:(lia) ltac:(lia)).
  assert (Vb := valid_shape row col rmax cmax (rmax + 1) (cmax + 1) Mr Mc
                            ltac:(lia) ltac:(lia)).
  destruct (csr_matrix_coo tie dat row col (Z.max rmax cmax + 1, Z.max rmax cmax + 1))
    as [A|ea];
    destruct (csr_matrix_coo tie dat row col (rmax + 1, cmax + 1)) as [B|eb];
    cbn [bind].
  - destruct undirected; split; discriminate.
  - exfalso. destruct eb; try contradiction; tauto.
  - exfalso. destruct ea; try contradiction; tauto.
  - destruct ea, eb; try contradiction; try reflexivity; exfalso; tauto.
Qed.

(** ** Adjacency against biadjacency *)

Lemma concat_map_nil {A B : Type} (f : A -> list B) (l : list A) :
  (forall a, In a l -> f a = []) -> concat (map f l) = [].
Proof.
  induction l as [|a t IH]; simpl; intros H; [reflexivity|].
  rewrite (H a) by auto. simpl. apply IH. auto.
Qed.

(** Rows beyond the greatest row index are empty: they add nothing to the
    index and value arrays. *)
Lemma canonical_rows_concat {order : row_order} (M M' : Z) (row col : list Z)
      (dat : list scalar) :
  Forall (fun r => 0 <= r < M) row -> M <= M' ->
  concat (canonical_rows order M' row col dat)
  = concat (canonical_rows order M row col dat).
Proof.
  intros Hr Hle. unfold canonical_rows.
  destruct (Z.le_gt_cases 0 M) as [HM|HM].
  - replace (Z.to_nat M') with (Z.to_nat M + (Z.to_nat M' - Z.to_nat M))%nat by lia.
    rewrite seq_app, map_app, concat_app.
    rewrite (concat_map_nil _ (seq (0 + Z.to_nat M) _)); [apply app_nil_r|].
    intros i Hi. apply in_seq in Hi. rewrite bucket_nil; [reflexivity|].
    intros Hin. rewrite Forall_forall in Hr. apply Hr in Hin. lia.
  - replace (Z.to_nat M) with 0%nat by lia. simpl.
    apply concat_map_nil. intros i Hi. rewrite bucket_nil; [reflexivity|].
    intros Hin. rewrite Forall_forall in Hr. apply Hr in Hin. lia.
Qed.

(** X4: on one edge list the two conversions build the same entries.  When
    both return, the adjacency matrix is the biadjacency matrix padded to a
    square whose side is the larger of its two dimensions: same element type,
    same column-index and value arrays, the same value stored at every
    position. *)
Theorem X4_adjacency_is_padded_biadjacency :
  forall (tie : tie_break) (op : scalar -> scalar -> scalar) (el : list edge)
         (A B : csr_matrix),
    edgelist2adjacency tie op el false = Ok A ->
    edgelist2biadjacency tie el = Ok B ->
    shape A = (Z.max (fst (shape B)) (snd (shape B)),
               Z.max (fst (shape B)) (snd (shape B)))
    /\ dtype A = dtype B
    /\ indices A = indices B
    /\ data A = data B
    /\ forall (i : nat) (j : Z), stored A i j = stored B i j.
Proof.
  intros tie op el A B HA HB.
  apply edgelist2adjacency_Ok in HA.
  destruct HA as (dat & row & col & rmax & cmax & A0 & Hd & Hr & Hc & HA & ->).
  apply edgelist2biadjacency_Ok in HB.
  destruct HB as (dat' & row' & col' & rmax' & cmax' & Hd' & Hr' & Hc' & HB).
  rewrite Hd in Hd'. inversion Hd'; subst dat' row' col'; clear Hd'.
  rewrite Hr in Hr'. rewrite Hc in Hc'. inversion Hr'; inversion Hc'; subst rmax' cmax'.
  destruct (decode_maxima el dat row col Hd)
    as (r0 & c0 & Hr0 & Hc0 & _ & _ & Wr & Wc & Wm & _ & _).
  rewrite Hr in Hr0. rewrite Hc in Hc0. inversion Hr0; inversion Hc0; subst r0 c0.
  rewrite Wm in HA. rewrite Wr, Wc in HB.
  pose proof (coo_shape _ _ _ _ _ HA) as SA. pose proof (coo_shape _ _ _ _ _ HB) as SB.
  split; [rewrite SA, SB; cbn [fst snd]; f_equal; lia|].
  split; [now rewrite (coo_dtype _ _ _ _ _ HA), (coo_dtype _ _ _ _ _ HB)|].
  assert (Hstored : forall (i : nat) (j : Z), stored A0 i j = stored B i j).
  { intros i j. unfold stored.
    now rewrite (coo_row_entries _ _ _ _ _ HA), (coo_row_entries _ _ _ _ _ HB). }
  pose proof (csr_matrix_coo_Ok _ _ _ _ _ HA) as (EA & _).
  pose proof (csr_matrix_coo_Ok _ _ _ _ _ HB) as (EB & _ & _ & _ & _ & _ & Br & _).
  cbn [fst snd] in EA, EB, Br.
  assert (Hcat : concat (canonical_rows (tie row col (vdata dat))
                                        (Z.max rmax cmax + 1) row col (vdata dat))
                 = concat (canonical_rows (tie row col (vdata dat))
                                          (rmax + 1) row col (vdata dat)))
    by (apply canonical_rows_concat; [exact Br | lia]).
  split; [rewrite EA, EB; unfold of_rows; cbn [indices]; now rewrite Hcat|].
  split; [rewrite EA, EB; unfold of_rows; cbn [data]; now rewrite Hcat|].
  exact Hstored.
Qed.

Lemma X4_adjacency_is_padded_biadjacency_witness :
  shape two_edges_adjacency
  = (Z.max (fst (shape two_edges_biadjacency)) (snd (shape two_edges_biadjacency)),
     Z.max (fst (shape two_edges_biadjacency)) (snd (shape two_edges_biadjacency)))
  /\ dtype two_edges_adjacency = dtype two_edges_biadjacency
  /\ indices two_edges_adjacency = indices two_edges_biadjacency
  /\ data two_edges_adjacency = data two_edges_biadjacency
  /\ forall (i : nat) (j : Z),
      stored two_edges_adjacency i j = stored two_edges_biadjacency i j.
Proof.
  exact (X4_adjacency_is_padded_biadjacency stable scalar_add two_edges
           two_edges_adjacency two_edges_biadjacency eq_refl eq_refl).
Defined.

(** ** The layout of the returned matrix *)

Lemma indptr_from_length (acc : Z) (rows : list (list entry)) :
  length (indptr_from acc rows) = S (length rows).
Proof.
  revert acc; induction rows as [|r rs IH]; simpl; intros acc; [reflexivity|].
  now rewrite IH.
Qed.

Lemma indptr_from_last (rows : list (list entry)) :
  forall acc : Z,
    nth (length rows) (indptr_from acc rows) 0
    = acc + Z.of_nat (length (concat rows)).
Proof.
  induction rows as [|r rs IH]; intros acc.
  - simpl. lia.
  - change (nth (length (r :: rs)) (indptr_from acc (r :: rs)) 0)
      with (nth (length rs) (indptr_from (acc + Z.of_nat (length r)) rs) 0).
    rewrite IH. simpl. rewrite length_app. lia.
Qed.

Lemma of_rows_well_formed (sh : Z * Z) (dt : Np.dtype) (rows : list (list entry)) :
  0 <= fst sh -> 0 <= snd sh ->
  length rows = Z.to_nat (fst sh) ->
  Forall (fun r => Forall (fun c => 0 <= c < snd sh) (map fst r)) rows ->
  well_formed_csr (of_rows sh dt rows).
Proof.
  intros H1 H2 Hlen Hkeys. unfold well_formed_csr, nnz, of_rows.
  cbn [shape indptr indices data].
  split; [exact H1|]. split; [exact H2|].
  split; [now rewrite indptr_from_length, Hlen|].
  split; [apply indptr_from_head|].
  split.
  { intros i Hi. rewrite (indptr_of_rows sh dt rows 0 i) by lia. lia. }
  split.
  { rewrite <- Hlen, indptr_from_last. now rewrite length_map. }
  split; [now rewrite !length_map|].
  clear Hlen.
  induction Hkeys as [|r rs Hr _ IH]; simpl; [constructor|].
  rewrite map_app. apply Forall_app. split; assumption.
Qed.

Lemma bucket_keys (i c : Z) (row col : list Z) (dat : list scalar) :
  In c (map fst (bucket i row col dat)) -> In (i, c) (combine row col).
Proof.
  revert col dat; induction row as [|r row IH]; intros [|c' col] [|x dat];
    simpl; try contradiction.
  destruct (Z.eqb_spec r i) as [->|_]; simpl.
  - intros [->|H]; [now left | right; eauto].
  - intros H. right; eauto.
Qed.

Lemma sum_duplicates_keys (l : list entry) (c : Z) :
  StronglySorted Z.le (map fst l) ->
  In c (map fst (sum_duplicates l)) -> In c (map fst l).
Proof.
  destruct l as [|[j x] t]; simpl; intros H; [auto|].
  destruct (sum_run_spec t j x H) as (y & rest & E & _ & _ & _ & Hin).
  rewrite E. simpl. intros [Hc|Hc]; auto.
Qed.

Lemma canonical_row_keys {order : row_order} (i c : Z) (row col : list Z)
      (dat : list scalar) :
  In c (map fst (sum_duplicates (sort_indices order (bucket i row col dat)))) ->
  In (i, c) (combine row col).
Proof.
  intros H. apply sum_duplicates_keys in H; [|apply sort_indices_sorted].
  apply (proj1 (sort_indices_keys _ _)) in H. now apply bucket_keys in H.
Qed.

Lemma coo_well_formed {tie : tie_break} (dat : vector) (row col : list Z) (sh : Z * Z)
      (A : csr_matrix) :
  csr_matrix_coo tie dat row col sh = Ok A -> well_formed_csr A.
Proof.
  intros H. apply csr_matrix_coo_Ok in H.
  destruct H as (-> & _ & _ & _ & H1 & H2 & _ & Hc).
  apply of_rows_well_formed; auto.
  - unfold canonical_rows. now rewrite length_map, length_seq.
  - unfold canonical_rows. apply Forall_forall. intros r Hr.
    apply in_map_iff in Hr. destruct Hr as (i & <- & _).
    apply Forall_forall. intros c Hin. apply canonical_row_keys in Hin.
    apply in_combine_r in Hin. rewrite Forall_forall in Hc. auto.
Qed.

Lemma directed2undirected_well_formed (op : scalar -> scalar -> scalar)
      (A : csr_matrix) :
  well_formed_csr A -> well_formed_csr (directed2undirected op A).
Proof.
  intros (H1 & H2 & _). unfold directed2undirected.
  apply of_rows_well_formed; auto.
  - now rewrite length_map, length_seq.
  - apply Forall_forall. intros r Hr.
    apply in_map_iff in Hr. destruct Hr as (i & <- & _).
    apply Forall_forall. intros c Hin. rewrite union_row_cells in Hin.
    apply union_cells_keys in Hin. lia.
Qed.

(** X5: every matrix returned by [edgelist2adjacency] (for either value of
    [undirected]) or by [edgelist2biadjacency] is laid out as a compressed
    sparse row matrix: one row pointer more than rows, starting at 0, never
    decreasing, ending at the number of stored entries; as many column
    indices as values, and every column index inside the shape. *)
Theorem X5_returned_matrix_is_well_formed :
  forall (tie : tie_break) (op : scalar -> scalar -> scalar) (el : list edge)
         (undirected : bool) (A : csr_matrix),
    edgelist2adjacency tie op el undirected = Ok A
    \/ edgelist2biadjacency tie el = Ok A ->
    well_formed_csr A.
Proof.
  intros tie op el undirected A [HA|HA].
  - apply edgelist2adjacency_Ok in HA.
    destruct HA as (dat & row & col & rmax & cmax & A0 & _ & _ & _ & H0 & ->).
    apply coo_well_formed in H0.
    destruct undirected; [now apply directed2undirected_well_formed | exact H0].
  - apply edgelist2biadjacency_Ok in HA.
    destruct HA as (dat & row & col & rmax & cmax & _ & _ & _ & H0).
    now apply coo_well_formed in H0.
Qed.

Lemma X5_returned_matrix_is_well_formed_witness :
  well_formed_csr bipartite_biadjacency.
Proof.
  exact (X5_returned_matrix_is_well_formed stable scalar_add bipartite false
           bipartite_biadjacency (or_intror eq_refl)).
Defined.

(** ** Counting the stored entries *)

Lemma sum_run_length (l : list entry) (j : Z) (x : scalar) :
  (length (sum_run j x l) <= S (length l))%nat.
Proof.
  revert j x; induction l as [|[j' x'] t IH]; simpl; intros j x; [lia|].
  destruct (j' =? j); simpl.
  - specialize (IH j (scalar_add x x')). lia.
  - specialize (IH j' x'). lia.
Qed.

Lemma sum_duplicates_length (l : list entry) :
  (length (sum_duplicates l) <= length l)%nat.
Proof. destruct l as [|[j x] t]; simpl; [lia | apply sum_run_length]. Qed.

(** Without duplicates nothing is merged. *)
Lemma sum_run_ascending (l : list entry) (j : Z) (x : scalar) :
  StronglySorted Z.lt (j :: map fst l) -> sum_run j x l = (j, x) :: l.
Proof.
  revert j x; induction l as [|[j' x'] t IH]; simpl; intros j x H; [reflexivity|].
  inversion H as [|? ? Ht Hj]; subst. inversion Hj as [|? ? Hlt _]; subst.
  destruct (Z.eqb_spec j' j); [lia|]. f_equal. now apply IH.
Qed.

Lemma sum_duplicates_ascending (l : list entry) :
  ascending l -> sum_duplicates l = l.
Proof.
  destruct l as [|[j x] t]; [reflexivity|]. unfold ascending; simpl.
  apply sum_run_ascending.
Qed.

Lemma sorted_nodup_ascending (l : list Z) :
  StronglySorted Z.le l -> NoDup l -> StronglySorted Z.lt l.
Proof.
  induction 1 as [|a t Ht IH Ha]; intros Hn; [constructor|].
  inversion Hn as [|? ? Hnot Hn']; subst. constructor; [auto|].
  rewrite Forall_forall in *. intros y Hy. specialize (Ha y Hy).
  assert (y <> a) by (intros ->; contradiction). lia.
Qed.

Lemma bucket_nodup (i : Z) (row col : list Z) (dat : list scalar) :
  NoDup (combine row col) -> NoDup (map fst (bucket i row col dat)).
Proof.
  revert col dat; induction row as [|r row IH]; intros [|c col] [|x dat] H;
    simpl; try constructor.
  simpl in H. inversion H as [|? ? Hnot Hn]; subst.
  destruct (Z.eqb_spec r i) as [->|_]; simpl; [|auto].
  constructor; [|auto]. intros Hin. apply Hnot. now apply bucket_keys in Hin.
Qed.

Lemma canonical_row_length {order : row_order} (i : Z) (row col : list Z)
      (dat : list scalar) :
  (length (sum_duplicates (sort_indices order (bucket i row col dat)))
   <= length (bucket i row col dat))%nat
  /\ (NoDup (combine row col) ->
      length (sum_duplicates (sort_indices order (bucket i row col dat)))
      = length (bucket i row col dat)).
Proof.
  pose proof (sort_indices_perm (order:=order) (bucket i row col dat)) as Hp.
  pose proof (Permutation_length Hp) as Hl. split.
  - pose proof (sum_duplicates_length (sort_indices order (bucket i row col dat))). lia.
  - intros Hn. rewrite sum_duplicates_ascending; [exact Hl|].
    apply sorted_nodup_ascending; [apply sort_indices_sorted|].
    apply (Permutation_NoDup (l := map fst (bucket i row col dat)));
      [apply Permutation_map; now symmetry | now apply bucket_nodup].
Qed.

Lemma concat_length_le {A B : Type} (f g : A -> list B) (l : list A) :
  (forall a, In a l -> (length (f a) <= length (g a))%nat) ->
  (length (concat (map f l)) <= length (concat (map g l)))%nat.
Proof.
  induction l as [|a t IH]; simpl; intros H; [lia|].
  rewrite !length_app. specialize (H a (or_introl eq_refl)) as Ha.
  assert (Ht : (length (concat (map f t)) <= length (concat (map g t)))%nat)
    by (apply IH; auto).
  lia.
Qed.

Lemma concat_length_eq {A B : Type} (f g : A -> list B) (l : list A) :
  (forall a, In a l -> length (f a) = length (g a)) ->
  length (concat (map f l)) = length (concat (map g l)).
Proof.
  induction l as [|a t IH]; simpl; intros H; [reflexivity|].
  rewrite !length_app, (H a) by auto. rewrite IH by auto. reflexivity.
Qed.

(** One more entry in bucket [k] is one more entry in all. *)
Lemma buckets_bump (f g : nat -> list entry) (k : nat) (e : entry) :
  (forall i, g i = if Nat.eqb i k then e :: f i else f i) ->
  forall n s : nat,
    length (concat (map g (seq s n)))
    = (length (concat (map f (seq s n)))
       + if (s <=? k)%nat && (k <? s + n)%nat then 1 else 0)%nat.
Proof.
  intros Hg. induction n as [|n IH]; intros s; simpl.
  - destruct (Nat.leb_spec s k), (Nat.ltb_spec k (s + 0)); simpl; lia.
  - rewrite !length_app, IH, Hg.
    destruct (Nat.eqb_spec s k) as [E|Hne],
             (Nat.leb_spec (S s) k), (Nat.leb_spec s k),
             (Nat.ltb_spec k (S s + n)), (Nat.ltb_spec k (s + S n));
      simpl; lia.
Qed.

(** Every triplet falls in the bucket of its row. *)
Lemma buckets_total (M : Z) (row col : list Z) (dat : list scalar) :
  Forall (fun r => 0 <= r < M) row ->
  length col = length row -> length dat = length row ->
  length (concat (map (fun i => bucket (Z.of_nat i) row col dat)
                      (seq 0 (Z.to_nat M))))
  = length row.
Proof.
  revert col dat; induction row as [|r row IH]; intros col dat Hr Lc Ld.
  - simpl. rewrite concat_map_nil; [reflexivity|]. intros i _. now destruct col, dat.
  - destruct col as [|c col]; [discriminate|]. destruct dat as [|x dat]; [discriminate|].
    inversion Hr as [|? ? Hr0 Hr']; subst. simpl in Lc, Ld.
    rewrite (buckets_bump (fun i => bucket (Z.of_nat i) row col dat)
                          (fun i => bucket (Z.of_nat i) (r :: row) (c :: col) (x :: dat))
                          (Z.to_nat r) (c, x)).
    + rewrite IH by (auto; lia).
      replace ((0 <=? Z.to_nat r)%nat && (Z.to_nat r <? 0 + Z.to_nat M)%nat) with true.
      * simpl. lia.
      * symmetry. apply andb_true_iff. split;
          [apply Nat.leb_le | apply Nat.ltb_lt]; lia.
    + intros i. simpl.
      destruct (Z.eqb_spec r (Z.of_nat i)), (Nat.eqb_spec i (Z.to_nat r));
        try reflexivity; lia.
Qed.

(** A merge shortens the row. *)
Lemma sum_run_full (l : list entry) :
  forall (j : Z) (x : scalar),
    StronglySorted Z.le (j :: map fst l) ->
    length (sum_run j x l) = S (length l) ->
    StronglySorted Z.lt (j :: map fst l).
Proof.
  induction l as [|[j' x'] t IH]; intros j x Hs Hlen; simpl in *.
  - repeat constructor.
  - inversion Hs as [|? ? Ht Hj]; subst. inversion Hj as [|? ? Hle Hjt]; subst.
    destruct (Z.eqb_spec j' j) as [->|Hne].
    + pose proof (sum_run_length t j (scalar_add x x')). lia.
    + simpl in Hlen. assert (Hlt : j < j') by lia.
      specialize (IH j' x' Ht ltac:(lia)).
      constructor; [exact IH|]. constructor; [exact Hlt|].
      inversion IH as [|? ? _ Hall]; subst.
      eapply Forall_impl; [|exact Hall]. simpl; intros; lia.
Qed.

Lemma sum_duplicates_full (l : list entry) :
  StronglySorted Z.le (map fst l) ->
  length (sum_duplicates l) = length l -> ascending l.
Proof.
  destruct l as [|[j x] t]; simpl; intros Hs Hlen; [constructor|].
  unfold ascending. simpl. now apply (sum_run_full t j x).
Qed.

Lemma ascending_NoDup (l : list Z) : StronglySorted Z.lt l -> NoDup l.
Proof.
  induction 1 as [|a t Ht IH Ha]; constructor; [|exact IH].
  intros Hin. rewrite Forall_forall in Ha. specialize (Ha a Hin). lia.
Qed.

Lemma canonical_row_full {order : row_order} (i : Z) (row col : list Z)
      (dat : list scalar) :
  length (sum_duplicates (sort_indices order (bucket i row col dat)))
  = length (bucket i row col dat) ->
  NoDup (map fst (bucket i row col dat)).
Proof.
  intros Hlen.
  pose proof (sort_indices_perm (order:=order) (bucket i row col dat)) as Hp.
  rewrite <- (Permutation_length Hp) in Hlen.
  apply sum_duplicates_full in Hlen; [|apply sort_indices_sorted].
  apply ascending_NoDup in Hlen.
  apply (Permutation_NoDup (l := map fst (sort_indices order (bucket i row col dat))));
    [now apply Permutation_map | exact Hlen].
Qed.

Lemma concat_length_tight {A B : Type} (f g : A -> list B) (l : list A) :
  (forall a, In a l -> (length (f a) <= length (g a))%nat) ->
  length (concat (map f l)) = length (concat (map g l)) ->
  forall a, In a l -> length (f a) = length (g a).
Proof.
  induction l as [|b t IH]; simpl; intros Hle Hlen a Ha; [contradiction|].
  rewrite !length_app in Hlen.
  pose proof (Hle b (or_introl eq_refl)) as Hb.
  pose proof (concat_length_le f g t (fun a0 H0 => Hle a0 (or_intror H0))) as Ht.
  destruct Ha as [->|Ha]; [lia|]. apply IH; auto. lia.
Qed.

Lemma bucket_keys_In (i c : Z) (row col : list Z) (dat : list scalar) :
  length col = length row -> length dat = length row ->
  In (i, c) (combine row col) -> In c (map fst (bucket i row col dat)).
Proof.
  revert col dat; induction row as [|r row IH]; intros [|c' col] [|x dat] L1 L2 H;
    simpl in *; try discriminate; try contradiction.
  destruct H as [H|H].
  - inversion H; subst. rewrite Z.eqb_refl. now left.
  - destruct (r =? i); [right|]; apply IH; auto; lia.
Qed.

Lemma buckets_nodup (row col : list Z) (dat : list scalar) :
  length col = length row -> length dat = length row ->
  (forall i : Z, NoDup (map fst (bucket i row col dat))) ->
  NoDup (combine row col).
Proof.
  revert col dat; induction row as [|r row IH]; intros [|c col] [|x dat] L1 L2 H;
    simpl in *; try discriminate; try constructor.
  - intros Hin. specialize (H r). rewrite Z.eqb_refl in H. simpl in H.
    inversion H as [|? ? Hnot _]; subst. apply Hnot.
    apply bucket_keys_In; auto; lia.
  - apply (IH col dat); try lia. intros i. specialize (H i).
    destruct (r =? i); [now inversion H | exact H].
Qed.

(** X6: a matrix never stores more entries than the edge list has records,
    and it stores exactly as many if and only if no two records name the same
    coordinate. *)
Theorem X6_stored_entries_count_the_edges :
  forall (tie : tie_break) (op : scalar -> scalar -> scalar) (el : list edge)
         (dat : vector) (row col : list Z) (A : csr_matrix),
    decode el = Ok (dat, row, col) ->
    edgelist2adjacency tie op el false = Ok A
    \/ edgelist2biadjacency tie el = Ok A ->
    (nnz A <= length el)%nat
    /\ (nnz A = length el <-> NoDup (combine row col)).
Proof.
  intros tie op el dat row col A Hd HA.
  destruct (plain_conversion_Ok op el A HA) as (dat' & row' & col' & sh & Hd' & Hcoo).
  rewrite Hd in Hd'. inversion Hd'; subst dat' row' col'; clear Hd'.
  pose proof (decode_Ok el dat row col Hd) as (_ & _ & Lr & Lc & Ld & _ & _).
  pose proof (csr_matrix_coo_Ok _ _ _ _ _ Hcoo) as (-> & _ & _ & _ & _ & _ & Br & _).
  unfold nnz, of_rows; cbn [data]. rewrite length_map. unfold canonical_rows.
  rewrite <- Lr.
  rewrite <- (buckets_total (fst sh) row col (vdata dat)) by (auto; congruence).
  split; [|split].
  - apply concat_length_le. intros i _. apply canonical_row_length.
  - intros Hlen. apply (buckets_nodup row col (vdata dat)); try congruence.
    intros i. destruct (Z.le_gt_cases 0 i) as [Hi0|Hi0];
      [destruct (Z.lt_ge_cases i (fst sh)) as [Hi|Hi]|].
    + apply (canonical_row_full (order:=tie row col (vdata dat))).
      pose proof (concat_length_tight
                    (fun i => sum_duplicates
                                (sort_indices (tie row col (vdata dat))
                                   (bucket (Z.of_nat i) row col (vdata dat))))
                    (fun i => bucket (Z.of_nat i) row col (vdata dat))
                    (seq 0 (Z.to_nat (fst sh)))
                    (fun i _ => proj1 (canonical_row_length
                                         (order:=tie row col (vdata dat)) _ _ _ _))
                    Hlen
                    (Z.to_nat i)) as Ht.
      cbv beta in Ht. rewrite Z2Nat.id in Ht by lia. apply Ht. apply in_seq. lia.
    + rewrite bucket_nil; [constructor|].
      intros Hin. rewrite Forall_forall in Br. apply Br in Hin. lia.
    + rewrite bucket_nil; [constructor|].
      intros Hin. rewrite Forall_forall in Br. apply Br in Hin. lia.
  - intros Hn. apply concat_length_eq. intros i _.
    now apply canonical_row_length.
Qed.

Lemma X6_stored_entries_count_the_edges_witness :
  (nnz bipartite_biadjacency <= length bipartite)%nat
  /\ (nnz bipartite_biadjacency = length bipartite
      <-> NoDup (combine [0; 1; 1; 2] [0; 0; 1; 1])).
Proof.
  exact (X6_stored_entries_count_the_edges stable scalar_add bipartite
           (mkvec Bool [SBool true; SBool true; SBool true; SBool true])
           [0; 1; 1; 2] [0; 0; 1; 1] bipartite_biadjacency
           eq_refl (or_intror eq_refl)).
Defined.

Lemma records_at_map {A : Type} (f g : A -> Z) (h : A -> scalar) (i j : Z)
      (l : list A) :
  records_at i j (map f l) (map g l) (map h l)
  = map h (filter (fun a => (f a =? i) && (g a =? j)) l).
Proof.
  induction l as [|a t IH]; simpl; [reflexivity|].
  destruct ((f a =? i) && (g a =? j)); simpl; now rewrite IH.
Qed.

Lemma filter_coordinate {A : Type} (f g : A -> Z) (l : list A) (a : A) :
  NoDup (map (fun a => (f a, g a)) l) -> In a l ->
  filter (fun a' => (f a' =? f a) && (g a' =? g a)) l = [a].
Proof.
  induction l as [|b t IH]; simpl; intros Hn Hin; [contradiction|].
  inversion Hn as [|? ? Hnot Hn']; subst.
  assert (Hnone : forall a0, ~ In (f a0, g a0) (map (fun a => (f a, g a)) t) ->
                             filter (fun a' => (f a' =? f a0) && (g a' =? g a0)) t = []).
  { intros a0 H0. clear -H0. induction t as [|c t IHt]; [reflexivity|]. simpl.
    destruct (Z.eqb_spec (f c) (f a0)) as [E1|_]; simpl.
    - destruct (Z.eqb_spec (g c) (g a0)) as [E2|_].
      + exfalso. apply H0. left. now rewrite E1, E2.
      + apply IHt. intros H. apply H0. now right.
    - apply IHt. intros H. apply H0. now right. }
  destruct Hin as [->|Hin].
  - rewrite !Z.eqb_refl. simpl. f_equal. now apply Hnone.
  - destruct (Z.eqb_spec (f b) (f a)) as [E1|_]; simpl; [|now apply IH].
    destruct (Z.eqb_spec (g b) (g a)) as [E2|_]; [|now apply IH].
    exfalso. apply Hnot. rewrite E1, E2.
    apply (in_map (fun a => (f a, g a))) in Hin. exact Hin.
Qed.

(** The value buffer decoded from a well-formed edge list. *)
Lemma decode_well_formed_data (el : list edge) (k : nat) :
  el <> [] -> Forall (fun e => well_formed k e = true) el ->
  decode el
  = Ok (mkvec (if (2 <? k)%nat then result_type (concat el) else Bool)
              (map (stored_weight (result_type (concat el))) el),
        rows_of el, cols_of el).
Proof.
  intros Hne Hwf.
  destruct (decode_well_formed el k Hne Hwf) as (dat & Hd & _).
  rewrite Hd. do 3 f_equal.
  assert (Hk : Forall (fun e : edge => length e = k) el /\ (2 <= k)%nat).
  { destruct el as [|e t]; [contradiction|]. split.
    - rewrite Forall_forall in *. intros e' He'.
      now destruct (well_formed_inv k e' (Hwf e' He')) as (? & ? & ? & _ & _ & _ & H & _).
    - inversion Hwf as [|? ? He _]; subst.
      now destruct (well_formed_inv k e He) as (? & ? & ? & _ & _ & _ & _ & H & _). }
  destruct Hk as [Hk H2].
  rewrite (decode_uniform el k Hne Hk H2) in Hd.
  inv_bind Hd. inv_bind Hd. inversion Hd as [[Hdat Hrow Hcol]]. subst v v0.
  rewrite Forall_forall in Hwf.
  destruct (Nat.ltb_spec 2 k) as [H3|H3]; [f_equal|].
  - apply map_ext_in. intros e He. specialize (Hwf e He).
    destruct e as [|i [|j [|w [|x e]]]]; simpl in Hwf; try discriminate.
    + apply andb_true_iff in Hwf. destruct Hwf as [Hwf _].
      apply andb_true_iff in Hwf. destruct Hwf as [Hwf _].
      apply Nat.eqb_eq in Hwf. lia.
    + reflexivity.
  - unfold ones_like_bool, rows_of. rewrite map_map. f_equal.
    apply map_ext_in. intros e He. specialize (Hwf e He).
    destruct e as [|i [|j [|w [|x e]]]]; simpl in Hwf; try discriminate.
    + reflexivity.
    + apply andb_true_iff in Hwf. destruct Hwf as [Hwf _].
      apply andb_true_iff in Hwf. destruct Hwf as [Hwf _].
      apply andb_true_iff in Hwf. destruct Hwf as [Hwf _].
      apply Nat.eqb_eq in Hwf. lia.
Qed.

(** Both conversions succeed on a well-formed edge list, through the
    constructor applied to the buffers of [decode_well_formed_data]. *)
Lemma conversions_well_formed (tie : tie_break) (op : scalar -> scalar -> scalar)
      (el : list edge) (k : nat) :
  el <> [] -> Forall (fun e => well_formed k e = true) el ->
  exists (A B : csr_matrix) (sa sb : Z * Z),
    edgelist2adjacency tie op el false = Ok A
    /\ edgelist2biadjacency tie el = Ok B
    /\ csr_matrix_coo tie
         (mkvec (if (2 <? k)%nat then result_type (concat el) else Bool)
                (map (stored_weight (result_type (concat el))) el))
         (rows_of el) (cols_of el) sa = Ok A
    /\ csr_matrix_coo tie
         (mkvec (if (2 <? k)%nat then result_type (concat el) else Bool)
                (map (stored_weight (result_type (concat el))) el))
         (rows_of el) (cols_of el) sb = Ok B.
Proof.
  intros Hne Hwf.
  pose proof (decode_well_formed_data el k Hne Hwf) as Hd.
  destruct (decode_well_formed el k Hne Hwf) as (dat0 & _ & _ & _ & Hr & Hc).
  destruct (decode_maxima _ _ _ _ Hd)
    as (rmax & cmax & Hrm & Hcm & Mr & Mc & Wr & Wc & Wm & L1 & L2).
  assert (Hobj : vdtype (mkvec (if (2 <? k)%nat then result_type (concat el) else Bool)
                               (map (stored_weight (result_type (concat el))) el))
                 <> Object).
  { cbn [vdtype]. destruct (2 <? k)%nat; [|discriminate].
    destruct (result_type_well_formed el k Hne Hwf) as [-> | ->]; discriminate. }
  assert (Hnn : Forall (fun z => 0 <= z) (rows_of el ++ cols_of el)).
  { apply Forall_app. split; eapply Forall_impl; try eassumption; simpl; intros; lia. }
  pose proof (proj2 (valid_shape _ _ rmax cmax (Z.max rmax cmax + 1)
                                 (Z.max rmax cmax + 1) Mr Mc ltac:(lia) ltac:(lia)) Hnn)
    as (Va1 & Va2 & Va3 & Va4).
  pose proof (proj2 (valid_shape _ _ rmax cmax (rmax + 1) (cmax + 1) Mr Mc
                                 ltac:(lia) ltac:(lia)) Hnn)
    as (Vb1 & Vb2 & Vb3 & Vb4).
  rewrite edgelist2adjacency_decode, edgelist2biadjacency_decode, Hd.
  cbn [bind]. rewrite Hrm, Hcm. cbn [bind]. rewrite Wr, Wc, Wm.
  pose proof (csr_matrix_coo_bounds (tie:=tie) _ _ _
                                    (Z.max rmax cmax + 1, Z.max rmax cmax + 1)
                                    Hobj L1 L2 Va1 Va2 Va3 Va4) as Ea.
  pose proof (csr_matrix_coo_bounds (tie:=tie) _ _ _ (rmax + 1, cmax + 1)
                                    Hobj L1 L2 Vb1 Vb2 Vb3 Vb4) as Eb.
  rewrite Ea, Eb. cbn [bind].
  do 2 eexists. exists (Z.max rmax cmax + 1, Z.max rmax cmax + 1), (rmax + 1, cmax + 1).
  repeat split; assumption.
Qed.

(** X7: building and then reading gives the weights back.  On a well-formed
    edge list in which no coordinate is named twice both conversions return a
    matrix that stores, at the coordinate of every record, the weight of that
    record converted to the element type of the matrix (the marker [true] for
    a pair); a float weight is stored as it is. *)
Theorem X7_lookup_returns_the_weight :
  forall (tie : tie_break) (op : scalar -> scalar -> scalar) (el : list edge) (k : nat),
    el <> [] -> Forall (fun e => well_formed k e = true) el ->
    NoDup (map coordinate el) ->
    exists A B : csr_matrix,
      edgelist2adjacency tie op el false = Ok A
      /\ edgelist2biadjacency tie el = Ok B
      /\ (forall e : edge, In e el ->
            stored A (Z.to_nat (fst (coordinate e))) (snd (coordinate e))
            = Some (stored_weight (dtype A) e)
            /\ stored B (Z.to_nat (fst (coordinate e))) (snd (coordinate e))
               = Some (stored_weight (dtype B) e))
      /\ (forall (i j : Z) (f : float64),
            In (triple i j (PyFloat f)) el ->
            stored A (Z.to_nat i) j = Some (SFloat f)
            /\ stored B (Z.to_nat i) j = Some (SFloat f)).
Proof.
  intros tie op el k Hne Hwf Hnd.
  destruct (conversions_well_formed tie op el k Hne Hwf)
    as (A & B & sa & sb & HA & HB & Ca & Cb).
  assert (Hrec : forall e, In e el ->
             records_at (Z.of_nat (Z.to_nat (fst (coordinate e))))
                        (snd (coordinate e)) (rows_of el) (cols_of el)
                        (map (stored_weight (result_type (concat el))) el)
             = [stored_weight (result_type (concat el)) e]).
  { intros e He. unfold rows_of, cols_of.
    rewrite records_at_map.
    assert (H0 : 0 <= fst (coordinate e)).
    { rewrite Forall_forall in Hwf.
      destruct (well_formed_inv k e (Hwf e He)) as (i & j & w & -> & Hi & _).
      apply is_index_spec in Hi. destruct Hi as (z & -> & Hz). simpl. lia. }
    rewrite Z2Nat.id by exact H0. unfold coordinate at 1 2. cbn [fst snd].
    rewrite (filter_coordinate (fun e => index_of (nth 0 e (PyInt 0)))
                               (fun e => index_of (nth 1 e (PyInt 0))) el e Hnd He).
    reflexivity. }
  assert (Hdt : forall e, In e el ->
             stored_weight (if (2 <? k)%nat then result_type (concat el) else Bool) e
             = stored_weight (result_type (concat el)) e).
  { intros e He. destruct (Nat.ltb_spec 2 k) as [H3|H3]; [reflexivity|].
    rewrite Forall_forall in Hwf. specialize (Hwf e He).
    destruct e as [|i [|j [|w [|x e]]]]; simpl in Hwf; try discriminate; [reflexivity|].
    exfalso.
    apply andb_true_iff in Hwf. destruct Hwf as [Hwf _].
    apply andb_true_iff in Hwf. destruct Hwf as [Hwf _].
    apply andb_true_iff in Hwf. destruct Hwf as [Hwf _].
    apply Nat.eqb_eq in Hwf. lia. }
  assert (Hall : forall e : edge, In e el ->
             stored A (Z.to_nat (fst (coordinate e))) (snd (coordinate e))
             = Some (stored_weight (dtype A) e)
             /\ stored B (Z.to_nat (fst (coordinate e))) (snd (coordinate e))
                = Some (stored_weight (dtype B) e)).
  { intros e He.
    pose proof (coo_stored _ _ _ _ _ Ca (Z.to_nat (fst (coordinate e)))
                           (snd (coordinate e))) as Sa.
    pose proof (coo_stored _ _ _ _ _ Cb (Z.to_nat (fst (coordinate e)))
                           (snd (coordinate e))) as Sb.
    cbn [vdata] in Sa, Sb. rewrite (Hrec e He) in Sa, Sb.
    rewrite Sa, Sb by (apply order_free_single; simpl; lia).
    rewrite (coo_dtype _ _ _ _ _ Ca), (coo_dtype _ _ _ _ _ Cb).
    cbn [vdtype sum_scalars fold_left]. rewrite (Hdt e He). split; reflexivity. }
  exists A, B. split; [exact HA|]. split; [exact HB|]. split; [exact Hall|].
  intros i j f Hin. specialize (Hall _ Hin).
  assert (Hi : index_of (nth 0 (triple i j (PyFloat f)) (PyInt 0)) = i) by reflexivity.
  unfold coordinate in Hall. cbn [fst snd triple nth index_of] in Hall.
  assert (Hk3 : (2 <? k)%nat = true).
  { rewrite Forall_forall in Hwf. specialize (Hwf _ Hin). simpl in Hwf.
    apply andb_true_iff in Hwf. destruct Hwf as [Hwf _].
    apply andb_true_iff in Hwf. destruct Hwf as [Hwf _].
    apply andb_true_iff in Hwf. destruct Hwf as [Hwf _].
    apply Nat.eqb_eq in Hwf. subst k. reflexivity. }
  assert (Hf : result_type (concat el) = Float64).
  { destruct (result_type_well_formed el k Hne Hwf) as [E|E]; [|exact E].
    assert (Hex : Exists (Exists (fun p => is_float p = true)) el).
    { apply Exists_exists. exists (triple i j (PyFloat f)). split; [exact Hin|].
      unfold triple. apply Exists_cons_tl, Exists_cons_tl, Exists_cons_hd. reflexivity. }
    destruct (result_type_float _ (concat_Exists _ _ Hex)) as [E'|E']; congruence. }
  rewrite (coo_dtype _ _ _ _ _ Ca), (coo_dtype _ _ _ _ _ Cb) in Hall.
  cbn [vdtype] in Hall. rewrite Hk3, Hf in Hall. exact Hall.
Qed.

Lemma X7_lookup_returns_the_weight_witness :
  exists A B : csr_matrix,
    edgelist2adjacency stable scalar_add weighted_triangle false = Ok A
    /\ edgelist2biadjacency stable weighted_triangle = Ok B
    /\ (forall e : edge, In e weighted_triangle ->
          stored A (Z.to_nat (fst (coordinate e))) (snd (coordinate e))
          = Some (stored_weight (dtype A) e)
          /\ stored B (Z.to_nat (fst (coordinate e))) (snd (coordinate e))
             = Some (stored_weight (dtype B) e))
    /\ (forall (i j : Z) (f : float64),
          In (triple i j (PyFloat f)) weighted_triangle ->
          stored A (Z.to_nat i) j = Some (SFloat f)
          /\ stored B (Z.to_nat i) j = Some (SFloat f)).
Proof.
  apply (X7_lookup_returns_the_weight stable scalar_add weighted_triangle 3%nat).
  - discriminate.
  - repeat constructor.
  - repeat constructor; simpl; intuition discriminate.
Defined.

(** ** The order of the edges *)

Lemma is_max_unique (l : list Z) (m m' : Z) : is_max m l -> is_max m' l -> m = m'.
Proof.
  intros [H1 H2] [H3 H4]. rewrite Forall_forall in H2, H4.
  apply H2 in H3. apply H4 in H1. lia.
Qed.

Lemma max_perm (l l' : list Z) : Permutation l l' -> Np.max l = Np.max l'.
Proof.
  intros Hp. destruct l as [|x t].
  - apply Permutation_nil in Hp. now subst.
  - destruct l' as [|x' t']; [symmetry in Hp; now apply Permutation_nil in Hp|].
    pose proof (max_is_max (x :: t) _ eq_refl) as [I F].
    pose proof (max_is_max (x' :: t') _ eq_refl) as M'.
    simpl. f_equal. apply (is_max_unique (x' :: t')); [|exact M'].
    split; [now apply (Permutation_in _ Hp)|].
    now apply (Permutation_Forall Hp).
Qed.

(** The constructor sees its triplets through the sums at each coordinate,
    whatever the tie-breaks, when the sums do not depend on the order of
    addition. *)
Lemma csr_matrix_coo_ext (tie tie' : tie_break) (dat dat' : vector)
      (row col row' col' : list Z) (sh : Z * Z) :
  vdtype dat = vdtype dat' ->
  length row = length (vdata dat) -> length col = length (vdata dat) ->
  length row' = length (vdata dat') -> length col' = length (vdata dat') ->
  Permutation row row' -> Permutation col col' ->
  (forall i j : Z, order_free (records_at i j row col (vdata dat))) ->
  (forall i j : Z,
      Permutation (records_at i j row col (vdata dat))
                  (records_at i j row' col' (vdata dat'))) ->
  csr_matrix_coo tie dat row col sh = csr_matrix_coo tie' dat' row' col' sh.
Proof.
  intros Hdt L1 L2 L1' L2' Pr Pc Hfree Hrec.
  pose proof (csr_matrix_coo_outcome tie dat row col sh L1 L2) as H.
  pose proof (csr_matrix_coo_outcome tie' dat' row' col' sh L1' L2') as H'.
  assert (Hv : (0 <= fst sh /\ 0 <= snd sh
                /\ Forall (fun r => 0 <= r < fst sh) row
                /\ Forall (fun c => 0 <= c < snd sh) col)
               <-> (0 <= fst sh /\ 0 <= snd sh
                    /\ Forall (fun r => 0 <= r < fst sh) row'
                    /\ Forall (fun c => 0 <= c < snd sh) col')).
  { split; intros (V1 & V2 & V3 & V4); repeat split; auto.
    - now apply (Permutation_Forall Pr).
    - now apply (Permutation_Forall Pc).
    - now apply (Permutation_Forall (Permutation_sym Pr)).
    - now apply (Permutation_Forall (Permutation_sym Pc)). }
  destruct (csr_matrix_coo tie dat row col sh) as [A|e] eqn:E;
    destruct (csr_matrix_coo tie' dat' row' col' sh) as [A'|e'] eqn:E'.
  - f_equal.
    pose proof (csr_matrix_coo_Ok _ _ _ _ _ E) as (-> & _ & _ & _ & _ & _ & Br & _).
    pose proof (csr_matrix_coo_Ok _ _ _ _ _ E') as (-> & _).
    rewrite Hdt. f_equal. unfold canonical_rows. apply map_ext. intros i.
    apply ascending_ext.
    + apply sum_duplicates_sorted, sort_indices_sorted.
    + apply sum_duplicates_sorted, sort_indices_sorted.
    + intros c. rewrite !sum_duplicates_lookup by apply sort_indices_sorted.
      rewrite (Hfree (Z.of_nat i) c
                     (map snd (filter (fun h => fst h =? c)
                                      (sort_indices (tie row col (vdata dat))
                                         (bucket (Z.of_nat i) row col (vdata dat)))))).
      * symmetry. apply Hfree. rewrite (Hrec (Z.of_nat i) c).
        rewrite <- bucket_records. apply Permutation_map, sort_indices_filter.
      * rewrite <- bucket_records. apply Permutation_map, sort_indices_filter.
  - exfalso. rewrite Hdt in H. destruct e'; try contradiction; tauto.
  - exfalso. rewrite Hdt in H. destruct e; try contradiction; tauto.
  - rewrite Hdt in H. destruct e, e'; try contradiction; try reflexivity;
      exfalso; tauto.
Qed.

Lemma forall_perm {A : Type} (P : A -> Prop) (l l' : list A) :
  Permutation l l' -> Forall P l -> Forall P l'.
Proof. intros Hp. now apply Permutation_Forall. Qed.

(** X8: for an edge list of 64-bit integers, weighted or not, the order of
    the records is irrelevant, and so is the order in which the sort leaves
    the entries of one column: listing the same records (of one common
    length of at least two fields) in another order gives the same result,
    matrix or exception, in both conversions. *)
Theorem X8_order_of_edges_is_irrelevant :
  forall (tie tie' : tie_break) (op : scalar -> scalar -> scalar)
         (el el' : list edge) (k : nat) (undirected : bool),
    Permutation el el' ->
    (2 <= k)%nat -> Forall (fun e => length e = k) el ->
    Forall (Forall (fun p => is_int64 p = true)) el ->
    edgelist2adjacency tie op el undirected
    = edgelist2adjacency tie' op el' undirected
    /\ edgelist2biadjacency tie el = edgelist2biadjacency tie' el'.
Proof.
  intros tie tie' op el el' k undirected Hp H2 Hk Hint.
  destruct el as [|e0 t0].
  { apply Permutation_nil in Hp. subst. split; reflexivity. }
  assert (Hne : e0 :: t0 <> []) by discriminate.
  assert (Hne' : el' <> []).
  { intros ->. symmetry in Hp. now apply Permutation_nil in Hp. }
  pose proof (forall_perm _ _ _ Hp Hk) as Hk'.
  pose proof (forall_perm _ _ _ Hp Hint) as Hint'.
  set (el := e0 :: t0) in *.
  pose proof (decode_int64 el k Hne Hk H2 Hint) as Hd.
  pose proof (decode_int64 el' k Hne' Hk' H2 Hint') as Hd'.
  set (f := fun e : list pyval => wrap32 (index_of (nth 0 e (PyInt 0)))) in *.
  set (g := fun e : list pyval => wrap32 (index_of (nth 1 e (PyInt 0)))) in *.
  assert (Pr : Permutation (map f el) (map f el')) by now apply Permutation_map.
  assert (Pc : Permutation (map g el) (map g el')) by now apply Permutation_map.
  assert (Hcoo : forall sh,
             csr_matrix_coo tie
               (if (2 <? k)%nat
                then mkvec Int64 (map (fun e => SInt (index_of (nth 2 e (PyInt 0)))) el)
                else ones_like_bool (map f el)) (map f el) (map g el) sh
             = csr_matrix_coo tie'
                 (if (2 <? k)%nat
                  then mkvec Int64 (map (fun e => SInt (index_of (nth 2 e (PyInt 0)))) el')
                  else ones_like_bool (map f el')) (map f el') (map g el') sh).
  { intros sh. destruct (2 <? k)%nat.
    - apply csr_matrix_coo_ext; cbn [vdata vdtype]; rewrite ?length_map; auto.
      + intros i j. apply (order_free_typed Int64); [|discriminate|now left].
        apply records_at_all, Forall_forall. intros x Hx. apply in_map_iff in Hx.
        now destruct Hx as (e & <- & _).
      + intros i j. rewrite !records_at_map.
        apply Permutation_map. now apply filter_perm.
    - unfold ones_like_bool. rewrite !map_map.
      apply csr_matrix_coo_ext; cbn [vdata vdtype]; rewrite ?length_map; auto.
      + intros i j. apply (order_free_typed Bool); [|discriminate|now left].
        apply records_at_all, Forall_forall. intros x Hx. apply in_map_iff in Hx.
        now destruct Hx as (e & <- & _).
      + intros i j. rewrite !records_at_map.
        apply Permutation_map. now apply filter_perm. }
  rewrite !edgelist2adjacency_decode, !edgelist2biadjacency_decode, Hd, Hd'.
  cbn [bind]. rewrite <- (max_perm _ _ Pr), <- (max_perm _ _ Pc).
  destruct (Np.max (map f el)) as [rmax|e]; [|split; reflexivity]. cbn [bind].
  destruct (Np.max (map g el)) as [cmax|e]; [|split; reflexivity]. cbn [bind].
  rewrite !Hcoo. split; reflexivity.
Qed.

Lemma X8_order_of_edges_is_irrelevant_witness :
  edgelist2adjacency stable scalar_add integer_weights true
  = edgelist2adjacency stable scalar_add
      [triple 1 2 (PyInt 4); triple 0 1 (PyInt 2); triple 2 0 (PyInt 1)] true
  /\ edgelist2biadjacency stable integer_weights
     = edgelist2biadjacency stable
         [triple 1 2 (PyInt 4); triple 0 1 (PyInt 2); triple 2 0 (PyInt 1)].
Proof.
  apply (X8_order_of_edges_is_irrelevant stable stable scalar_add
           integer_weights _ 3%nat true).
  - apply perm_swap.
  - lia.
  - repeat constructor.
  - repeat constructor.
Defined.

(** ** Fields beyond the third *)

Lemma nth_firstn_lt {A : Type} (l : list A) (n j : nat) (d : A) :
  (j < n)%nat -> nth j (firstn n l) d = nth j l d.
Proof.
  revert n j; induction l as [|a t IH]; intros n j Hj.
  - now rewrite firstn_nil.
  - destruct n as [|n]; [lia|]. simpl. destruct j as [|j]; [reflexivity|].
    apply IH. lia.
Qed.

Lemma firstn_Forall {A : Type} (P : A -> Prop) (l : list A) (n : nat) :
  Forall P l -> Forall P (firstn n l).
Proof.
  intros H. rewrite Forall_forall in *. intros x Hx. apply H.
  rewrite <- (firstn_skipn n l). apply in_app_iff. now left.
Qed.

(** X9: fields after the third are not looked at.  For an edge list of
    64-bit integers whose records have one common length of at least three
    fields, both conversions return what they return on the list of the
    records cut down to their first three fields. *)
Theorem X9_fields_after_the_third_are_ignored :
  forall (tie : tie_break) (op : scalar -> scalar -> scalar) (el : list edge) (k : nat)
         (undirected : bool),
    (3 <= k)%nat -> Forall (fun e => length e = k) el ->
    Forall (Forall (fun p => is_int64 p = true)) el ->
    edgelist2adjacency tie op el undirected
    = edgelist2adjacency tie op (map (firstn 3) el) undirected
    /\ edgelist2biadjacency tie el = edgelist2biadjacency tie (map (firstn 3) el).
Proof.
  intros tie op el k undirected H3 Hk Hint.
  destruct el as [|e0 t0]; [split; reflexivity|].
  set (el := e0 :: t0) in *.
  assert (Hne : el <> []) by discriminate.
  assert (Hne' : map (firstn 3) el <> []) by discriminate.
  assert (Hk' : Forall (fun e : edge => length e = 3%nat) (map (firstn 3) el)).
  { apply Forall_forall. intros e He. apply in_map_iff in He.
    destruct He as (e' & <- & He'). rewrite Forall_forall in Hk.
    rewrite length_firstn, (Hk e' He'). lia. }
  assert (Hint' : Forall (Forall (fun p => is_int64 p = true)) (map (firstn 3) el)).
  { apply Forall_forall. intros e He. apply in_map_iff in He.
    destruct He as (e' & <- & He'). apply firstn_Forall.
    rewrite Forall_forall in Hint. auto. }
  assert (Hd : decode (map (firstn 3) el) = decode el).
  { rewrite (decode_int64 el k Hne Hk ltac:(lia) Hint).
    rewrite (decode_int64 _ 3 Hne' Hk' ltac:(lia) Hint').
    replace (2 <? k)%nat with true by (symmetry; apply Nat.ltb_lt; lia).
    change (2 <? 3)%nat with true. cbv iota.
    rewrite !map_map.
    assert (Hnth : forall (T : Type) (j : nat) (F : pyval -> T),
               (j < 3)%nat ->
               map (fun x : list pyval => F (nth j (firstn 3 x) (PyInt 0))) el
               = map (fun e : list pyval => F (nth j e (PyInt 0))) el).
    { intros T j F Hj. apply map_ext. intros e. now rewrite nth_firstn_lt. }
    rewrite (Hnth scalar 2%nat (fun p => SInt (index_of p))) by lia.
    rewrite (Hnth Z 0%nat (fun p => wrap32 (index_of p))) by lia.
    rewrite (Hnth Z 1%nat (fun p => wrap32 (index_of p))) by lia.
    reflexivity. }
  rewrite !edgelist2adjacency_decode, !edgelist2biadjacency_decode, Hd.
  split; reflexivity.
Qed.

Lemma X9_fields_after_the_third_are_ignored_witness :
  edgelist2adjacency stable scalar_add [[PyInt 0; PyInt 1; PyInt 7; PyInt 9]] false
  = edgelist2adjacency stable scalar_add
      (map (firstn 3) [[PyInt 0; PyInt 1; PyInt 7; PyInt 9]]) false
  /\ edgelist2biadjacency stable [[PyInt 0; PyInt 1; PyInt 7; PyInt 9]]
     = edgelist2biadjacency stable
         (map (firstn 3) [[PyInt 0; PyInt 1; PyInt 7; PyInt 9]]).
Proof.
  apply (X9_fields_after_the_third_are_ignored stable scalar_add
           [[PyInt 0; PyInt 1; PyInt 7; PyInt 9]] 4%nat false).
  - lia.
  - repeat constructor.
  - repeat constructor.
Defined.

(** ** The shape is tight *)

Lemma combine_In_r (row col : list Z) (c : Z) :
  length row = length col -> In c col -> exists r, In (r, c) (combine row col).
Proof.
  revert col; induction row as [|r row IH]; intros [|c' col] L H;
    simpl in *; try discriminate; try contradiction.
  destruct H as [->|H]; [exists r; now left|].
  destruct (IH col ltac:(lia) H) as [r' Hr]. exists r'. now right.
Qed.

Lemma records_at_In (r c : Z) (row col : list Z) (dat : list scalar) :
  length dat = length row -> In (r, c) (combine row col) ->
  records_at r c row col dat <> [].
Proof.
  revert col dat; induction row as [|r' row IH]; intros [|c' col] [|x dat] L H;
    simpl in *; try discriminate; try contradiction.
  destruct (Z.eqb_spec r' r) as [E1|N1], (Z.eqb_spec c' c) as [E2|N2]; simpl;
    try discriminate;
    (destruct H as [H|H]; [inversion H; subst; contradiction | apply IH; [lia | exact H]]).
Qed.

Lemma lookup_In (c : Z) (l : list entry) (x : scalar) :
  lookup c l = Some x -> In c (map fst l).
Proof.
  unfold lookup. induction l as [|h t IH]; simpl; [discriminate|].
  destruct (Z.eqb_spec (fst h) c); [now left | intros; right; auto].
Qed.

Lemma coo_stored_index {tie : tie_break} (dat : vector) (row col : list Z) (sh : Z * Z)
      (A : csr_matrix) (r c : Z) :
  csr_matrix_coo tie dat row col sh = Ok A ->
  In (r, c) (combine row col) -> In c (indices A).
Proof.
  intros H Hin.
  pose proof (csr_matrix_coo_Ok _ _ _ _ _ H) as (E & _ & L1 & L2 & _ & _ & Br & _).
  assert (Hr : 0 <= r < fst sh).
  { apply in_combine_l in Hin. rewrite Forall_forall in Br. auto. }
  assert (Hst : stored A (Z.to_nat r) c <> None).
  { rewrite (coo_stored_None _ _ _ _ _ H), Z2Nat.id by lia.
    apply records_at_In; [congruence | exact Hin]. }
  unfold stored in Hst.
  destruct (lookup c (row_entries A (Z.to_nat r))) as [x|] eqn:Hl; [|contradiction].
  apply lookup_In in Hl. rewrite E in Hl |- *.
  rewrite row_entries_of_rows in Hl. unfold of_rows; cbn [indices].
  rewrite concat_map. apply in_concat.
  exists (map fst (nth (Z.to_nat r)
                       (canonical_rows (tie row col (vdata dat)) (fst sh) row col
                                       (vdata dat)) [])).
  split; [|exact Hl]. apply in_map. apply nth_In.
  unfold canonical_rows. rewrite length_map, length_seq. lia.
Qed.

(** X10: the shape is the smallest that holds the entries.  A biadjacency
    matrix has an entry in its last row and an entry in its last column; an
    adjacency matrix, a square, has an entry in its last row or in its last
    column. *)
Theorem X10_shape_is_tight :
  forall (tie : tie_break) (op : scalar -> scalar -> scalar) (el : list edge),
    (forall B : csr_matrix,
        edgelist2biadjacency tie el = Ok B ->
        row_entries B (Z.to_nat (fst (shape B) - 1)) <> []
        /\ In (snd (shape B) - 1) (indices B))
    /\ (forall A : csr_matrix,
          edgelist2adjacency tie op el false = Ok A ->
          row_entries A (Z.to_nat (fst (shape A) - 1)) <> []
          \/ In (snd (shape A) - 1) (indices A)).
Proof.
  intros tie op el.
  assert (Hlast : forall dat row col sh A rmax cmax,
             csr_matrix_coo tie dat row col sh = Ok A ->
             is_max rmax row -> is_max cmax col ->
             row_entries A (Z.to_nat rmax) <> [] /\ In cmax (indices A)).
  { intros dat row col sh A rmax cmax H [Ir _] [Ic _].
    pose proof (csr_matrix_coo_Ok _ _ _ _ _ H) as (_ & _ & L1 & L2 & _ & _ & Br & _).
    split.
    - intros Hnil. apply (coo_row_nil _ _ _ _ _ H) in Hnil. apply Hnil.
      rewrite Z2Nat.id; [exact Ir|]. rewrite Forall_forall in Br.
      specialize (Br _ Ir). lia.
    - destruct (combine_In_r row col cmax ltac:(congruence) Ic) as [r Hr].
      exact (coo_stored_index _ _ _ _ _ _ _ H Hr). }
  split.
  - intros B HB. apply edgelist2biadjacency_Ok in HB.
    destruct HB as (dat & row & col & rmax & cmax & Hd & Hr & Hc & H).
    destruct (decode_maxima el dat row col Hd)
      as (r0 & c0 & Hr0 & Hc0 & Mr & Mc & Wr & Wc & _).
    rewrite Hr in Hr0. rewrite Hc in Hc0. inversion Hr0; inversion Hc0; subst r0 c0.
    rewrite Wr, Wc in H. rewrite (coo_shape _ _ _ _ _ H). cbn [fst snd].
    replace (rmax + 1 - 1) with rmax by lia. replace (cmax + 1 - 1) with cmax by lia.
    exact (Hlast _ _ _ _ _ _ _ H Mr Mc).
  - intros A HA. apply edgelist2adjacency_Ok in HA.
    destruct HA as (dat & row & col & rmax & cmax & A0 & Hd & Hr & Hc & H & ->).
    destruct (decode_maxima el dat row col Hd)
      as (r0 & c0 & Hr0 & Hc0 & Mr & Mc & _ & _ & Wm & _).
    rewrite Hr in Hr0. rewrite Hc in Hc0. inversion Hr0; inversion Hc0; subst r0 c0.
    rewrite Wm in H. rewrite (coo_shape _ _ _ _ _ H). cbn [fst snd].
    replace (Z.max rmax cmax + 1 - 1) with (Z.max rmax cmax) by lia.
    destruct (Hlast _ _ _ _ _ _ _ H Mr Mc) as [H1 H2].
    destruct (Z.max_spec rmax cmax) as [[_ ->]|[_ ->]]; [right | left]; assumption.
Qed.

Lemma X10_shape_is_tight_witness :
  row_entries bipartite_biadjacency (Z.to_nat (fst (shape bipartite_biadjacency) - 1))
  <> []
  /\ In (snd (shape bipartite_biadjacency) - 1) (indices bipartite_biadjacency).
Proof.
  exact (proj1 (X10_shape_is_tight stable scalar_add bipartite)
               bipartite_biadjacency eq_refl).
Defined.

(** ** Indices written as floats *)

Lemma float_weighted_inv (e : edge) :
  float_weighted e = true ->
  exists i j f, e = [i; j; PyFloat f]
                /\ is_index (truncate_index i) = true
                /\ is_index (truncate_index j) = true.
Proof.
  destruct e as [|i [|j [|[z|f] [|x e]]]]; simpl; try discriminate.
  intros H. apply andb_true_iff in H. destruct H as [Hi Hj].
  exists i, j, f. auto.
Qed.

Lemma to_int32_truncate_index (p : pyval) :
  is_index (truncate_index p) = true ->
  to_int32 (convert Float64 (truncate_index p)) = to_int32 (convert Float64 p).
Proof.
  destruct p as [z|f]; [reflexivity|]. cbn [truncate_index].
  destruct (f64_trunc f) as [t|] eqn:Ht; [|reflexivity].
  intros Hi. apply is_index_spec in Hi. destruct Hi as (z & Hz & Hr).
  inversion Hz; subst z. cbn [convert to_int32]. f_equal.
  rewrite f64_to_int32_of_Z by exact Hr.
  unfold f64_to_int32. rewrite Ht.
  replace (in_int32 t) with true; [reflexivity|].
  symmetry. apply in_int32_spec. unfold INT32_MIN, INT32_MAX in *.
  change (2 ^ 31) with 2147483648 in *. lia.
Qed.

Lemma truncate_index_type (p : pyval) :
  is_index (truncate_index p) = true ->
  scalar_type p <> Object /\ is_index (truncate_index p) = true.
Proof.
  intros H. split; [|exact H]. destruct p as [z|f]; [|discriminate].
  simpl in H. rewrite (is_index_type (PyInt z) H). discriminate.
Qed.

Lemma result_type_float_weighted (el : list edge) :
  el <> [] -> Forall (fun e => float_weighted e = true) el ->
  result_type (concat el) = Float64.
Proof.
  intros Hne Hfw.
  assert (Hall : Forall (fun p => scalar_type p <> Object) (concat el)).
  { apply concat_Forall. rewrite Forall_forall in *. intros e He.
    destruct (float_weighted_inv e (Hfw e He)) as (i & j & f & -> & Hi & Hj).
    constructor; [now apply truncate_index_type|].
    constructor; [now apply truncate_index_type|].
    constructor; [discriminate | constructor]. }
  assert (Hex : Exists (fun p => is_float p = true) (concat el)).
  { apply concat_Exists. destruct el as [|e t]; [contradiction|].
    inversion Hfw as [|? ? He _]; subst.
    destruct (float_weighted_inv e He) as (i & j & f & -> & _).
    apply Exists_cons_hd. apply Exists_cons_tl, Exists_cons_tl, Exists_cons_hd.
    reflexivity. }
  destruct (result_type_float _ Hex) as [E|E]; [exact E|].
  exfalso. destruct (concat el) as [|p t] eqn:Hc; [inversion Hex|].
  unfold result_type in E. inversion Hall as [|? ? Hp Ht]; subst.
  pose proof (scalar_type_not_Bool p) as Hb.
  assert (Hd : scalar_type p = Int64 \/ scalar_type p = Float64
               \/ scalar_type p = UInt64).
  { destruct (scalar_type p); auto; contradiction. }
  assert (Hfold : forall (l : list pyval) (d : Np.dtype),
             d <> Object -> d <> Bool ->
             Forall (fun p => scalar_type p <> Object) l ->
             fold_left (fun d q => promote_types d (scalar_type q)) l d <> Object).
  { induction l as [|q l IHl]; simpl; intros d Hd1 Hd2 Hl; [exact Hd1|].
    inversion Hl as [|? ? Hq Hl']; subst.
    pose proof (scalar_type_not_Bool q).
    apply IHl; [| |exact Hl'];
      destruct d, (scalar_type q); simpl; try discriminate; contradiction. }
  apply (Hfold t (scalar_type p)); assumption.
Qed.

Lemma truncate_indices_well_formed (e : edge) :
  float_weighted e = true -> well_formed 3 (truncate_indices e) = true.
Proof.
  intros H. destruct (float_weighted_inv e H) as (i & j & f & -> & Hi & Hj).
  simpl. now rewrite Hi, Hj.
Qed.

(** X11: an index written as a float is truncated toward zero, silently.
    For weighted records with float weights whose indices truncate to
    integers of [0, 2^31), both conversions return what they return on the
    records with every index replaced by the integer it truncates to, and
    those records are well formed. *)
Theorem X11_float_indices_are_truncated :
  forall (tie : tie_break) (op : scalar -> scalar -> scalar) (el : list edge)
         (undirected : bool),
    Forall (fun e => float_weighted e = true) el ->
    edgelist2adjacency tie op el undirected
    = edgelist2adjacency tie op (map truncate_indices el) undirected
    /\ edgelist2biadjacency tie el = edgelist2biadjacency tie (map truncate_indices el)
    /\ Forall (fun e => well_formed 3 e = true) (map truncate_indices el).
Proof.
  intros tie op el undirected Hfw.
  assert (Hwf : Forall (fun e => well_formed 3 e = true) (map truncate_indices el)).
  { apply Forall_forall. intros e He. apply in_map_iff in He.
    destruct He as (e' & <- & He'). apply truncate_indices_well_formed.
    rewrite Forall_forall in Hfw. auto. }
  destruct el as [|e0 t0]; [repeat split; constructor|].
  set (el := e0 :: t0) in *.
  assert (Hne : el <> []) by discriminate.
  assert (Hne' : map truncate_indices el <> []) by discriminate.
  assert (Hk : Forall (fun e : edge => length e = 3%nat) el).
  { rewrite Forall_forall in *. intros e He.
    now destruct (float_weighted_inv e (Hfw e He)) as (i & j & f & -> & _). }
  assert (Hk' : Forall (fun e : edge => length e = 3%nat) (map truncate_indices el)).
  { rewrite Forall_forall in *. intros e He.
    now destruct (well_formed_inv 3 e (Hwf e He)) as (? & ? & ? & _ & _ & _ & H & _). }
  assert (Hfw' : Forall (fun e => float_weighted e = true) (map truncate_indices el)).
  { apply Forall_forall. intros e He. apply in_map_iff in He.
    destruct He as (e' & <- & He'). rewrite Forall_forall in Hfw.
    destruct (float_weighted_inv e' (Hfw e' He')) as (i & j & f & -> & Hi & Hj).
    simpl. apply is_index_spec in Hi, Hj.
    destruct Hi as (zi & Ei & Ri), Hj as (zj & Ej & Rj). rewrite Ei, Ej. simpl.
    apply andb_true_iff. split; apply andb_true_iff; split; apply Z.leb_le; lia. }
  assert (Hd : decode (map truncate_indices el) = decode el).
  { rewrite (decode_uniform el 3 Hne Hk ltac:(lia)).
    rewrite (decode_uniform _ 3 Hne' Hk' ltac:(lia)).
    rewrite (result_type_float_weighted el Hne Hfw).
    rewrite (result_type_float_weighted _ Hne' Hfw').
    rewrite !mapM_map, !map_map.
    rewrite (mapM_ext_in
               (fun a => to_int32 (nth 0 (map (convert Float64) (truncate_indices a))
                                       (SObj (PyInt 0))))
               (fun a => to_int32 (nth 0 (map (convert Float64) a) (SObj (PyInt 0))))).
    2:{ intros e He. rewrite Forall_forall in Hfw.
        destruct (float_weighted_inv e (Hfw e He)) as (i & j & f & -> & Hi & Hj).
        cbn [truncate_indices map nth]. now apply to_int32_truncate_index. }
    rewrite (mapM_ext_in
               (fun a => to_int32 (nth 1 (map (convert Float64) (truncate_indices a))
                                       (SObj (PyInt 0))))
               (fun a => to_int32 (nth 1 (map (convert Float64) a) (SObj (PyInt 0))))).
    2:{ intros e He. rewrite Forall_forall in Hfw.
        destruct (float_weighted_inv e (Hfw e He)) as (i & j & f & -> & Hi & Hj).
        cbn [truncate_indices map nth]. now apply to_int32_truncate_index. }
    rewrite (map_ext_in
               (fun a => nth 2 (map (convert Float64) (truncate_indices a))
                             (SObj (PyInt 0)))
               (fun a => nth 2 (map (convert Float64) a) (SObj (PyInt 0)))).
    2:{ intros e He. rewrite Forall_forall in Hfw.
        now destruct (float_weighted_inv e (Hfw e He)) as (i & j & f & -> & Hi & Hj). }
    reflexivity. }
  rewrite !edgelist2adjacency_decode, !edgelist2biadjacency_decode, Hd.
  repeat split. exact Hwf.
Qed.

Lemma X11_float_indices_are_truncated_witness :
  Forall (fun e => float_weighted e = true) float_indexed
  /\ map truncate_indices float_indexed = [triple 1 2 (PyFloat f64_2)]
  /\ edgelist2biadjacency stable float_indexed
     = edgelist2biadjacency stable (map truncate_indices float_indexed).
Proof.
  assert (H : Forall (fun e => float_weighted e = true) float_indexed)
    by (repeat constructor).
  split; [exact H|]. split; [reflexivity|].
  exact (proj1 (proj2 (X11_float_indices_are_truncated stable scalar_add
                                                       float_indexed false H))).
Defined.
